(** * Article curation pipeline: deduplication, scoring, diversity selection

    A shallow embedding of [templates/deduplicate.js] and of the article
    selection template (scoring and diversity selection), with the properties
    of the curation pipeline stated and settled on it.

    Conventions of the embedding.
    - A JavaScript string is the sequence of its code units; the embedding
      uses Rocq's [string], so it covers code units below 256 (Latin-1).
    - A JavaScript number that holds a count, an index or a 32-bit hash is a
      [nat] or a [Z]; a similarity, a score or a weight is a rational [Q]:
      ratios are exact, the rounding of binary64 arithmetic is not modelled.
      The relevance score of [filterArticles], whose sums of tenths are
      compared with a threshold that they can meet, is a binary64 [float].
    - A [Date] is its time value: [Some ms] for a valid date, [None] for the
      Invalid Date, whose time value is NaN.
    - A [Set] iterated in insertion order is the list of its members in that
      order; a plain object used as a dictionary is a [gmap].
    - An article is a record of the fields that the code reads or writes,
      and a value: an update returns the updated record.
    - What the platform provides and the repository does not define (the URL
      parser, the serialization of query parameters) is a parameter of the
      functions that use it. *)

From Stdlib Require Import ZArith QArith Qminmax Lqa Floats Ascii String List Bool Lia Sorted.
From stdpp Require Import base decidable list strings gmap.

Local Open Scope string_scope.
Local Open Scope list_scope.

(** ** JavaScript strings *)

Module JsString.

(** [!s] for a string: only the empty string is falsy. *)
Definition truthy (s : string) : bool := negb (String.eqb s "").

Definition code (c : ascii) : nat := nat_of_ascii c.

Definition between (lo hi n : nat) : bool := (lo <=? n)%nat && (n <=? hi)%nat.

(** [String.prototype.toLowerCase] on one Latin-1 code unit: A-Z, and the
    accented capitals U+00C0..U+00DE except the multiplication sign. *)
Definition lowerChar (c : ascii) : ascii :=
  let n := code c in
  if between 65 90 n || (between 192 222 n && negb (n =? 215)%nat)
  then ascii_of_nat (n + 32) else c.

Fixpoint toLowerCase (s : string) : string :=
  match s with
  | EmptyString => EmptyString
  | String c s' => String (lowerChar c) (toLowerCase s')
  end.

(** The regular expression class [\w]: [A-Za-z0-9_]. *)
Definition isWordChar (c : ascii) : bool :=
  let n := code c in
  between 48 57 n || between 65 90 n || between 97 122 n || (n =? 95)%nat.

(** The class [\s] (white space and line terminators), which is also what
    [trim] removes: TAB, LF, VT, FF, CR, SPACE and NBSP below 256. *)
Definition isSpace (c : ascii) : bool :=
  let n := code c in
  between 9 13 n || (n =? 32)%nat || (n =? 160)%nat.

(** [s.replace(/[^\w\s]/g, ' ')] *)
Fixpoint replaceNonWordNonSpace (s : string) : string :=
  match s with
  | EmptyString => EmptyString
  | String c s' =>
      String (if isWordChar c || isSpace c then c else " "%char)
             (replaceNonWordNonSpace s')
  end.

(** [s.replace(/\s+/g, ' ')]: [inRun] tells that the previous code unit
    was white space, whose run has already produced its single space. *)
Fixpoint collapseSpacesFrom (inRun : bool) (s : string) : string :=
  match s with
  | EmptyString => EmptyString
  | String c s' =>
      if isSpace c
      then (if inRun then collapseSpacesFrom true s'
            else String " "%char (collapseSpacesFrom true s'))
      else String c (collapseSpacesFrom false s')
  end.

Definition collapseSpaces (s : string) : string := collapseSpacesFrom false s.

Fixpoint trimStart (s : string) : string :=
  match s with
  | EmptyString => EmptyString
  | String c s' => if isSpace c then trimStart s' else s
  end.

(** The string without its trailing white space. *)
Fixpoint trimEnd (s : string) : string :=
  match s with
  | EmptyString => EmptyString
  | String c s' =>
      match trimEnd s' with
      | EmptyString => if isSpace c then EmptyString else String c EmptyString
      | t => String c t
      end
  end.

Definition trim (s : string) : string := trimEnd (trimStart s).

(** [s.slice(0, n)] for a non-negative [n]. *)
Fixpoint slice0 (n : nat) (s : string) : string :=
  match n, s with
  | O, _ => EmptyString
  | S _, EmptyString => EmptyString
  | S n', String c s' => String c (slice0 n' s')
  end.

(** [s.split(sep)] for a one-character separator: never empty, the pieces
    between the separators, empty pieces included. *)
Fixpoint split (sep : ascii) (s : string) : list string :=
  match s with
  | EmptyString => [EmptyString]
  | String c s' =>
      if Ascii.eqb c sep then EmptyString :: split sep s'
      else match split sep s' with
           | [] => [String c EmptyString]
           | w :: ws => String c w :: ws
           end
  end.

(** [s.startsWith(p)] *)
Fixpoint startsWith (p s : string) : bool :=
  match p, s with
  | EmptyString, _ => true
  | String _ _, EmptyString => false
  | String a p', String b s' => Ascii.eqb a b && startsWith p' s'
  end.

(** [s.includes(p)] *)
Fixpoint includes (s p : string) : bool :=
  startsWith p s ||
  match s with
  | EmptyString => false
  | String _ s' => includes s' p
  end.

(** [s.replace(/\/$/, '')]: one trailing slash is removed. *)
Fixpoint stripTrailingSlash (s : string) : string :=
  match s with
  | EmptyString => EmptyString
  | String c EmptyString => if Ascii.eqb c "/"%char then EmptyString else s
  | String c s' => String c (stripTrailingSlash s')
  end.

End JsString.

Import JsString.

(** A character that a normalized title or content may hold: a lower-case
    letter, a digit, the underscore or the space. *)
Definition isNormalChar (c : ascii) : bool :=
  let n := code c in
  between 48 57 n || between 97 122 n || (n =? 95)%nat || (n =? 32)%nat.

Fixpoint allChars (p : ascii -> bool) (s : string) : bool :=
  match s with
  | EmptyString => true
  | String c s' => p c && allChars p s'
  end.

(** No two spaces in a row. *)
Fixpoint singleSpaced (s : string) : bool :=
  match s with
  | EmptyString => true
  | String c s' =>
      match s' with
      | String d _ => negb (Ascii.eqb c " "%char && Ascii.eqb d " "%char)
      | EmptyString => true
      end && singleSpaced s'
  end.

Definition startsWithSpace (s : string) : bool :=
  match s with
  | String c _ => Ascii.eqb c " "%char
  | EmptyString => false
  end.

(** ** Text normalizer ([deduplicate.js]) *)

(** [normalizeTitle(title)] *)
Definition normalizeTitle (title : string) : string :=
  if negb (truthy title) then ""
  else slice0 100 (trim (collapseSpaces (replaceNonWordNonSpace (toLowerCase title)))).

(** [normalizeContent(content)] *)
Definition normalizeContent (content : string) : string :=
  if negb (truthy content) then ""
  else slice0 500 (trim (collapseSpaces (replaceNonWordNonSpace (toLowerCase content)))).

(** ** Similarity engine ([deduplicate.js]) *)

(** The value stored in [matrix[i][j]], from the comparison of the two
    characters and the three neighbouring cells, in the source's order:
    substitution, insertion, deletion. *)
Definition cell (same : bool) (diag left up : nat) : nat :=
  if same then diag else Nat.min (diag + 1) (Nat.min (left + 1) (up + 1)).

(** The inner loop of [levenshteinDistance]: the cells [j >= 1] of row [i],
    for the character [c2 = str2.charAt(i - 1)], from the row above
    ([above] starts at column [j - 1]) and the cell to the left. *)
Fixpoint fillRow (c2 : ascii) (str1 : string) (above : list nat) (left : nat) : list nat :=
  match str1, above with
  | String c1 str1', diag :: ((up :: _) as above') =>
      let v := cell (Ascii.eqb c2 c1) diag left up in
      v :: fillRow c2 str1' above' v
  | _, _ => []
  end.

(** The outer loop: the rows [i >= 1]; column 0 of row [i] holds [i]. *)
Fixpoint fillMatrix (str1 str2 : string) (i : nat) (above : list nat) : list (list nat) :=
  match str2 with
  | EmptyString => []
  | String c2 str2' =>
      let row := i :: fillRow c2 str1 above i in
      row :: fillMatrix str1 str2' (S i) row
  end.

Definition levenshteinMatrix (str1 str2 : string) : list (list nat) :=
  let row0 := seq 0 (S (String.length str1)) in
  row0 :: fillMatrix str1 str2 1 row0.

(** [levenshteinDistance(str1, str2)]: [matrix[str2.length][str1.length]]. *)
Definition levenshteinDistance (str1 str2 : string) : nat :=
  nth (String.length str1) (nth (String.length str2) (levenshteinMatrix str1 str2) []) 0%nat.

(** The recurrence that the matrix tabulates, on two prefixes given back to
    front (last character first): the first argument is a prefix of [str2]
    (a row), the second a prefix of [str1] (a column). *)
Fixpoint prefixDistance (u2 : list ascii) : list ascii -> nat :=
  match u2 with
  | [] => fun u1 => length u1
  | c2 :: u2' =>
      fix column (u1 : list ascii) : nat :=
        match u1 with
        | [] => S (length u2')
        | c1 :: u1' =>
            cell (Ascii.eqb c2 c1)
                 (prefixDistance u2' u1') (column u1') (prefixDistance u2' u1)
        end
  end.

(** The characters of [rest], back to front, in front of [pre]. *)
Fixpoint revOnto (pre : list ascii) (rest : string) : list ascii :=
  match rest with
  | EmptyString => pre
  | String c rest' => revOnto (c :: pre) rest'
  end.

(** The prefixes of [rest] back to front, each in front of [pre], from the
    empty one to the whole. *)
Fixpoint revPrefixes (pre : list ascii) (rest : string) : list (list ascii) :=
  pre :: match rest with
         | EmptyString => []
         | String c rest' => revPrefixes (c :: pre) rest'
         end.

(** The row of the matrix for a prefix [u2] of [str2]. *)
Definition rowOf (str1 : string) (u2 : list ascii) : list nat :=
  map (prefixDistance u2) (revPrefixes [] str1).

(** The characters of a text, first to last. *)
Definition chars (s : string) : list ascii := list_ascii_of_string s.

(** [edits u v n]: the text [u] becomes the text [v] by a left-to-right pass
    that keeps characters and makes [n] single-character edits (a
    substitution, a deletion from [u] or an insertion from [v]). *)
Inductive edits : list ascii -> list ascii -> nat -> Prop :=
| edits_done : edits [] [] 0
| edits_keep c u v n : edits u v n -> edits (c :: u) (c :: v) n
| edits_substitute a b u v n : edits u v n -> edits (a :: u) (b :: v) (S n)
| edits_delete a u v n : edits u v n -> edits (a :: u) v (S n)
| edits_insert b u v n : edits u v n -> edits u (b :: v) (S n).

Definition QofNat (n : nat) : Q := inject_Z (Z.of_nat n).

(** [calculateStringSimilarity(str1, str2)]. The ratio is exact; the source
    rounds the quotient and the difference to binary64, which moves the
    result by less than [2^-52]. *)
Definition calculateStringSimilarity (str1 str2 : string) : Q :=
  if negb (truthy str1) || negb (truthy str2) then 0
  else if String.eqb str1 str2 then 1
  else
    let maxLength := Nat.max (String.length str1) (String.length str2) in
    if (maxLength =? 0)%nat then 1
    else
      let distance := levenshteinDistance str1 str2 in
      (1 - QofNat distance / QofNat maxLength)%Q.

(** [2^-50]. The source computes a similarity in binary64 arithmetic and
    compares it with a binary64 threshold: the quotient and the difference
    are each rounded by at most [2^-54], and so is a threshold up to 1, which
    is within this margin. *)
Definition roundingMargin : Q := 1 # (2 ^ 50).

(** [url.split('/')[2] || ''] *)
Definition domainOf (url : string) : string := nth 2 (split "/" url) "".

(** [calculateUrlSimilarity(url1, url2)] *)
Definition calculateUrlSimilarity (url1 url2 : string) : Q :=
  if negb (truthy url1) || negb (truthy url2) then 0
  else if String.eqb url1 url2 then 1
  else
    let domain1 := domainOf url1 in
    let domain2 := domainOf url2 in
    if negb (String.eqb domain1 domain2) then (1 # 10)%Q
    else calculateStringSimilarity url1 url2.

(** [new Set(text.split(' ').filter(word => word.length > n))] *)
Definition wordSet (n : nat) (text : string) : gset string :=
  list_to_set (List.filter (fun word => (n <? String.length word)%nat) (split " " text)).

(** [Math.max] on two rationals. *)
Definition Qmax_js (a b : Q) : Q := if Qle_bool a b then b else a.

(** [calculateTitleSimilarity(title1, title2)] *)
Definition calculateTitleSimilarity (title1 title2 : string) : Q :=
  if negb (truthy title1) || negb (truthy title2) then 0
  else if String.eqb title1 title2 then 1
  else
    let words1 := wordSet 2 title1 in
    let words2 := wordSet 2 title2 in
    let intersection := words1 ∩ words2 in
    let union := words1 ∪ words2 in
    if (size union =? 0)%nat then 0
    else
      let jaccardSimilarity := (QofNat (size intersection) / QofNat (size union))%Q in
      let stringSimilarity := calculateStringSimilarity title1 title2 in
      Qmax_js jaccardSimilarity stringSimilarity.

(** [calculateContentSimilarity(content1, content2)] *)
Definition calculateContentSimilarity (content1 content2 : string) : Q :=
  if negb (truthy content1) || negb (truthy content2) then 0
  else if String.eqb content1 content2 then 1
  else
    let words1 := wordSet 3 content1 in
    let words2 := wordSet 3 content2 in
    let intersection := words1 ∩ words2 in
    let union := words1 ∪ words2 in
    if (size union =? 0)%nat then 0
    else (QofNat (size intersection) / QofNat (size union))%Q.

(** The two signals of the title measure: the Jaccard index of the two word
    sets, and the similarity by edit distance. *)
Definition jaccard (n : nat) (text1 text2 : string) : Q :=
  (QofNat (size (wordSet n text1 ∩ wordSet n text2))
   / QofNat (size (wordSet n text1 ∪ wordSet n text2)))%Q.

Definition editSimilarity (str1 str2 : string) : Q :=
  (1 - QofNat (levenshteinDistance str1 str2)
       / QofNat (Nat.max (String.length str1) (String.length str2)))%Q.

(** 32-bit wrap-around: [ToInt32]. *)
Definition toInt32 (z : Z) : Z := ((z + 2 ^ 31) mod 2 ^ 32 - 2 ^ 31)%Z.

(** [simpleHash(str)]: [hash = ((hash << 5) - hash) + char; hash = hash & hash]. *)
Fixpoint simpleHashFrom (hash : Z) (str : string) : Z :=
  match str with
  | EmptyString => hash
  | String c str' =>
      let char := Z.of_nat (code c) in
      simpleHashFrom (toInt32 (toInt32 (Z.shiftl hash 5) - hash + char)) str'
  end.

Definition simpleHash (str : string) : Z := simpleHashFrom 0 str.

(** The polynomial [c0 * 31^(n-1) + ... + c(n-1)] over the code units
    [c0 ... c(n-1)] of a text, on top of [31^n * hash]. *)
Fixpoint polynomial31 (hash : Z) (str : string) : Z :=
  match str with
  | EmptyString => hash
  | String c str' => polynomial31 (31 * hash + Z.of_nat (code c)) str'
  end.

(** ** Arrays *)

Module JsArray.
Section Sort.
Context {A : Type}.
(** [before x y] tells that the comparator's result on [(x, y)] is not
    positive (NaN counts as 0): [x] may stay in front of [y]. *)
Variable before : A -> A -> bool.

Fixpoint insertBy (x : A) (l : list A) : list A :=
  match l with
  | [] => [x]
  | y :: l' => if before x y then x :: l else y :: insertBy x l'
  end.

(** [Array.prototype.sort(comparator)]: the sort is stable, and for a
    comparator that orders the elements consistently its result is the
    one stable arrangement, computed here by insertion from the right.
    (For an inconsistent comparator the order is implementation-defined.) *)
Definition sortBy (l : list A) : list A := foldr insertBy [] l.

(** Every element of the list may stay in front of its right neighbour. *)
Definition inOrder : list A -> Prop := Sorted (fun x y => before x y = true).
End Sort.

(** [array.slice(0, n)]: a negative [n] counts from the end. *)
Definition sliceTo {A : Type} (n : Z) (l : list A) : list A :=
  take (Z.to_nat (if (n <? 0)%Z then Z.of_nat (length l) + n else n)%Z) l.

(** [set.has(x)] on the members in insertion order. *)
Definition has (x : string) (members : list string) : bool :=
  existsb (String.eqb x) members.
End JsArray.

Import JsArray.

(** ** Deduplicator ([deduplicate.js]) *)

Module Dedup.

(** What [normalizeUrl] reads of a parsed [URL] object. *)
Record URL := mkURL {
  origin : string;
  pathname : string;
  searchParams : list (string * string)
}.

Record DeduplicationInfo := mkInfo {
  originalIndex : nat;
  normalizedUrl : option string;
  normalizedTitle : option string
}.

(** The fields of an article that the deduplicator reads or sets; the other
    fields travel with the article unchanged. [title] is a string, as every
    article that enters the deduplicator has one (the source calls
    [article.title.slice] on a duplicate); [url] and [content] are strings,
    the empty string when absent; [publishedAt] is the time value of
    [new Date(article.publishedAt)].
    [deduplicationInfo.processedAt] is the wall-clock time of the run and is
    not modelled. An article is a value here: the source writes
    [deduplicationInfo] on the article object itself, so that the objects of
    an earlier output show the metadata of the latest run. *)
Record Article := mkArticle {
  title : string;
  url : string;
  content : string;
  publishedAt : option Z;
  deduplicationInfo : option DeduplicationInfo
}.

Record DedupConfig := mkDedupConfig {
  urlSimilarityThreshold : Q;
  titleSimilarityThreshold : Q;
  maxArticles : Z;
  enableUrlDedup : bool;
  enableTitleDedup : bool;
  enableContentDedup : bool;
  contentSimilarityThreshold : Q
}.

(** [loadDeduplicationConfig({})]: the defaults. *)
Definition defaultDedupConfig : DedupConfig :=
  {| urlSimilarityThreshold := 8 # 10;
     titleSimilarityThreshold := 7 # 10;
     maxArticles := 20;
     enableUrlDedup := true;
     enableTitleDedup := true;
     enableContentDedup := false;
     contentSimilarityThreshold := 9 # 10 |}.

(** The defaults with [MAX_ARTICLES_AFTER_DEDUP='-1']. *)
Definition negativeCapConfig : DedupConfig :=
  {| urlSimilarityThreshold := 8 # 10;
     titleSimilarityThreshold := 7 # 10;
     maxArticles := -1;
     enableUrlDedup := true;
     enableTitleDedup := true;
     enableContentDedup := false;
     contentSimilarityThreshold := 9 # 10 |}.

(** The defaults with [ENABLE_URL_DEDUP='false']. *)
Definition urlDedupOffConfig : DedupConfig :=
  {| urlSimilarityThreshold := 8 # 10;
     titleSimilarityThreshold := 7 # 10;
     maxArticles := 20;
     enableUrlDedup := false;
     enableTitleDedup := true;
     enableContentDedup := false;
     contentSimilarityThreshold := 9 # 10 |}.

(** The loop state of [performDeduplication]. *)
Record DedupState := mkState {
  uniqueArticles : list Article;
  seenUrls : list string;
  seenTitleHashes : list Z;
  processedTitles : list string
}.

Definition initialState : DedupState :=
  {| uniqueArticles := []; seenUrls := []; seenTitleHashes := []; processedTitles := [] |}.

Definition trackingParams : list string :=
  ["utm_source"; "utm_medium"; "utm_campaign"; "utm_content"; "utm_term";
   "fbclid"; "gclid"; "ref"; "referrer"; "source"; "campaign"].

(** [searchParams.delete(param)] *)
Definition deleteParam (param : string) (params : list (string * string))
  : list (string * string) :=
  List.filter (fun kv => negb (String.eqb (fst kv) param)) params.

Fixpoint hasLineTerminator (s : string) : bool :=
  match s with
  | EmptyString => false
  | String c s' => (code c =? 10)%nat || (code c =? 13)%nat || hasLineTerminator s'
  end.

(** [s.replace(/[?#].*$/, '')]: the text is cut at the first [?] or [#]
    that no line terminator follows ([.] does not match one). *)
Fixpoint cutQueryAndFragment (s : string) : string :=
  match s with
  | EmptyString => EmptyString
  | String c s' =>
      if (Ascii.eqb c "?"%char || Ascii.eqb c "#"%char) && negb (hasLineTerminator s')
      then EmptyString
      else String c (cutQueryAndFragment s')
  end.

Section Deduplicator.

(** The platform's URL parser, [new URL(url)]: [None] when it throws. *)
Variable parseURL : string -> option URL.
(** [URLSearchParams.prototype.toString]. *)
Variable searchParamsToString : list (string * string) -> string.

(** [normalizeUrl(url)] *)
Definition normalizeUrl (url : string) : string :=
  if negb (truthy url) then ""
  else
    match parseURL url with
    | Some urlObj =>
        let params := fold_left (fun ps param => deleteParam param ps)
                                trackingParams (searchParams urlObj) in
        let normalized := origin urlObj +:+ pathname urlObj in
        let normalized :=
          if truthy (searchParamsToString params)
          then normalized +:+ "?" +:+ searchParamsToString params
          else normalized in
        toLowerCase (stripTrailingSlash normalized)
    | None =>
        stripTrailingSlash (cutQueryAndFragment (toLowerCase url))
    end.

Variable config : DedupConfig.

(** The URL stage for one article: the duplicate flag and the URL anchors
    after it. *)
Definition urlStage (seen : list string) (article : Article) : bool * list string :=
  if enableUrlDedup config && truthy (url article) then
    let normalizedUrl := normalizeUrl (url article) in
    if has normalizedUrl seen then (true, seen)
    else if existsb (fun existingUrl =>
                       Qle_bool (urlSimilarityThreshold config)
                                (calculateUrlSimilarity normalizedUrl existingUrl)) seen
    then (true, seen)
    else (false, seen ++ [normalizedUrl])
  else (false, seen).

(** The title stage, entered with the flag of the URL stage. *)
Definition titleStage (isDuplicate : bool) (hashes : list Z) (titles : list string)
           (article : Article) : bool * list Z * list string :=
  if negb isDuplicate && enableTitleDedup config && truthy (title article) then
    let normalizedTitle := normalizeTitle (title article) in
    let titleHash := simpleHash normalizedTitle in
    if existsb (Z.eqb titleHash) hashes then (true, hashes, titles)
    else if existsb (fun existingTitle =>
                       Qle_bool (titleSimilarityThreshold config)
                                (calculateTitleSimilarity normalizedTitle existingTitle)) titles
    then (true, hashes, titles)
    else (false, hashes ++ [titleHash], titles ++ [normalizedTitle])
  else (isDuplicate, hashes, titles).

(** The content stage, entered with the flag of the title stage. *)
Definition contentStage (isDuplicate : bool) (unique : list Article)
           (article : Article) : bool :=
  if negb isDuplicate && enableContentDedup config && truthy (content article) then
    let normalizedContent := normalizeContent (content article) in
    existsb (fun existingArticle =>
               let existingContent := normalizeContent (content existingArticle) in
               Qle_bool (contentSimilarityThreshold config)
                        (calculateContentSimilarity normalizedContent existingContent)) unique
  else isDuplicate.

(** [article.deduplicationInfo = {...}]: [index] is
    [articles.indexOf(article)], the position of the article in the input
    (the input items are distinct objects). *)
Definition withInfo (index : nat) (article : Article) : Article :=
  {| title := title article;
     url := url article;
     content := content article;
     publishedAt := publishedAt article;
     deduplicationInfo :=
       Some {| originalIndex := index;
               normalizedUrl :=
                 if truthy (url article) then Some (normalizeUrl (url article)) else None;
               normalizedTitle :=
                 if truthy (title article) then Some (normalizeTitle (title article)) else None |} |}.

(** One iteration of the loop of [performDeduplication], for the article
    at position [index] of the input. *)
Definition dedupStep (st : DedupState) (index : nat) (article : Article) : DedupState :=
  let '(isDuplicate, seenUrls') := urlStage (seenUrls st) article in
  let '(isDuplicate, hashes', titles') :=
    titleStage isDuplicate (seenTitleHashes st) (processedTitles st) article in
  let isDuplicate := contentStage isDuplicate (uniqueArticles st) article in
  {| uniqueArticles :=
       if isDuplicate then uniqueArticles st
       else uniqueArticles st ++ [withInfo index article];
     seenUrls := seenUrls';
     seenTitleHashes := hashes';
     processedTitles := titles' |}.

Fixpoint dedupLoop (st : DedupState) (index : nat) (articles : list Article) : DedupState :=
  match articles with
  | [] => st
  | article :: rest => dedupLoop (dedupStep st index article) (S index) rest
  end.

(** [performDeduplication(articles, config)] *)
Definition performDeduplication (articles : list Article) : list Article :=
  uniqueArticles (dedupLoop initialState 0 articles).

(** The comparator of [sortArticlesByDate], [dateB.getTime() - dateA.getTime()]:
    not positive when [a] is at least as recent as [b], or when one of the
    two dates is invalid (the difference is NaN, which [sort] reads as 0). *)
Definition newerOrSame (a b : Article) : bool :=
  match publishedAt a, publishedAt b with
  | Some dateA, Some dateB => (dateB <=? dateA)%Z
  | _, _ => true
  end.

(** [sortArticlesByDate(articles)]. With an Invalid Date among the dates the
    comparator is inconsistent, and the order that the engine gives is its
    own: the result below is then one rearrangement among others. *)
Definition sortArticlesByDate (articles : list Article) : list Article :=
  sortBy newerOrSame articles.

(** [a] and [b] have valid dates, and [a] is at least as recent as [b]. *)
Definition atLeastAsRecent (a b : Article) : Prop :=
  exists dateA dateB,
    publishedAt a = Some dateA /\ publishedAt b = Some dateB /\ (dateB <= dateA)%Z.

(** The article has the valid date [date]. *)
Definition publishedOn (date : Z) (a : Article) : bool :=
  match publishedAt a with
  | Some dateA => (dateA =? date)%Z
  | None => false
  end.

(** [deduplicateArticles(input, vars)], on the articles of the input items
    and with the configuration already loaded. *)
Definition deduplicateArticles (allArticles : list Article) : list Article :=
  match allArticles with
  | [] => []
  | _ =>
      let uniqueArticles := performDeduplication allArticles in
      let sortedArticles := sortArticlesByDate uniqueArticles in
      sliceTo (maxArticles config) sortedArticles
  end.

(** The three tests of an article [y] against one earlier article [x], as
    the three stages make them on the anchors that [x] has left. *)
Definition urlDuplicate (y x : Article) : bool :=
  enableUrlDedup config && truthy (url y) && truthy (url x)
  && (String.eqb (normalizeUrl (url y)) (normalizeUrl (url x))
      || Qle_bool (urlSimilarityThreshold config)
                  (calculateUrlSimilarity (normalizeUrl (url y)) (normalizeUrl (url x)))).

Definition titleDuplicate (y x : Article) : bool :=
  enableTitleDedup config && truthy (title y) && truthy (title x)
  && (Z.eqb (simpleHash (normalizeTitle (title y))) (simpleHash (normalizeTitle (title x)))
      || Qle_bool (titleSimilarityThreshold config)
                  (calculateTitleSimilarity (normalizeTitle (title y))
                                            (normalizeTitle (title x)))).

Definition contentDuplicate (y x : Article) : bool :=
  enableContentDedup config && truthy (content y)
  && Qle_bool (contentSimilarityThreshold config)
              (calculateContentSimilarity (normalizeContent (content y))
                                          (normalizeContent (content x))).

Definition duplicateOf (y x : Article) : bool :=
  urlDuplicate y x || titleDuplicate y x || contentDuplicate y x.

(** The later article [y] is not a duplicate of the earlier article [x]. *)
Definition keptApart (x y : Article) : Prop := duplicateOf y x = false.

(** The anchors that an article leaves when it passes the URL stage and
    the title stage. *)
Definition urlAnchor (y : Article) : list string :=
  if enableUrlDedup config && truthy (url y) then [normalizeUrl (url y)] else [].

Definition titleAnchor (y : Article) : list string :=
  if enableTitleDedup config && truthy (title y) then [normalizeTitle (title y)] else [].

(** The test of each stage against one anchor. *)
Definition urlTest (y : Article) (existingUrl : string) : bool :=
  String.eqb (normalizeUrl (url y)) existingUrl
  || Qle_bool (urlSimilarityThreshold config)
              (calculateUrlSimilarity (normalizeUrl (url y)) existingUrl).

Definition titleTest (y : Article) (existingTitle : string) : bool :=
  Z.eqb (simpleHash (normalizeTitle (title y))) (simpleHash existingTitle)
  || Qle_bool (titleSimilarityThreshold config)
              (calculateTitleSimilarity (normalizeTitle (title y)) existingTitle).

Definition contentTest (y existingArticle : Article) : bool :=
  Qle_bool (contentSimilarityThreshold config)
           (calculateContentSimilarity (normalizeContent (content y))
                                       (normalizeContent (content existingArticle))).

(** The state in which all of [accepted], and nothing else, has been seen
    and accepted. *)
Definition acceptedState (accepted : list Article) : DedupState :=
  {| uniqueArticles := imap withInfo accepted;
     seenUrls := flat_map urlAnchor accepted;
     seenTitleHashes := map simpleHash (flat_map titleAnchor accepted);
     processedTitles := flat_map titleAnchor accepted |}.

(** The flags of the three stages for one article in one state. *)
Definition urlFlag (st : DedupState) (y : Article) : bool :=
  fst (urlStage (seenUrls st) y).

Definition titleFlag (st : DedupState) (y : Article) : bool :=
  fst (fst (titleStage (urlFlag st y) (seenTitleHashes st) (processedTitles st) y)).

Definition contentFlag (st : DedupState) (y : Article) : bool :=
  contentStage (titleFlag st y) (uniqueArticles st) y.

(** The content test looks at the content of the earlier article even when
    it is empty; with a positive threshold an empty content never matches. *)
Definition contentThresholdOk : Prop :=
  enableContentDedup config = false \/ (0 < contentSimilarityThreshold config)%Q.

(** The title hashes are the hashes of the recorded titles. *)
Definition hashesAgree (st : DedupState) : Prop :=
  seenTitleHashes st = map simpleHash (processedTitles st).

(** What the loop maintains on any input. *)
Record passInv (st : DedupState) : Prop := {
  inv_hashes : hashesAgree st;
  inv_pairs : ForallOrdPairs keptApart (uniqueArticles st);
  inv_urls :
    forall x u, In x (uniqueArticles st) -> In u (urlAnchor x) -> In u (seenUrls st);
  inv_titles :
    forall x t, In x (uniqueArticles st) -> In t (titleAnchor x) -> In t (processedTitles st)
}.

(** The articles of a list, each with the metadata of an accepted article
    at its position. *)
Definition reindex (articles : list Article) : list Article :=
  imap withInfo articles.

(** The position recorded on an article of the output. *)
Definition indexOf (a : Article) : option nat :=
  match deduplicationInfo a with
  | Some info => Some (originalIndex info)
  | None => None
  end.

(** The article at position [index] of the input is in the output. *)
Definition acceptedAt (index : nat) (output : list Article) : Prop :=
  exists a, In a output /\ indexOf a = Some index.

End Deduplicator.

(** An article without its metadata. *)
Definition withoutInfo (a : Article) : Article :=
  {| title := title a; url := url a; content := content a;
     publishedAt := publishedAt a; deduplicationInfo := None |}.

(** What the platform's parser yields on the URLs of the examples below;
    it throws on text without a scheme. *)
Definition sampleParseURL (url : string) : option URL :=
  if String.eqb url "https://site.com/a?utm_source=x"
  then Some (mkURL "https://site.com" "/a" [("utm_source", "x")])
  else if String.eqb url "https://site.com/a"
  then Some (mkURL "https://site.com" "/a" [])
  else if String.eqb url "https://news.example/robots"
  then Some (mkURL "https://news.example" "/robots" [])
  else if String.eqb url "https://blog.example/2025/ai"
  then Some (mkURL "https://blog.example" "/2025/ai" [])
  else if String.eqb url "https://other.example/chips"
  then Some (mkURL "https://other.example" "/chips" [])
  else None.

(** [URLSearchParams.prototype.toString] on parameters that need no escape. *)
Fixpoint sampleSearchParamsToString (params : list (string * string)) : string :=
  match params with
  | [] => ""
  | [(k, v)] => k +:+ "=" +:+ v
  | (k, v) :: rest => k +:+ "=" +:+ v +:+ "&" +:+ sampleSearchParamsToString rest
  end.

Definition sampleArticle (title url : string) (publishedAt : Z) : Article :=
  {| title := title; url := url; content := "";
     publishedAt := Some publishedAt; deduplicationInfo := None |}.

(** Two reports of one page, the older one with a tracking parameter. *)
Definition olderReport : Article :=
  sampleArticle "Robot maker opens plant" "https://site.com/a?utm_source=x" 1000.

Definition newerReport : Article :=
  sampleArticle "Osaka plant opened by robot maker" "https://site.com/a" 2000.

(** One story under two URLs, and two other articles. *)
Definition robotNews : Article :=
  sampleArticle "Japan unveils new robot" "https://news.example/robots" 3000.

Definition robotBlog : Article :=
  sampleArticle "Japan Unveils New Robot!!!" "https://blog.example/2025/ai" 2000.

Definition chipNews : Article :=
  sampleArticle "Chip makers expand in Kyushu" "https://other.example/chips" 1000.

Definition chipBlog : Article :=
  sampleArticle "Chip makers expand in Kyushu" "https://blog.example/2025/ai" 1000.

End Dedup.

(** ** Numbers that may be NaN *)

Module JsNumber.

Inductive t : Type :=
| Num (q : Q)
| NaN.

(** [a - b] on time values: NaN as soon as one of them is. *)
Definition timeDiff (a b : option Z) : t :=
  match a, b with
  | Some x, Some y => Num (inject_Z (x - y))
  | _, _ => NaN
  end.

Definition div (a : t) (d : Q) : t :=
  match a with
  | Num q => Num (q / d)
  | NaN => NaN
  end.

(** [a < bound]: false when [a] is NaN. *)
Definition lt (a : t) (bound : Q) : bool :=
  match a with
  | Num q => negb (Qle_bool bound q)
  | NaN => false
  end.

End JsNumber.

(** A block in a [try]: it completes with a value or throws. *)
Inductive Completion (A : Type) : Type :=
| Normal (value : A)
| Throw.
Arguments Normal {A} value.
Arguments Throw {A}.

(** [try { body } catch (error) { return handler }] *)
Definition tryCatch {A : Type} (body : Completion A) (handler : A) : A :=
  match body with
  | Normal value => value
  | Throw => handler
  end.

(** ** Quality and relevance scorer, diversity selector (selection template) *)

Module Selection.

(** The six scoring factors, in the order of the keys of [scores]. *)
Module Factor.
Inductive t : Type :=
| contentQuality | contentLength | japanRelevance | aiRelevance | sourceQuality | recency.
End Factor.

(** [article.originalData] of a Reddit article. *)
Record OriginalData := mkOriginalData {
  score : Q;
  upvoteRatio : Q
}.

(** The fields of an article that scoring and selection read. [title],
    [fullContent] and [description] are strings (were one of them absent,
    the source would search the text [undefined] in its place); [source] and
    [type] are read through [|| 'unknown'], so that an absent one acts as
    the empty string; [publishedAt] is the time value of
    [new Date(article.publishedAt)]; [contentQuality] holds
    [contentQuality.level], and [contentLength] is 0 when the field is
    absent. *)
Record Article := mkArticle {
  title : string;
  description : string;
  fullContent : string;
  source : string;
  type : string;
  publishedAt : option Z;
  extractionSuccess : bool;
  contentQuality : option string;
  contentSource : string;
  contentLength : Z;
  originalData : option OriginalData
}.

Record DiversitySettings := mkDiversity {
  maxSameSource : Z;
  maxSameCategory : Z;
  preferDiverseSources : bool
}.

Record SelectionConfig := mkConfig {
  maxArticles : Z;
  minScore : Q;
  weights : Factor.t -> Q;
  japanKeywords : list string;
  aiKeywords : list string;
  premiumSources : list string;
  diversitySettings : DiversitySettings
}.

Record ScoredArticle := mkScored {
  article : Article;
  scores : Factor.t -> Q;
  finalScore : Q
}.

Definition Qmin_js (a b : Q) : Q := if Qle_bool a b then a else b.

(** [Math.max(0, Math.min(10, score))] *)
Definition clamp10 (score : Q) : Q := Qmax_js 0 (Qmin_js 10 score).

(** [scoreContentQuality(article, config)] *)
Definition scoreContentQuality (a : Article) : Q :=
  let score := 5%Q in
  let score := if extractionSuccess a then (score + 2)%Q else score in
  let score :=
    match contentQuality a with
    | Some level =>
        if String.eqb level "excellent" then (score + 3)%Q
        else if String.eqb level "good" then (score + 2)%Q
        else if String.eqb level "fair" then (score + 1)%Q
        else if String.eqb level "poor" then (score - 1)%Q
        else if String.eqb level "very_poor" then (score - 2)%Q
        else score
    | None => score
    end in
  let score :=
    if String.eqb (contentSource a) "llm_extraction" then (score + 1)%Q
    else if String.eqb (contentSource a) "description" then (score - 1)%Q
    else score in
  clamp10 score.

(** [scoreContentLength(article, config)] *)
Definition scoreContentLength (a : Article) : Q :=
  let contentLength :=
    if (contentLength a =? 0)%Z then Z.of_nat (String.length (fullContent a))
    else contentLength a in
  if (contentLength =? 0)%Z then 0
  else if (500 <=? contentLength)%Z && (contentLength <=? 3000)%Z then 10
  else if (300 <=? contentLength)%Z && (contentLength <=? 5000)%Z then 8
  else if (200 <=? contentLength)%Z && (contentLength <=? 6000)%Z then 6
  else if (100 <=? contentLength)%Z then 4
  else 2.

(** [(article.title + ' ' + article.fullContent + ' ' + article.description).toLowerCase()] *)
Definition searchText (a : Article) : string :=
  toLowerCase (title a +:+ " " +:+ fullContent a +:+ " " +:+ description a).

Definition countMatches (text : string) (keywords : list string) : nat :=
  length (List.filter (fun keyword => includes text (toLowerCase keyword)) keywords).

(** [scoreJapanRelevance(article, config)]. The test for the two-character
    keyword written in kanji is left out: its code units are above 255, and
    no text of the embedding contains them. *)
Definition scoreJapanRelevance (config : SelectionConfig) (a : Article) : Q :=
  let content := searchText a in
  let japanMatches := countMatches content (japanKeywords config) in
  let score := Qmin_js (QofNat japanMatches * 2) 8 in
  let score := if includes content "tokyo" then (score + 1)%Q else score in
  let score :=
    if includes content "japanese company" || includes content "japan-based"
    then (score + 1)%Q else score in
  let score :=
    if truthy (source a) && includes (toLowerCase (source a)) "japan"
    then (score + 1)%Q else score in
  Qmin_js 10 score.

Definition advancedAITerms : list string :=
  ["neural network"; "deep learning"; "machine learning"; "llm"; "gpt"; "transformer"].

(** [scoreAIRelevance(article, config)] *)
Definition scoreAIRelevance (config : SelectionConfig) (a : Article) : Q :=
  let content := searchText a in
  let aiMatches := countMatches content (aiKeywords config) in
  let score := Qmin_js (QofNat aiMatches * (3 # 2)) 7 in
  let advancedMatches :=
    length (List.filter (fun term => includes content term) advancedAITerms) in
  let score := (score + Qmin_js (QofNat advancedMatches) 2)%Q in
  let score :=
    if includes content "research" || includes content "development"
       || includes content "breakthrough"
    then (score + 1)%Q else score in
  Qmin_js 10 score.

Definition techSources : list string :=
  ["techcrunch"; "venturebeat"; "wired"; "ars technica"; "the verge"].

(** [scoreSourceQuality(article, config)] *)
Definition scoreSourceQuality (config : SelectionConfig) (a : Article) : Q :=
  let sourceName := toLowerCase (source a) in
  let score := 5%Q in
  let isPremiumSource :=
    existsb (fun source => includes sourceName (toLowerCase source)) (premiumSources config) in
  let score := if isPremiumSource then (score + 3)%Q else score in
  let score :=
    if includes sourceName "university" || includes sourceName "research"
       || includes sourceName "institute" || includes sourceName "academic"
    then (score + 2)%Q else score in
  let score :=
    if existsb (fun source => includes sourceName source) techSources
    then (score + 1)%Q else score in
  let score :=
    match originalData a with
    | Some data =>
        if String.eqb (type a) "reddit" then
          let score_reddit := Selection.score data in
          let upvoteRatio := Selection.upvoteRatio data in
          if negb (Qle_bool score_reddit 50) && negb (Qle_bool upvoteRatio (8 # 10))
          then (score + 2)%Q
          else if negb (Qle_bool score_reddit 20) && negb (Qle_bool upvoteRatio (7 # 10))
          then (score + 1)%Q
          else score
        else score
    | None => score
    end in
  clamp10 score.

(** [scoreRecency(article, config)], at the time [now] of the run.
    [new Date(x)] does not throw on text it cannot parse: it yields the
    Invalid Date, so the body of the [try] completes normally. *)
Definition scoreRecency (now : Z) (a : Article) : Q :=
  tryCatch
    (let publishedDate := publishedAt a in
     let ageInHours :=
       JsNumber.div (JsNumber.timeDiff (Some now) publishedDate) (1000 * 60 * 60) in
     Normal
       (if JsNumber.lt ageInHours 6 then 10
        else if JsNumber.lt ageInHours 12 then 9
        else if JsNumber.lt ageInHours 24 then 8
        else if JsNumber.lt ageInHours 48 then 6
        else if JsNumber.lt ageInHours 72 then 4
        else if JsNumber.lt ageInHours 168 then 2
        else 1)%Q)
    5%Q.

(** [Object.entries(scores)]: the six factors in the order of the literal. *)
Definition factors : list Factor.t :=
  [Factor.contentQuality; Factor.contentLength; Factor.japanRelevance;
   Factor.aiRelevance; Factor.sourceQuality; Factor.recency].

Definition entries (scores : Factor.t -> Q) : list (Factor.t * Q) :=
  map (fun key => (key, scores key)) factors.

(** The [reduce] of [scoreArticles]:
    [total + (score * config.weights[key])], from 0. The sum is exact; it is
    the sum that the source computes in binary64 arithmetic when the weights
    are whole numbers, the sub-scores being multiples of 1/2 up to 10. *)
Definition weightedTotal (weights scores : Factor.t -> Q) : Q :=
  fold_left (fun total entry => (total + snd entry * weights (fst entry))%Q)
            (entries scores) 0%Q.

(** The [scores] object built for one article. *)
Definition scoresOf (config : SelectionConfig) (now : Z) (a : Article) : Factor.t -> Q :=
  fun key =>
    match key with
    | Factor.contentQuality => scoreContentQuality a
    | Factor.contentLength => scoreContentLength a
    | Factor.japanRelevance => scoreJapanRelevance config a
    | Factor.aiRelevance => scoreAIRelevance config a
    | Factor.sourceQuality => scoreSourceQuality config a
    | Factor.recency => scoreRecency now a
    end.

Definition scoreArticle (config : SelectionConfig) (now : Z) (a : Article) : ScoredArticle :=
  let scores := scoresOf config now a in
  {| article := a;
     scores := scores;
     finalScore := weightedTotal (weights config) scores |}.

(** [scoreArticles(articles, config)] *)
Definition scoreArticles (config : SelectionConfig) (now : Z) (articles : list Article)
  : list ScoredArticle :=
  map (scoreArticle config now) articles.

(** [scoringMetadata.maxPossibleScore]:
    [Object.values(config.weights).reduce((sum, weight) => sum + weight * 10, 0)]. *)
Definition maxPossibleScore (config : SelectionConfig) : Q :=
  fold_left (fun sum weight => (sum + weight * 10)%Q) (map (weights config) factors) 0%Q.

(** [filterByMinimumScore(articles, config)]. The comparison is that of the
    exact final score with [minScore]; it is the comparison of the source
    wherever the exact sum is the binary64 sum, see [weightedTotal]. *)
Definition filterByMinimumScore (config : SelectionConfig) (articles : list ScoredArticle)
  : list ScoredArticle :=
  List.filter (fun a => Qle_bool (minScore config) (finalScore a)) articles.

(** The comparator [(a, b) => b.finalScore - a.finalScore] is not positive. *)
Definition higherOrSame (a b : ScoredArticle) : bool :=
  Qle_bool (finalScore b) (finalScore a).

(** [article.source || 'unknown'] *)
Definition sourceKey (a : ScoredArticle) : string :=
  if truthy (source (article a)) then source (article a) else "unknown".

(** [article.type || 'unknown'] *)
Definition categoryKey (a : ScoredArticle) : string :=
  if truthy (type (article a)) then type (article a) else "unknown".

(** The loop state of [ensureArticleDiversity]. *)
Record DiversityState := mkDiversityState {
  diverseArticles : list ScoredArticle;
  sourceCounts : gmap string nat;
  categoryCounts : gmap string nat
}.

(** [counts[key] || 0], on a dictionary that starts as [{}], for a key
    that names no property of [Object.prototype]: the dictionary's own
    entry, or 0. *)
Definition countOf (counts : gmap string nat) (key : string) : nat :=
  default 0%nat (counts !! key).

(** The names of the properties that an object literal inherits from
    [Object.prototype]: on such a key, [counts[key]] is not a count. *)
Definition objectPrototypeKeys : list string :=
  ["constructor"; "__defineGetter__"; "__defineSetter__"; "hasOwnProperty";
   "__lookupGetter__"; "__lookupSetter__"; "isPrototypeOf"; "propertyIsEnumerable";
   "toString"; "valueOf"; "__proto__"; "toLocaleString"].

(** The key can be counted in a dictionary that starts as [{}]. *)
Definition countableKey (key : string) : bool := negb (has key objectPrototypeKeys).

(** [(counts[key] || 0) < cap]. For a key that names a property of
    [Object.prototype], such as [constructor], [counts[key]] is the inherited
    value, a function or an object: it is truthy, it is no number, and the
    comparison with the cap is false. *)
Definition underCap (counts : gmap string nat) (key : string) (cap : Z) : bool :=
  countableKey key && (Z.of_nat (countOf counts key) <? cap)%Z.

(** One iteration of the loop of [ensureArticleDiversity]. *)
Definition diversityStep (settings : DiversitySettings) (st : DiversityState)
           (a : ScoredArticle) : DiversityState :=
  let source := sourceKey a in
  let category := categoryKey a in
  let sourceCount := countOf (sourceCounts st) source in
  let categoryCount := countOf (categoryCounts st) category in
  if underCap (sourceCounts st) source (maxSameSource settings)
     && underCap (categoryCounts st) category (maxSameCategory settings)
  then {| diverseArticles := diverseArticles st ++ [a];
          sourceCounts := <[source := S sourceCount]> (sourceCounts st);
          categoryCounts := <[category := S categoryCount]> (categoryCounts st) |}
  else st.

(** [ensureArticleDiversity(articles, config)] *)
Definition ensureArticleDiversity (config : SelectionConfig) (articles : list ScoredArticle)
  : list ScoredArticle :=
  if negb (preferDiverseSources (diversitySettings config)) then articles
  else
    let sortedArticles := sortBy higherOrSame articles in
    diverseArticles
      (fold_left (diversityStep (diversitySettings config)) sortedArticles
                 {| diverseArticles := []; sourceCounts := ∅; categoryCounts := ∅ |}).

(** [diverseArticles.sort((a, b) => b.finalScore - a.finalScore).slice(0, config.maxArticles)] *)
Definition topArticles (config : SelectionConfig) (diverseArticles : list ScoredArticle)
  : list ScoredArticle :=
  sliceTo (maxArticles config) (sortBy higherOrSame diverseArticles).

(** [selectBestArticles(input, vars)]: the [articles] of the result, on the
    articles of the input items and with the configuration already loaded. *)
Definition selectBestArticles (config : SelectionConfig) (now : Z) (allArticles : list Article)
  : list ScoredArticle :=
  match allArticles with
  | [] => []
  | _ =>
      let scoredArticles := scoreArticles config now allArticles in
      let qualifiedArticles := filterByMinimumScore config scoredArticles in
      let diverseArticles := ensureArticleDiversity config qualifiedArticles in
      topArticles config diverseArticles
  end.

(** [loadSelectionConfig({})]: the default weights and settings (of the
    default keywords, those written in Latin letters). *)
Definition defaultWeights (key : Factor.t) : Q :=
  match key with
  | Factor.contentQuality => 3
  | _ => 2
  end.

Definition defaultConfig : SelectionConfig :=
  {| maxArticles := 10;
     minScore := 5;
     weights := defaultWeights;
     japanKeywords := ["japan"; "tokyo"; "japanese"; "nippon"];
     aiKeywords := ["ai"; "artificial intelligence"; "machine learning"; "deep learning";
                    "neural"; "robot"];
     premiumSources := ["reuters"; "bloomberg"; "nikkei"; "japan times"; "techcrunch";
                        "venturebeat"];
     diversitySettings :=
       {| maxSameSource := 3; maxSameCategory := 4; preferDiverseSources := true |} |}.

(** The number of articles of a list that count for one source, and for
    one category. *)
Definition countBySource (key : string) (l : list ScoredArticle) : nat :=
  length (List.filter (fun a => String.eqb (sourceKey a) key) l).

Definition countByCategory (key : string) (l : list ScoredArticle) : nat :=
  length (List.filter (fun a => String.eqb (categoryKey a) key) l).

(** The article finds its source or its category full in [admitted], taken
    by articles whose final score is at least its own. *)
Definition crowdedOut (settings : DiversitySettings) (admitted : list ScoredArticle)
           (a : ScoredArticle) : Prop :=
  (Z.of_nat (countBySource (sourceKey a) admitted) = maxSameSource settings
   /\ forall b, In b admitted -> sourceKey b = sourceKey a ->
                 (finalScore a <= finalScore b)%Q)
  \/ (Z.of_nat (countByCategory (categoryKey a) admitted) = maxSameCategory settings
      /\ forall b, In b admitted -> categoryKey b = categoryKey a ->
                    (finalScore a <= finalScore b)%Q).

(** What the loop of [ensureArticleDiversity] maintains: the two
    dictionaries count the admitted articles, and no count exceeds its cap. *)
Record diversityInv (settings : DiversitySettings) (st : DiversityState) : Prop := {
  inv_source_counts :
    forall key, countBySource key (diverseArticles st) = countOf (sourceCounts st) key;
  inv_category_counts :
    forall key, countByCategory key (diverseArticles st) = countOf (categoryCounts st) key;
  inv_source_cap :
    forall key, (Z.of_nat (countOf (sourceCounts st) key) <= maxSameSource settings)%Z;
  inv_category_cap :
    forall key, (Z.of_nat (countOf (categoryCounts st) key) <= maxSameCategory settings)%Z
}.

(** [vars.PREFER_DIVERSE_SOURCES !== 'false'] of [loadSelectionConfig], on
    the value of the variable when it is set. *)
Definition loadPreferDiverseSources (PREFER_DIVERSE_SOURCES : option string) : bool :=
  match PREFER_DIVERSE_SOURCES with
  | Some value => negb (String.eqb value "false")
  | None => true
  end.

(** The defaults with [PREFER_DIVERSE_SOURCES='false']. *)
Definition noDiversityConfig : SelectionConfig :=
  {| maxArticles := 10;
     minScore := 5;
     weights := defaultWeights;
     japanKeywords := japanKeywords defaultConfig;
     aiKeywords := aiKeywords defaultConfig;
     premiumSources := premiumSources defaultConfig;
     diversitySettings :=
       {| maxSameSource := 3; maxSameCategory := 4;
          preferDiverseSources := loadPreferDiverseSources (Some "false") |} |}.

Definition factor_eq_dec (a b : Factor.t) : {a = b} + {a <> b}.
Proof. decide equality. Defined.

(** The configuration with the weight of one factor replaced. *)
Definition withWeight (config : SelectionConfig) (key : Factor.t) (w : Q) : SelectionConfig :=
  {| maxArticles := maxArticles config;
     minScore := minScore config;
     weights := fun k => if factor_eq_dec k key then w else weights config k;
     japanKeywords := japanKeywords config;
     aiKeywords := aiKeywords config;
     premiumSources := premiumSources config;
     diversitySettings := diversitySettings config |}.

(** The configuration with other lists of keywords. *)
Definition withKeywords (config : SelectionConfig) (japan ai : list string)
  : SelectionConfig :=
  {| maxArticles := maxArticles config;
     minScore := minScore config;
     weights := weights config;
     japanKeywords := japan;
     aiKeywords := ai;
     premiumSources := premiumSources config;
     diversitySettings := diversitySettings config |}.

(** The counting loops of [generateSelectionMetadata]:
    [breakdown[key] = (breakdown[key] || 0) + 1] for each selected article,
    on a dictionary that starts as [{}]. *)
Definition countByKey (key : ScoredArticle -> string) (articles : list ScoredArticle)
  : gmap string nat :=
  fold_left (fun breakdown a => <[key a := S (countOf breakdown (key a))]> breakdown)
            articles ∅.

(** [article.source || 'Unknown'] *)
Definition sourceLabel (a : ScoredArticle) : string :=
  if truthy (source (article a)) then source (article a) else "Unknown".

(** [article.contentQuality?.level || 'unknown'] *)
Definition qualityLabel (a : ScoredArticle) : string :=
  match contentQuality (article a) with
  | Some level => if truthy level then level else "unknown"
  | None => "unknown"
  end.

(** The counts of the selection metadata. Its other fields are left out:
    [selectionRate], [averageScore] and [scoreRange] are decimal texts made
    by [toFixed], and [config] repeats three fields of the configuration. *)
Record SelectionMetadata := mkMetadata {
  totalConsidered : nat;
  totalSelected : nat;
  sourceBreakdown : gmap string nat;
  categoryBreakdown : gmap string nat;
  qualityBreakdown : gmap string nat
}.

(** [generateSelectionMetadata(allArticles, selectedArticles, config)] *)
Definition generateSelectionMetadata (allArticles : list Article)
           (selectedArticles : list ScoredArticle) : SelectionMetadata :=
  {| totalConsidered := length allArticles;
     totalSelected := length selectedArticles;
     sourceBreakdown := countByKey sourceLabel selectedArticles;
     categoryBreakdown := countByKey categoryKey selectedArticles;
     qualityBreakdown := countByKey qualityLabel selectedArticles |}.

(** The number of articles of a list with one label. *)
Definition countLabel (key : ScoredArticle -> string) (label : string)
           (l : list ScoredArticle) : nat :=
  length (List.filter (fun a => String.eqb (key a) label) l).

(** The sum of the counts of a breakdown. *)
Definition totalOf (breakdown : gmap string nat) : nat :=
  map_fold (fun _ count sum => (count + sum)%nat) 0%nat breakdown.

End Selection.

(** ** NewsAPI processing (the NewsAPI template) *)

Module NewsApi.

(** [s.replace(/pattern/g, replacement)] for a pattern that is a literal
    text, not empty: the occurrences are replaced from left to right, the
    search going on behind each of them. [skip] counts the code units of an
    occurrence that are still to be passed over. *)
Fixpoint replaceAllFrom (skip : nat) (pattern replacement s : string) : string :=
  match s with
  | EmptyString => EmptyString
  | String c s' =>
      match skip with
      | S skip' => replaceAllFrom skip' pattern replacement s'
      | O =>
          if startsWith pattern s
          then replacement
               +:+ replaceAllFrom (String.length pattern - 1) pattern replacement s'
          else String c (replaceAllFrom 0 pattern replacement s')
      end
  end.

Definition replaceAll (pattern replacement s : string) : string :=
  replaceAllFrom 0 pattern replacement s.

(** The length of the shortest text that [.*?\]] matches at the start of
    [s]: up to the first closing bracket, when no line terminator comes
    before it. *)
Fixpoint bracketEnd (s : string) : option nat :=
  match s with
  | EmptyString => None
  | String c s' =>
      if Ascii.eqb c "]"%char then Some 1%nat
      else if (code c =? 10)%nat || (code c =? 13)%nat then None
      else option_map S (bracketEnd s')
  end.

(** [s.replace(/\[.*?\]/g, '')] *)
Fixpoint removeBracketsFrom (skip : nat) (s : string) : string :=
  match s with
  | EmptyString => EmptyString
  | String c s' =>
      match skip with
      | S skip' => removeBracketsFrom skip' s'
      | O =>
          if Ascii.eqb c "["%char then
            match bracketEnd s' with
            | Some n => removeBracketsFrom n s'
            | None => String c (removeBracketsFrom 0 s')
            end
          else String c (removeBracketsFrom 0 s')
      end
  end.

Definition removeBrackets (s : string) : string := removeBracketsFrom 0 s.

(** The text of one double quote. *)
Definition quote : string := String (ascii_of_nat 34) EmptyString.

(** The four entity replacements of [cleanTitle] and [cleanDescription],
    in their order. *)
Definition fixEntities (s : string) : string :=
  replaceAll "&gt;" ">" (replaceAll "&lt;" "<" (replaceAll "&amp;" "&"
    (replaceAll "&quot;" quote s))).

(** [cleanTitle(title)] *)
Definition cleanTitle (title : string) : string :=
  if negb (truthy title) then ""
  else slice0 200 (fixEntities (trim (collapseSpaces title))).

(** [cleanDescription(description)] *)
Definition cleanDescription (description : string) : string :=
  if negb (truthy description) then ""
  else slice0 500 (removeBrackets (fixEntities (trim (collapseSpaces description)))).

(** The only white space of the text is the space character. *)
Definition plainSpaces (s : string) : bool :=
  allChars (fun c => negb (isSpace c) || Ascii.eqb c " "%char) s.

(** An article of a NewsAPI response. Each field is a string, the empty
    string when the field is absent or null: the source reads each of them
    through a test of truthiness or through [||]. [sourceName] is
    [article.source?.name]. *)
Module Raw.
Record t := mk {
  title : string;
  description : string;
  url : string;
  content : string;
  sourceName : string;
  publishedAt : string;
  author : string;
  urlToImage : string
}.
End Raw.

(** [x || y] on strings. *)
Definition orElse (x y : string) : string := if truthy x then x else y.

(** [isValidArticle(article)] *)
Definition isValidArticle (article : Raw.t) : bool :=
  if negb (truthy (Raw.title article)) || negb (truthy (Raw.url article)) then false
  else if includes (Raw.url article) "[Removed]" || includes (Raw.title article) "[Removed]"
  then false
  else if negb (truthy (Raw.description article)) && negb (truthy (Raw.content article))
  then false
  else
    let contentLength :=
      (String.length (orElse (Raw.description article) "")
       + String.length (orElse (Raw.content article) ""))%nat in
    if (contentLength <? 50)%nat then false else true.

Record OriginalData := mkOriginalData {
  author : string;
  urlToImage : string;
  sourceDomain : string
}.

Record RelevanceFlags := mkFlags {
  hasAIKeywords : bool;
  hasJapanKeywords : bool;
  hasTechKeywords : bool;
  isRecent : bool;
  hasImage : bool;
  sourceQuality : string
}.

(** The normalized article as [processNewsAPI] first builds it. *)
Record Draft := mkDraft {
  title : string;
  description : string;
  url : string;
  source : string;
  publishedAt : string;
  content : string;
  type : string;
  needsExtraction : bool;
  originalData : OriginalData
}.

(** The normalized article with its [relevanceFlags]. *)
Record Article := mkArticle {
  fields : Draft;
  relevanceFlags : RelevanceFlags
}.

(** The keywords of [calculateRelevanceFlags] that are written in Latin
    letters; the others have code units above 255, which no text of the
    embedding contains. *)
Definition aiKeywords : list string :=
  ["ai"; "artificial intelligence"; "machine learning"; "deep learning";
   "neural"; "robot"; "automation"; "algorithm"; "chatgpt"; "openai"].

Definition japanKeywords : list string :=
  ["japan"; "tokyo"; "japanese"; "nippon"; "nihon"].

Definition techKeywords : list string :=
  ["technology"; "innovation"; "startup"; "research"; "development";
   "university"; "company"; "investment"; "funding"].

Definition premiumSources : list string :=
  ["reuters"; "bloomberg"; "nikkei"; "japan times"; "techcrunch";
   "venturebeat"; "wired"; "ars technica"; "the verge"; "engadget"].

Definition establishedSources : list string :=
  ["cnet"; "zdnet"; "computerworld"; "infoworld"; "pcworld";
   "ieee"; "acm"; "science"; "nature"].

(** [assessSourceQuality(sourceName, domain)] *)
Definition assessSourceQuality (sourceName domain : string) : string :=
  let name := toLowerCase sourceName in
  let domainLower := toLowerCase domain in
  if existsb (fun source => includes name source || includes domainLower source)
             premiumSources
  then "high"
  else if includes domainLower "edu" || includes domainLower "research"
          || includes name "university" || includes name "institute"
  then "high"
  else if existsb (fun source => includes name source || includes domainLower source)
                  establishedSources
  then "medium"
  else "low".

(** [h.replace(/^www\./, '')] *)
Definition stripWww (h : string) : string :=
  if startsWith "www." h then String.substring 4 (String.length h - 4) h else h.

Section Processor.

(** The platform's [new URL(url).hostname]: [None] when [new URL] throws. *)
Variable hostname : string -> option string.
(** The time value of [new Date(text)]: [None] for the Invalid Date. *)
Variable parseDate : string -> option Z.
(** [date.toISOString()] on a time value. *)
Variable toISOString : Z -> string.
(** The time of the run, as [Date.now()] and [new Date()] give it. *)
Variable now : Z.

(** [extractDomain(url)] *)
Definition extractDomain (url : string) : string :=
  tryCatch
    (match hostname url with
     | Some h => Normal (stripWww h)
     | None => Throw
     end)
    "".

(** [isRecentArticle(publishedAt)]: the comparison of the two dates is
    false when the first is invalid. *)
Definition isRecentArticle (publishedAt : string) : bool :=
  tryCatch
    (let publishDate := parseDate publishedAt in
     let twoDaysAgo := (now - 2 * 24 * 60 * 60 * 1000)%Z in
     Normal (match publishDate with
             | Some time => (twoDaysAgo <? time)%Z
             | None => false
             end))
    false.

(** [calculateRelevanceFlags(article)] *)
Definition calculateRelevanceFlags (article : Draft) : RelevanceFlags :=
  let content := toLowerCase (title article +:+ " " +:+ description article) in
  {| hasAIKeywords := existsb (fun keyword => includes content keyword) aiKeywords;
     hasJapanKeywords := existsb (fun keyword => includes content keyword) japanKeywords;
     hasTechKeywords := existsb (fun keyword => includes content keyword) techKeywords;
     isRecent := isRecentArticle (publishedAt article);
     hasImage := truthy (urlToImage (originalData article));
     sourceQuality :=
       assessSourceQuality (source article) (sourceDomain (originalData article)) |}.

(** The normalized article that the loop of [processNewsAPI] builds from a
    valid article. *)
Definition normalizedArticle (article : Raw.t) : Article :=
  let draft :=
    {| title := cleanTitle (Raw.title article);
       description := cleanDescription (Raw.description article);
       url := Raw.url article;
       source := orElse (Raw.sourceName article) "Unknown Source";
       publishedAt := orElse (Raw.publishedAt article) (toISOString now);
       content := orElse (orElse (Raw.content article) (Raw.description article)) "";
       type := "news";
       needsExtraction := true;
       originalData :=
         {| author := Raw.author article;
            urlToImage := Raw.urlToImage article;
            sourceDomain := extractDomain (Raw.url article) |} |} in
  {| fields := draft; relevanceFlags := calculateRelevanceFlags draft |}.

(** [processNewsAPI(input)], on [responseData.articles]: [None] when the
    response has no array of articles. *)
Definition processNewsAPI (responseArticles : option (list Raw.t)) : list Article :=
  match responseArticles with
  | None => []
  | Some rawArticles =>
      fold_left (fun articles article =>
                   if negb (isValidArticle article) then articles
                   else articles ++ [normalizedArticle article])
                rawArticles []
  end.

End Processor.

(** The options of [filterArticles]. *)
Record FilterConfig := mkFilterConfig {
  minRelevanceScore : float;
  requireAIKeywords : bool;
  requireJapanKeywords : bool;
  maxAge : Z
}.

(** The decimal constants of [filterArticles], as the binary64 values
    nearest to 0.1, 0.2, 0.3 and 0.5. *)
Definition tenth : float := 0x1.999999999999ap-4%float.
Definition fifth : float := 0x1.999999999999ap-3%float.
Definition threeTenths : float := 0x1.3333333333333p-2%float.
Definition half : float := 0x1p-1%float.

(** [filterArticles(articles)]: the defaults of the options. *)
Definition defaultFilterConfig : FilterConfig :=
  {| minRelevanceScore := half;
     requireAIKeywords := false;
     requireJapanKeywords := false;
     maxAge := 7 |}.

(** The relevance score that [filterArticles] computes from the flags. *)
Definition relevanceScore (flags : RelevanceFlags) : float :=
  let score := 0%float in
  let score := if hasAIKeywords flags then (score + threeTenths)%float else score in
  let score := if hasJapanKeywords flags then (score + threeTenths)%float else score in
  let score := if hasTechKeywords flags then (score + tenth)%float else score in
  let score := if isRecent flags then (score + fifth)%float else score in
  let score :=
    if String.eqb (sourceQuality flags) "high" then (score + tenth)%float else score in
  score.

(** The test that [filterArticles] makes on one article. *)
Definition keepsArticle (config : FilterConfig) (article : Article) : bool :=
  let flags := relevanceFlags article in
  let score := relevanceScore flags in
  if (score <? minRelevanceScore config)%float then false
  else if requireAIKeywords config && negb (hasAIKeywords flags) then false
  else if requireJapanKeywords config && negb (hasJapanKeywords flags) then false
  else true.

(** [filterArticles(articles, config)] *)
Definition filterArticles (config : FilterConfig) (articles : list Article) : list Article :=
  List.filter (keepsArticle config) articles.

(** The test of the default options, on the flags. *)
Definition relevantByDefault (flags : RelevanceFlags) : bool :=
  let high := String.eqb (sourceQuality flags) "high" in
  (hasAIKeywords flags && hasJapanKeywords flags)
  || ((hasAIKeywords flags || hasJapanKeywords flags)
      && (isRecent flags || (hasTechKeywords flags && high))).

(** A response article whose title is white space. *)
Definition blankTitled : Raw.t :=
  Raw.mk "   " "A description long enough to pass the check of fifty characters."
         "https://news.example/a" "" "" "" "" "".

End NewsApi.

(** ** Sample data *)

(** An article from an RSS feed, with the time value of its [publishedAt]. *)
Definition articleWithDate (date : option Z) : Selection.Article :=
  Selection.mkArticle "Tokyo lab shows new robot" "A research robot" "" "Nikkei" "rss"
                      date false None "description" 0 None.

(** The defaults with [MAX_SAME_SOURCE='1']. *)
Definition oneFromEachSource : Selection.SelectionConfig :=
  Selection.mkConfig 10 5 Selection.defaultWeights
    (Selection.japanKeywords Selection.defaultConfig)
    (Selection.aiKeywords Selection.defaultConfig)
    (Selection.premiumSources Selection.defaultConfig)
    (Selection.mkDiversity 1 4 true).

(** An article with the given source, two hours old at time 7200000. *)
Definition articleFrom (source : string) : Selection.Article :=
  Selection.mkArticle "Tokyo lab shows new robot" "A research robot" "" source "rss"
                      (Some 0%Z) false None "description" 0 None.

(** Two different articles of one source and one of another, two hours old. *)
Definition twoFromOneSource : list Selection.Article :=
  [articleFrom "Nikkei";
   Selection.mkArticle "Osaka startup funds AI lab" "Funding news" "" "Nikkei" "rss"
                       (Some 0%Z) false None "description" 0 None;
   articleFrom "NHK"].

(** Four articles of one source and one category, two hours old. *)
Definition fourFromOneSource : list Selection.Article :=
  [articleWithDate (Some 0%Z); articleWithDate (Some 0%Z);
   articleWithDate (Some 0%Z); articleWithDate (Some 0%Z)].

(** * Properties *)

(** ** Rational comparisons *)

Lemma Qle_bool_spec (a b : Q) : reflect (a <= b)%Q (Qle_bool a b).
Proof. apply iff_reflect. symmetry. apply Qle_bool_iff. Qed.

Lemma Qmax_js_ge_l (a b : Q) : (a <= Qmax_js a b)%Q.
Proof. unfold Qmax_js. destruct (Qle_bool_spec a b); lra. Qed.

Lemma Qmax_js_ge_r (a b : Q) : (b <= Qmax_js a b)%Q.
Proof. unfold Qmax_js. destruct (Qle_bool_spec a b); lra. Qed.

Lemma QofNat_nonneg (n : nat) : (0 <= QofNat n)%Q.
Proof.
  unfold QofNat. change 0%Q with (inject_Z 0). rewrite <- Zle_Qle. lia.
Qed.

(** ** Text normalizer *)

Example normalizeTitle_plain :
  normalizeTitle "Japan unveils new robot" = "japan unveils new robot".
Proof. reflexivity. Qed.

Example normalizeTitle_punct :
  normalizeTitle "  Japan   Unveils New Robot!!! " = "japan unveils new robot".
Proof. reflexivity. Qed.

Example normalizeTitle_empty : normalizeTitle "" = "".
Proof. reflexivity. Qed.

(** The result of [normalizeTitle] never has more than 100 characters. *)
Lemma slice0_length (n : nat) (s : string) : (String.length (slice0 n s) <= n)%nat.
Proof.
  revert s. induction n as [|n IH]; intros [|c s]; simpl; try lia.
  specialize (IH s). lia.
Qed.

Lemma normalizeTitle_length (title : string) :
  (String.length (normalizeTitle title) <= 100)%nat.
Proof.
  unfold normalizeTitle. destruct (negb (truthy title)).
  - simpl. lia.
  - apply slice0_length.
Qed.

(** What the pipeline of [normalizeTitle] and [normalizeContent] yields. *)

Lemma lowerChar_normal (c : ascii) :
  isWordChar (lowerChar c) = true -> isNormalChar (lowerChar c) = true.
Proof.
  destruct c as [[] [] [] [] [] [] [] []]; vm_compute; intros H; congruence.
Qed.

Lemma space_is_normal : isNormalChar " " = true.
Proof. reflexivity. Qed.

Lemma normal_space_is_blank (c : ascii) :
  isNormalChar c = true -> isSpace c = true -> c = " "%char.
Proof.
  destruct c as [[] [] [] [] [] [] [] []]; vm_compute; intros H1 H2; congruence.
Qed.

Lemma replaced_chars (s : string) :
  allChars (fun c => isNormalChar c || isSpace c)
           (replaceNonWordNonSpace (toLowerCase s)) = true.
Proof.
  induction s as [|c s IH]; [reflexivity|]. simpl. rewrite IH, andb_true_r.
  destruct (isWordChar (lowerChar c)) eqn:Hw; simpl.
  - rewrite (lowerChar_normal c Hw). reflexivity.
  - destruct (isSpace (lowerChar c)) eqn:Hs; [rewrite Hs; apply orb_true_r | reflexivity].
Qed.

Lemma collapsed_chars (inRun : bool) (s : string) :
  allChars (fun c => isNormalChar c || isSpace c) s = true ->
  allChars isNormalChar (collapseSpacesFrom inRun s) = true.
Proof.
  revert inRun. induction s as [|c s IH]; intros inRun H; [reflexivity|].
  simpl in H. apply andb_true_iff in H as [Hc Hs]. simpl.
  destruct (isSpace c) eqn:Hsp.
  - destruct inRun; simpl; auto.
  - simpl. rewrite orb_false_r in Hc. rewrite Hc. simpl. auto.
Qed.

Lemma collapsed_singleSpaced (inRun : bool) (s : string) :
  singleSpaced (collapseSpacesFrom inRun s) = true
  /\ (inRun = true -> startsWithSpace (collapseSpacesFrom inRun s) = false).
Proof.
  revert inRun. induction s as [|c s IH]; intros inRun; [split; reflexivity|].
  simpl. destruct (isSpace c) eqn:Hsp.
  - destruct inRun.
    + apply IH.
    + split; [|discriminate]. destruct (IH true) as [Hss Hst].
      specialize (Hst eq_refl). simpl. rewrite Hss, andb_true_r.
      destruct (collapseSpacesFrom true s) as [|d t]; [reflexivity|].
      simpl in Hst. rewrite Hst. reflexivity.
  - destruct (IH false) as [Hss _]. split.
    + simpl. rewrite Hss, andb_true_r.
      assert (Hc : Ascii.eqb c " " = false).
      { destruct (Ascii.eqb_spec c " "%char) as [->|]; [discriminate Hsp | reflexivity]. }
      rewrite Hc. destruct (collapseSpacesFrom false s); reflexivity.
    + intros _. simpl.
      destruct (Ascii.eqb_spec c " "%char) as [->|]; [discriminate Hsp | reflexivity].
Qed.

Section Substrings.
Variable p : ascii -> bool.

Lemma trimStart_allChars (s : string) : allChars p s = true -> allChars p (trimStart s) = true.
Proof.
  induction s as [|c s IH]; [reflexivity|]. intros H. simpl.
  destruct (isSpace c); [|exact H].
  simpl in H. apply andb_true_iff in H as [_ H]. auto.
Qed.

Lemma trimEnd_allChars (s : string) : allChars p s = true -> allChars p (trimEnd s) = true.
Proof.
  induction s as [|c s IH]; [reflexivity|]. intros H.
  simpl in H. apply andb_true_iff in H as [Hc Hs]. specialize (IH Hs). simpl.
  destruct (trimEnd s) as [|d t].
  - destruct (isSpace c); simpl; [reflexivity | rewrite Hc; reflexivity].
  - change (p c && allChars p (String d t) = true). rewrite Hc, IH. reflexivity.
Qed.

Lemma slice0_allChars (n : nat) (s : string) :
  allChars p s = true -> allChars p (slice0 n s) = true.
Proof.
  revert s. induction n as [|n IH]; intros [|c s] H; try reflexivity.
  simpl in H |- *. apply andb_true_iff in H as [Hc Hs]. rewrite Hc, (IH s Hs). reflexivity.
Qed.

End Substrings.

Lemma trimStart_singleSpaced (s : string) :
  singleSpaced s = true -> singleSpaced (trimStart s) = true.
Proof.
  induction s as [|c s IH]; [reflexivity|]. intros H. simpl.
  destruct (isSpace c); [|exact H].
  simpl in H. apply andb_true_iff in H as [_ H]. auto.
Qed.

Lemma trimEnd_head (c : ascii) (s : string) :
  trimEnd (String c s) = EmptyString \/ exists t, trimEnd (String c s) = String c t.
Proof.
  simpl. destruct (trimEnd s) as [|d t].
  - destruct (isSpace c); [left; reflexivity | right; eexists; reflexivity].
  - right. eexists. reflexivity.
Qed.

Lemma trimEnd_singleSpaced (s : string) :
  singleSpaced s = true -> singleSpaced (trimEnd s) = true.
Proof.
  induction s as [|c s IH]; [reflexivity|]. intros H.
  simpl in H. apply andb_true_iff in H as [Hc Hs]. specialize (IH Hs).
  simpl. destruct (trimEnd s) as [|d t] eqn:Ht.
  - destruct (isSpace c); reflexivity.
  - change (negb (Ascii.eqb c " " && Ascii.eqb d " ") && singleSpaced (String d t) = true).
    rewrite IH, andb_true_r.
    destruct s as [|d' s']; [discriminate Ht|].
    destruct (trimEnd_head d' s') as [E|[t' E]]; rewrite E in Ht; [discriminate|].
    injection Ht as <- _. exact Hc.
Qed.

Lemma slice0_singleSpaced (n : nat) (s : string) :
  singleSpaced s = true -> singleSpaced (slice0 n s) = true.
Proof.
  revert s. induction n as [|n IH]; intros [|c s] H; try reflexivity.
  simpl in H. apply andb_true_iff in H as [Hc Hs].
  change (slice0 (S n) (String c s)) with (String c (slice0 n s)).
  change (match slice0 n s with
          | String d _ => negb (Ascii.eqb c " " && Ascii.eqb d " ")
          | EmptyString => true
          end && singleSpaced (slice0 n s) = true).
  rewrite (IH s Hs), andb_true_r.
  destruct n as [|n]; [reflexivity|]. destruct s as [|d s]; [reflexivity|]. exact Hc.
Qed.

Lemma trimStart_no_space (s : string) :
  allChars isNormalChar s = true -> startsWithSpace (trimStart s) = false.
Proof.
  induction s as [|c s IH]; [reflexivity|]. intros H.
  simpl in H. apply andb_true_iff in H as [Hc Hs]. simpl.
  destruct (isSpace c) eqn:Hsp; [auto|]. simpl.
  destruct (Ascii.eqb_spec c " "%char) as [->|]; [discriminate Hsp | reflexivity].
Qed.

Lemma trimEnd_no_space (s : string) :
  startsWithSpace s = false -> startsWithSpace (trimEnd s) = false.
Proof.
  destruct s as [|c s]; [reflexivity|]. intros H.
  destruct (trimEnd_head c s) as [E|[t E]]; rewrite E; [reflexivity | exact H].
Qed.

Lemma slice0_no_space (n : nat) (s : string) :
  startsWithSpace s = false -> startsWithSpace (slice0 n s) = false.
Proof. destruct n, s; try reflexivity. intros H. exact H. Qed.

(** X2. Every normalized title has at most 100 characters, each a
    lower-case letter, a digit, an underscore or a space, with no space in
    front and no two spaces in a row. *)
Lemma normalizeTitle_shape (title : string) :
  (String.length (normalizeTitle title) <= 100)%nat
  /\ allChars isNormalChar (normalizeTitle title) = true
  /\ singleSpaced (normalizeTitle title) = true
  /\ startsWithSpace (normalizeTitle title) = false.
Proof.
  split; [apply normalizeTitle_length|].
  unfold normalizeTitle. destruct (negb (truthy title)); [repeat split|].
  pose proof (collapsed_chars false _ (replaced_chars title)) as Hchars.
  destruct (collapsed_singleSpaced false (replaceNonWordNonSpace (toLowerCase title)))
    as [Hspaced _].
  fold (collapseSpaces (replaceNonWordNonSpace (toLowerCase title))) in Hchars, Hspaced.
  unfold trim. repeat split.
  - apply slice0_allChars, trimEnd_allChars, trimStart_allChars, Hchars.
  - apply slice0_singleSpaced, trimEnd_singleSpaced, trimStart_singleSpaced, Hspaced.
  - apply slice0_no_space, trimEnd_no_space, trimStart_no_space, Hchars.
Qed.

Lemma slice0_slice0 (n m : nat) (s : string) :
  (n <= m)%nat -> slice0 n (slice0 m s) = slice0 n s.
Proof.
  revert m s. induction n as [|n IH]; intros m s Hnm; [destruct (slice0 m s); reflexivity|].
  destruct m as [|m]; [lia|]. destruct s as [|c s]; [reflexivity|].
  simpl. rewrite IH by lia. reflexivity.
Qed.

(** X15. Every normalized content has at most 500 characters, each a
    lower-case letter, a digit, an underscore or a space, with no space in
    front and no two spaces in a row; the normalized title of a text is the
    first 100 characters of its normalized content. *)
Theorem normalizeContent_shape (content : string) :
  (String.length (normalizeContent content) <= 500)%nat
  /\ allChars isNormalChar (normalizeContent content) = true
  /\ singleSpaced (normalizeContent content) = true
  /\ startsWithSpace (normalizeContent content) = false
  /\ normalizeTitle content = slice0 100 (normalizeContent content).
Proof.
  unfold normalizeContent, normalizeTitle.
  destruct (negb (truthy content)); [repeat split; simpl; lia|].
  pose proof (collapsed_chars false _ (replaced_chars content)) as Hchars.
  destruct (collapsed_singleSpaced false (replaceNonWordNonSpace (toLowerCase content)))
    as [Hspaced _].
  fold (collapseSpaces (replaceNonWordNonSpace (toLowerCase content))) in Hchars, Hspaced.
  unfold trim. repeat split.
  - apply slice0_length.
  - apply slice0_allChars, trimEnd_allChars, trimStart_allChars, Hchars.
  - apply slice0_singleSpaced, trimEnd_singleSpaced, trimStart_singleSpaced, Hspaced.
  - apply slice0_no_space, trimEnd_no_space, trimStart_no_space, Hchars.
  - symmetry. apply slice0_slice0. lia.
Qed.

(** C9 (the code keeps what the claim says it replaces). The underscore is
    not alphanumeric, yet [normalizeTitle] keeps it: the class [\w] of the
    pattern [[^\w\s]] contains it. The two titles of the scenario do
    normalize to the same text. *)
Theorem C9_normalizeTitle_keeps_underscore :
  normalizeTitle "AI_Japan: robot_news!" = "ai_japan robot_news"
  /\ normalizeTitle "Japan unveils new robot" = normalizeTitle "Japan Unveils New Robot!!!".
Proof. split; reflexivity. Qed.

(** ** Edit distance *)

Lemma cell_swap (same : bool) (diag left up : nat) :
  cell same diag left up = cell same diag up left.
Proof. unfold cell. destruct same; lia. Qed.

Lemma ascii_eqb_swap (a b : ascii) : Ascii.eqb a b = Ascii.eqb b a.
Proof.
  destruct (Ascii.eqb_spec a b) as [->|Hne].
  - symmetry. apply Ascii.eqb_refl.
  - symmetry. apply Ascii.eqb_neq. congruence.
Qed.

Lemma prefixDistance_nil_r (u : list ascii) : prefixDistance u [] = length u.
Proof. destruct u; reflexivity. Qed.

(** The recurrence is symmetric in its two texts. *)
Lemma prefixDistance_swap (u v : list ascii) : prefixDistance u v = prefixDistance v u.
Proof.
  revert v. induction u as [|a u IHu]; intros v.
  - simpl. symmetry. apply prefixDistance_nil_r.
  - induction v as [|b v IHv].
    + reflexivity.
    + change (cell (Ascii.eqb a b) (prefixDistance u v) (prefixDistance (a :: u) v)
                   (prefixDistance u (b :: v))
              = cell (Ascii.eqb b a) (prefixDistance v u) (prefixDistance (b :: v) u)
                     (prefixDistance v (a :: u))).
      rewrite IHv, (IHu v), (IHu (b :: v)), ascii_eqb_swap. apply cell_swap.
Qed.

Lemma revPrefixes_length (pre : list ascii) (rest : string) :
  length (revPrefixes pre rest) = S (String.length rest).
Proof.
  revert pre. induction rest as [|c rest IH]; intros pre; simpl; [reflexivity|].
  rewrite IH. reflexivity.
Qed.

Lemma revPrefixes_last (pre : list ascii) (rest : string) :
  revPrefixes pre rest !! String.length rest = Some (revOnto pre rest).
Proof.
  revert pre. induction rest as [|c rest IH]; intros pre; simpl; [reflexivity|].
  apply IH.
Qed.

Lemma revPrefixes_lengths (pre : list ascii) (rest : string) :
  map length (revPrefixes pre rest) = seq (length pre) (S (String.length rest)).
Proof.
  revert pre. induction rest as [|c rest IH]; intros pre; simpl; [reflexivity|].
  f_equal. apply (IH (c :: pre)).
Qed.

(** The inner loop computes the cells of a row from the row above. *)
Lemma fillRow_spec (c2 : ascii) (u2 : list ascii) (rest : string) (pre : list ascii) :
  fillRow c2 rest (map (prefixDistance u2) (revPrefixes pre rest))
          (prefixDistance (c2 :: u2) pre)
  = map (prefixDistance (c2 :: u2)) (tail (revPrefixes pre rest)).
Proof.
  revert pre. induction rest as [|c1 rest IH]; intros pre; [reflexivity|].
  cbn [revPrefixes tail map].
  destruct rest as [|c1' rest'].
  - reflexivity.
  - specialize (IH (c1 :: pre)). cbn [revPrefixes tail map] in IH |- *.
    cbn [fillRow]. f_equal. exact IH.
Qed.

Lemma fillMatrix_spec (str1 rest2 : string) (pre2 : list ascii) :
  fillMatrix str1 rest2 (S (length pre2)) (rowOf str1 pre2)
  = map (rowOf str1) (tail (revPrefixes pre2 rest2)).
Proof.
  revert pre2. induction rest2 as [|c2 rest2 IH]; intros pre2; [reflexivity|].
  cbn [fillMatrix].
  assert (Hrow : S (length pre2) :: fillRow c2 str1 (rowOf str1 pre2) (S (length pre2))
                 = rowOf str1 (c2 :: pre2)).
  { unfold rowOf.
    change (S (length pre2)) with (prefixDistance (c2 :: pre2) []).
    rewrite fillRow_spec. destruct str1; reflexivity. }
  rewrite Hrow. specialize (IH (c2 :: pre2)).
  cbn [revPrefixes tail map]. destruct rest2; cbn [revPrefixes tail map length] in *.
  - reflexivity.
  - f_equal. exact IH.
Qed.

Lemma levenshteinMatrix_spec (str1 str2 : string) :
  levenshteinMatrix str1 str2 = map (rowOf str1) (revPrefixes [] str2).
Proof.
  unfold levenshteinMatrix.
  assert (Hrow0 : seq 0 (S (String.length str1)) = rowOf str1 []).
  { unfold rowOf. symmetry. apply (revPrefixes_lengths [] str1). }
  rewrite Hrow0.
  pose proof (fillMatrix_spec str1 str2 []) as H. simpl length in H. rewrite H.
  destruct str2; reflexivity.
Qed.

(** The cell that [levenshteinDistance] returns holds the recurrence's
    value on the two whole texts. *)
Lemma levenshteinDistance_spec (str1 str2 : string) :
  levenshteinDistance str1 str2 = prefixDistance (revOnto [] str2) (revOnto [] str1).
Proof.
  unfold levenshteinDistance. rewrite levenshteinMatrix_spec.
  rewrite (nth_lookup_Some _ _ _ (rowOf str1 (revOnto [] str2))).
  - unfold rowOf. apply nth_lookup_Some.
    rewrite list_lookup_fmap, revPrefixes_last. reflexivity.
  - rewrite list_lookup_fmap, revPrefixes_last. reflexivity.
Qed.

Lemma levenshteinDistance_swap (str1 str2 : string) :
  levenshteinDistance str1 str2 = levenshteinDistance str2 str1.
Proof. rewrite !levenshteinDistance_spec. apply prefixDistance_swap. Qed.

Lemma cell_le (same : bool) (diag left up : nat) : (cell same diag left up <= diag + 1)%nat.
Proof. unfold cell. destruct same; lia. Qed.

Lemma prefixDistance_le (u v : list ascii) :
  (prefixDistance u v <= Nat.max (length u) (length v))%nat.
Proof.
  revert v. induction u as [|a u IHu]; intros v; [simpl; lia|].
  destruct v as [|b v]; [simpl; lia|].
  change (prefixDistance (a :: u) (b :: v))
    with (cell (Ascii.eqb a b) (prefixDistance u v) (prefixDistance (a :: u) v)
               (prefixDistance u (b :: v))).
  pose proof (cell_le (Ascii.eqb a b) (prefixDistance u v) (prefixDistance (a :: u) v)
                      (prefixDistance u (b :: v))).
  specialize (IHu v). simpl length. lia.
Qed.

Lemma prefixDistance_same (u : list ascii) : prefixDistance u u = 0%nat.
Proof.
  induction u as [|a u IH]; [reflexivity|].
  change (prefixDistance (a :: u) (a :: u))
    with (cell (Ascii.eqb a a) (prefixDistance u u) (prefixDistance (a :: u) u)
               (prefixDistance u (a :: u))).
  rewrite Ascii.eqb_refl. exact IH.
Qed.

Lemma revOnto_length (pre : list ascii) (s : string) :
  length (revOnto pre s) = (length pre + String.length s)%nat.
Proof.
  revert pre. induction s as [|c s IH]; intros pre; simpl; [lia|].
  rewrite IH. simpl. lia.
Qed.

Lemma levenshteinDistance_le (str1 str2 : string) :
  (levenshteinDistance str1 str2 <= Nat.max (String.length str1) (String.length str2))%nat.
Proof.
  rewrite levenshteinDistance_spec.
  pose proof (prefixDistance_le (revOnto [] str2) (revOnto [] str1)) as H.
  rewrite !revOnto_length in H. simpl in H. lia.
Qed.

(** X3. The cell that [levenshteinDistance] returns is the value of the
    edit-distance recurrence on the two whole texts; the distance is
    symmetric, at most the longer length, and 0 on equal texts. *)
Theorem levenshteinDistance_facts (str1 str2 : string) :
  levenshteinDistance str1 str2 = prefixDistance (revOnto [] str2) (revOnto [] str1)
  /\ levenshteinDistance str1 str2 = levenshteinDistance str2 str1
  /\ (levenshteinDistance str1 str2
      <= Nat.max (String.length str1) (String.length str2))%nat
  /\ levenshteinDistance str1 str1 = 0%nat.
Proof.
  repeat split.
  - apply levenshteinDistance_spec.
  - apply levenshteinDistance_swap.
  - apply levenshteinDistance_le.
  - rewrite levenshteinDistance_spec. apply prefixDistance_same.
Qed.

(** *** The distance as the least number of edits *)

Lemma prefixDistance_cons (a b : ascii) (u v : list ascii) :
  prefixDistance (a :: u) (b :: v)
  = cell (Ascii.eqb a b) (prefixDistance u v) (prefixDistance (a :: u) v)
         (prefixDistance u (b :: v)).
Proof. reflexivity. Qed.

(** Neighbouring cells of the matrix differ by at most 1. *)
Lemma prefixDistance_neighbours (n : nat) (u v : list ascii) (a : ascii) :
  (length u + length v <= n)%nat ->
  (prefixDistance (a :: u) v <= S (prefixDistance u v))%nat
  /\ (prefixDistance u v <= S (prefixDistance (a :: u) v))%nat.
Proof.
  revert u v a. induction n as [|n IH]; intros u v a Hlen.
  - destruct u; [|simpl in Hlen; lia]. destruct v; [|simpl in Hlen; lia].
    simpl. lia.
  - destruct v as [|b v].
    + rewrite !prefixDistance_nil_r. simpl. lia.
    + simpl in Hlen. rewrite prefixDistance_cons.
      destruct (IH u v a) as [H1 H2]; [lia|].
      destruct (IH v u b) as [H3 H4]; [lia|].
      rewrite (prefixDistance_swap (b :: v) u), (prefixDistance_swap v u) in H3, H4.
      unfold cell. destruct (Ascii.eqb a b); lia.
Qed.

Lemma prefixDistance_delete (a : ascii) (u v : list ascii) :
  (prefixDistance (a :: u) v <= S (prefixDistance u v))%nat.
Proof. apply (prefixDistance_neighbours (length u + length v)). lia. Qed.

Lemma prefixDistance_insert (b : ascii) (u v : list ascii) :
  (prefixDistance u (b :: v) <= S (prefixDistance u v))%nat.
Proof.
  rewrite (prefixDistance_swap u (b :: v)), (prefixDistance_swap u v).
  apply prefixDistance_delete.
Qed.

(** No pass makes fewer edits than the recurrence's value. *)
Lemma prefixDistance_least (u v : list ascii) (n : nat) :
  edits u v n -> (prefixDistance u v <= n)%nat.
Proof.
  induction 1 as [|c u v n _ IH|a b u v n _ IH|a u v n _ IH|b u v n _ IH].
  - simpl. lia.
  - rewrite prefixDistance_cons, Ascii.eqb_refl. exact IH.
  - rewrite prefixDistance_cons.
    pose proof (cell_le (Ascii.eqb a b) (prefixDistance u v) (prefixDistance (a :: u) v)
                        (prefixDistance u (b :: v))). lia.
  - pose proof (prefixDistance_delete a u v). lia.
  - pose proof (prefixDistance_insert b u v). lia.
Qed.

Lemma edits_insert_all (v : list ascii) : edits [] v (length v).
Proof. induction v as [|b v IH]; [constructor|]. simpl. apply edits_insert, IH. Qed.

(** Some pass makes exactly as many edits as the recurrence's value. *)
Lemma prefixDistance_reached (u v : list ascii) : edits u v (prefixDistance u v).
Proof.
  revert v. induction u as [|a u IHu]; intros v.
  - apply edits_insert_all.
  - induction v as [|b v IHv].
    + change (prefixDistance (a :: u) []) with (S (length u)).
      apply edits_delete. rewrite <- (prefixDistance_nil_r u). apply IHu.
    + rewrite prefixDistance_cons. unfold cell.
      destruct (Ascii.eqb_spec a b) as [->|Hne].
      * apply edits_keep, IHu.
      * rewrite !Nat.add_1_r.
        destruct (Nat.min_spec (S (prefixDistance u v))
                    (Nat.min (S (prefixDistance (a :: u) v))
                             (S (prefixDistance u (b :: v))))) as [[_ ->]|[_ ->]].
        -- apply edits_substitute, IHu.
        -- destruct (Nat.min_spec (S (prefixDistance (a :: u) v))
                                  (S (prefixDistance u (b :: v)))) as [[_ ->]|[_ ->]].
           ++ apply edits_insert, IHv.
           ++ apply edits_delete, IHu.
Qed.

(** A pass can be read back to front. *)
Lemma edits_snoc_keep (c : ascii) (u v : list ascii) (n : nat) :
  edits u v n -> edits (u ++ [c]) (v ++ [c]) n.
Proof.
  induction 1; simpl; try (constructor; assumption).
  apply edits_keep, edits_done.
Qed.

Lemma edits_snoc_substitute (a b : ascii) (u v : list ascii) (n : nat) :
  edits u v n -> edits (u ++ [a]) (v ++ [b]) (S n).
Proof.
  induction 1; simpl; try (constructor; assumption).
  apply edits_substitute, edits_done.
Qed.

Lemma edits_snoc_delete (a : ascii) (u v : list ascii) (n : nat) :
  edits u v n -> edits (u ++ [a]) v (S n).
Proof.
  induction 1; simpl; try (constructor; assumption).
  apply edits_delete, edits_done.
Qed.

Lemma edits_snoc_insert (b : ascii) (u v : list ascii) (n : nat) :
  edits u v n -> edits u (v ++ [b]) (S n).
Proof.
  induction 1; simpl; try (constructor; assumption).
  apply edits_insert, edits_done.
Qed.

Lemma edits_rev (u v : list ascii) (n : nat) : edits u v n -> edits (rev u) (rev v) n.
Proof.
  induction 1; simpl.
  - constructor.
  - apply edits_snoc_keep. assumption.
  - apply edits_snoc_substitute. assumption.
  - apply edits_snoc_delete. assumption.
  - apply edits_snoc_insert. assumption.
Qed.

Lemma edits_swap (u v : list ascii) (n : nat) : edits u v n -> edits v u n.
Proof. induction 1; constructor; assumption. Qed.

Lemma revOnto_rev (pre : list ascii) (s : string) :
  revOnto pre s = rev (chars s) ++ pre.
Proof.
  revert pre. induction s as [|c s IH]; intros pre; [reflexivity|].
  simpl. rewrite IH, <- app_assoc. reflexivity.
Qed.

Lemma revOnto_chars (s : string) : revOnto [] s = rev (chars s).
Proof. rewrite revOnto_rev. apply app_nil_r. Qed.

Lemma edits_lengths (u v : list ascii) (n : nat) :
  edits u v n -> (length u <= length v + n)%nat /\ (length v <= length u + n)%nat.
Proof. induction 1; simpl; lia. Qed.

Lemma edits_none (u v : list ascii) : edits u v 0 -> u = v.
Proof.
  remember 0%nat as n eqn:Hn. induction 1; try discriminate; [reflexivity|].
  f_equal. auto.
Qed.

Lemma chars_inj (s t : string) : chars s = chars t -> s = t.
Proof.
  intros H. rewrite <- (string_of_list_ascii_of_string s),
              <- (string_of_list_ascii_of_string t).
  unfold chars in H. rewrite H. reflexivity.
Qed.

Lemma chars_length (s : string) : length (chars s) = String.length s.
Proof. induction s as [|c s IH]; simpl; [reflexivity|]. rewrite IH. reflexivity. Qed.

Lemma levenshteinDistance_reached (str1 str2 : string) :
  edits (chars str1) (chars str2) (levenshteinDistance str1 str2).
Proof.
  rewrite levenshteinDistance_spec, !revOnto_chars.
  rewrite <- (rev_involutive (chars str1)), <- (rev_involutive (chars str2)) at 1.
  apply edits_rev, edits_swap, prefixDistance_reached.
Qed.

Lemma levenshteinDistance_least (str1 str2 : string) (n : nat) :
  edits (chars str1) (chars str2) n -> (levenshteinDistance str1 str2 <= n)%nat.
Proof.
  intros Hn. rewrite levenshteinDistance_spec, !revOnto_chars.
  apply prefixDistance_least, edits_rev, edits_swap, Hn.
Qed.

Lemma levenshteinDistance_zero (str1 str2 : string) :
  levenshteinDistance str1 str2 = 0%nat <-> str1 = str2.
Proof.
  split.
  - intros H0. pose proof (levenshteinDistance_reached str1 str2) as Hreach.
    rewrite H0 in Hreach. apply chars_inj, edits_none, Hreach.
  - intros ->. rewrite levenshteinDistance_spec. apply prefixDistance_same.
Qed.

(** Two passes in a row make one pass with no more edits than both. *)
Lemma edits_compose (u v : list ascii) (n : nat) :
  edits u v n ->
  forall w m, edits v w m -> exists k, (k <= n + m)%nat /\ edits u w k.
Proof.
  induction 1 as [|c u v n _ IH|a b u v n _ IH|a u v n _ IH|b u v n _ IH]; intros w m E2.
  - exists m. split; [lia | exact E2].
  - remember (c :: v) as cv eqn:Hcv. revert Hcv.
    induction E2 as [|c' v' w' m' E2 _|a' b' v' w' m' E2 _|a' v' w' m' E2 _
                     |b' v' w' m' E2 IH2]; intros Hcv; try discriminate.
    + injection Hcv as -> ->. destruct (IH _ _ E2) as (k & Hk & E).
      exists k. split; [lia | apply edits_keep, E].
    + injection Hcv as -> ->. destruct (IH _ _ E2) as (k & Hk & E).
      exists (S k). split; [lia | apply edits_substitute, E].
    + injection Hcv as -> ->. destruct (IH _ _ E2) as (k & Hk & E).
      exists (S k). split; [lia | apply edits_delete, E].
    + destruct (IH2 Hcv) as (k & Hk & E).
      exists (S k). split; [lia | apply edits_insert, E].
  - remember (b :: v) as bv eqn:Hbv. revert Hbv.
    induction E2 as [|c' v' w' m' E2 _|a' b' v' w' m' E2 _|a' v' w' m' E2 _
                     |b' v' w' m' E2 IH2]; intros Hbv; try discriminate.
    + injection Hbv as -> ->. destruct (IH _ _ E2) as (k & Hk & E).
      exists (S k). split; [lia | apply edits_substitute, E].
    + injection Hbv as -> ->. destruct (IH _ _ E2) as (k & Hk & E).
      exists (S k). split; [lia | apply edits_substitute, E].
    + injection Hbv as -> ->. destruct (IH _ _ E2) as (k & Hk & E).
      exists (S k). split; [lia | apply edits_delete, E].
    + destruct (IH2 Hbv) as (k & Hk & E).
      exists (S k). split; [lia | apply edits_insert, E].
  - destruct (IH _ _ E2) as (k & Hk & E).
    exists (S k). split; [lia | apply edits_delete, E].
  - remember (b :: v) as bv eqn:Hbv. revert Hbv.
    induction E2 as [|c' v' w' m' E2 _|a' b' v' w' m' E2 _|a' v' w' m' E2 _
                     |b' v' w' m' E2 IH2]; intros Hbv; try discriminate.
    + injection Hbv as -> ->. destruct (IH _ _ E2) as (k & Hk & E).
      exists (S k). split; [lia | apply edits_insert, E].
    + injection Hbv as -> ->. destruct (IH _ _ E2) as (k & Hk & E).
      exists (S k). split; [lia | apply edits_insert, E].
    + injection Hbv as -> ->. destruct (IH _ _ E2) as (k & Hk & E).
      exists k. split; [lia | exact E].
    + destruct (IH2 Hbv) as (k & Hk & E).
      exists (S k). split; [lia | apply edits_insert, E].
Qed.

Lemma levenshteinDistance_triangle (str1 str2 str3 : string) :
  (levenshteinDistance str1 str3
   <= levenshteinDistance str1 str2 + levenshteinDistance str2 str3)%nat.
Proof.
  destruct (edits_compose _ _ _ (levenshteinDistance_reached str1 str2) _ _
                          (levenshteinDistance_reached str2 str3)) as (k & Hk & E).
  apply levenshteinDistance_least in E. lia.
Qed.

(** X6. [levenshteinDistance] is the edit distance: some pass turns [str1]
    into [str2] with that many single-character edits, and no pass does with
    fewer. Hence the distance is 0 only between equal texts, it is at least
    the difference of the two lengths, and it obeys the triangle
    inequality. *)
Theorem levenshteinDistance_is_least_number_of_edits (str1 str2 : string) :
  edits (chars str1) (chars str2) (levenshteinDistance str1 str2)
  /\ (forall n, edits (chars str1) (chars str2) n ->
                (levenshteinDistance str1 str2 <= n)%nat)
  /\ (levenshteinDistance str1 str2 = 0%nat <-> str1 = str2)
  /\ (String.length str1 <= String.length str2 + levenshteinDistance str1 str2)%nat
  /\ (String.length str2 <= String.length str1 + levenshteinDistance str1 str2)%nat
  /\ (forall str3,
         (levenshteinDistance str1 str3
          <= levenshteinDistance str1 str2 + levenshteinDistance str2 str3)%nat).
Proof.
  split; [apply levenshteinDistance_reached|]. split; [|split; [|split; [|split]]].
  - apply levenshteinDistance_least.
  - apply levenshteinDistance_zero.
  - pose proof (levenshteinDistance_reached str1 str2) as Hreach.
    apply edits_lengths in Hreach. rewrite !chars_length in Hreach. lia.
  - pose proof (levenshteinDistance_reached str1 str2) as Hreach.
    apply edits_lengths in Hreach. rewrite !chars_length in Hreach. lia.
  - intros str3. apply levenshteinDistance_triangle.
Qed.

Example lev_kitten : levenshteinDistance "kitten" "sitting" = 3%nat.
Proof. reflexivity. Qed.

Example lev_empty : levenshteinDistance "" "abc" = 3%nat.
Proof. reflexivity. Qed.

Example hash_abc : simpleHash "abc" = 96354%Z.
Proof. reflexivity. Qed.

(** ** Title hash *)

Lemma toInt32_range (z : Z) : (- 2 ^ 31 <= toInt32 z < 2 ^ 31)%Z.
Proof.
  unfold toInt32. pose proof (Z.mod_pos_bound (z + 2 ^ 31) (2 ^ 32)). lia.
Qed.

Lemma toInt32_mod (z : Z) : (toInt32 z mod 2 ^ 32 = z mod 2 ^ 32)%Z.
Proof.
  unfold toInt32. rewrite Zminus_mod_idemp_l. f_equal. lia.
Qed.

Lemma toInt32_small (z : Z) : (- 2 ^ 31 <= z < 2 ^ 31)%Z -> toInt32 z = z.
Proof. intros Hz. unfold toInt32. rewrite Z.mod_small; lia. Qed.

Lemma toInt32_congr (a b : Z) : (a mod 2 ^ 32 = b mod 2 ^ 32)%Z -> toInt32 a = toInt32 b.
Proof.
  intros H. unfold toInt32. f_equal.
  rewrite <- (Zplus_mod_idemp_l a), H, Zplus_mod_idemp_l. reflexivity.
Qed.

(** One round of the loop multiplies by 31 and adds the code unit, modulo
    [2^32]. *)
Lemma hash_round (hash hash' char : Z) :
  (hash mod 2 ^ 32 = hash' mod 2 ^ 32)%Z ->
  (toInt32 (toInt32 (Z.shiftl hash 5) - hash + char) mod 2 ^ 32
   = (31 * hash' + char) mod 2 ^ 32)%Z.
Proof.
  intros H. rewrite toInt32_mod.
  replace (toInt32 (Z.shiftl hash 5) - hash + char)%Z
    with (toInt32 (Z.shiftl hash 5) + (char - hash))%Z by lia.
  rewrite <- Zplus_mod_idemp_l, toInt32_mod, Zplus_mod_idemp_l.
  rewrite Z.shiftl_mul_pow2 by lia.
  replace (hash * 2 ^ 5 + (char - hash))%Z with (31 * hash + char)%Z by lia.
  rewrite <- Zplus_mod_idemp_l, <- Zmult_mod_idemp_r, H, Zmult_mod_idemp_r,
    Zplus_mod_idemp_l.
  reflexivity.
Qed.

Lemma simpleHashFrom_mod (str : string) (hash hash' : Z) :
  (hash mod 2 ^ 32 = hash' mod 2 ^ 32)%Z ->
  (simpleHashFrom hash str mod 2 ^ 32 = polynomial31 hash' str mod 2 ^ 32)%Z.
Proof.
  revert hash hash'. induction str as [|c str IH]; intros hash hash' H; [exact H|].
  simpl. apply IH, hash_round, H.
Qed.

Lemma simpleHashFrom_range (str : string) (hash : Z) :
  (- 2 ^ 31 <= hash < 2 ^ 31)%Z -> (- 2 ^ 31 <= simpleHashFrom hash str < 2 ^ 31)%Z.
Proof.
  revert hash. induction str as [|c str IH]; intros hash H; [exact H|].
  simpl. apply IH, toInt32_range.
Qed.

(** X8. [simpleHash] is the 32-bit hash with multiplier 31: the signed
    32-bit value of the base-31 polynomial over the code units of the text.
    It is always a signed 32-bit integer, and 0 on the empty text. *)
Theorem simpleHash_is_polynomial31 (str : string) :
  simpleHash str = toInt32 (polynomial31 0 str)
  /\ (- 2 ^ 31 <= simpleHash str < 2 ^ 31)%Z
  /\ simpleHash "" = 0%Z.
Proof.
  assert (Hrange : (- 2 ^ 31 <= simpleHash str < 2 ^ 31)%Z).
  { apply simpleHashFrom_range. lia. }
  split; [|split; [exact Hrange | reflexivity]].
  rewrite <- (toInt32_small _ Hrange). apply toInt32_congr, simpleHashFrom_mod.
  reflexivity.
Qed.

(** ** Similarity engine *)

Lemma truthy_true (s : string) : truthy s = true <-> s <> "".
Proof.
  unfold truthy. destruct (String.eqb_spec s ""); simpl; split; congruence.
Qed.

Lemma truthy_false (s : string) : truthy s = false <-> s = "".
Proof.
  unfold truthy. destruct (String.eqb_spec s ""); simpl; split; congruence.
Qed.

Lemma string_eqb_swap (a b : string) : String.eqb a b = String.eqb b a.
Proof.
  destruct (String.eqb_spec a b) as [->|Hne].
  - symmetry. apply String.eqb_refl.
  - symmetry. apply String.eqb_neq. congruence.
Qed.

Lemma gset_inter_swap (X Y : gset string) : X ∩ Y = Y ∩ X.
Proof. apply intersection_comm_L. Qed.

Lemma gset_union_swap (X Y : gset string) : X ∪ Y = Y ∪ X.
Proof. apply union_comm_L. Qed.

Lemma calculateStringSimilarity_swap (a b : string) :
  calculateStringSimilarity a b = calculateStringSimilarity b a.
Proof.
  unfold calculateStringSimilarity.
  rewrite (orb_comm (negb (truthy a))), (string_eqb_swap a b),
    (Nat.max_comm (String.length a)), (levenshteinDistance_swap a b).
  reflexivity.
Qed.

Lemma calculateUrlSimilarity_swap (a b : string) :
  calculateUrlSimilarity a b = calculateUrlSimilarity b a.
Proof.
  unfold calculateUrlSimilarity.
  rewrite (orb_comm (negb (truthy a))), (string_eqb_swap a b),
    (string_eqb_swap (domainOf a)), (calculateStringSimilarity_swap a b).
  reflexivity.
Qed.

Lemma calculateTitleSimilarity_swap (a b : string) :
  calculateTitleSimilarity a b = calculateTitleSimilarity b a.
Proof.
  unfold calculateTitleSimilarity.
  rewrite (orb_comm (negb (truthy a))), (string_eqb_swap a b),
    (calculateStringSimilarity_swap a b),
    (gset_inter_swap (wordSet 2 a)), (gset_union_swap (wordSet 2 a)).
  reflexivity.
Qed.

Lemma calculateContentSimilarity_swap (a b : string) :
  calculateContentSimilarity a b = calculateContentSimilarity b a.
Proof.
  unfold calculateContentSimilarity.
  rewrite (orb_comm (negb (truthy a))), (string_eqb_swap a b),
    (gset_inter_swap (wordSet 3 a)), (gset_union_swap (wordSet 3 a)).
  reflexivity.
Qed.

Lemma truthy_nonempty (s : string) : s <> "" -> truthy s = true.
Proof. apply truthy_true. Qed.

Lemma eqb_different (a b : string) : a <> b -> String.eqb a b = false.
Proof. apply String.eqb_neq. Qed.

(** On two different non-empty texts the string measure is the similarity
    by edit distance. *)
Lemma calculateStringSimilarity_edit (a b : string) :
  a <> "" -> b <> "" -> a <> b ->
  calculateStringSimilarity a b = editSimilarity a b.
Proof.
  intros Ha Hb Hab. unfold calculateStringSimilarity, editSimilarity.
  rewrite (truthy_nonempty a Ha), (truthy_nonempty b Hb), (eqb_different a b Hab). simpl.
  destruct (Nat.eqb_spec (Nat.max (String.length a) (String.length b)) 0) as [Hmax|Hmax];
    [|reflexivity].
  destruct a as [|c a]; [congruence|]. simpl in Hmax. lia.
Qed.

Example title_similarity_words :
  (calculateTitleSimilarity "japan unveils new robot" "japan unveils robot" == 19 # 23)%Q.
Proof. vm_compute. reflexivity. Qed.

Example url_similarity_domains :
  calculateUrlSimilarity "https://a.com/x" "https://b.com/x" = (1 # 10)%Q.
Proof. vm_compute. reflexivity. Qed.

(** *** The measures lie between 0 and 1 *)

Lemma QofNat_le (n m : nat) : (n <= m)%nat -> (QofNat n <= QofNat m)%Q.
Proof. intros H. unfold QofNat. rewrite <- Zle_Qle. lia. Qed.

Lemma ratio_range (d m : nat) :
  (d <= m)%nat -> m <> 0%nat -> (0 <= QofNat d / QofNat m <= 1)%Q.
Proof.
  intros Hd Hm.
  assert (Hpos : (0 < QofNat m)%Q).
  { unfold QofNat. change 0%Q with (inject_Z 0). rewrite <- Zlt_Qlt. lia. }
  split.
  - apply Qle_shift_div_l; [exact Hpos|]. rewrite Qmult_0_l. apply QofNat_nonneg.
  - apply Qle_shift_div_r; [exact Hpos|]. rewrite Qmult_1_l. apply QofNat_le, Hd.
Qed.

Lemma calculateStringSimilarity_range (a b : string) :
  (0 <= calculateStringSimilarity a b <= 1)%Q.
Proof.
  unfold calculateStringSimilarity.
  destruct (negb (truthy a) || negb (truthy b)); [lra|].
  destruct (String.eqb a b); [lra|].
  destruct (Nat.eqb_spec (Nat.max (String.length a) (String.length b)) 0) as [|Hm]; [lra|].
  pose proof (ratio_range _ _ (levenshteinDistance_le a b) Hm). lra.
Qed.

Lemma jaccard_range (n : nat) (a b : string) :
  size (wordSet n a ∪ wordSet n b) <> 0%nat -> (0 <= jaccard n a b <= 1)%Q.
Proof.
  intros Hm. apply ratio_range; [|exact Hm].
  apply subseteq_size. intros w Hw.
  apply elem_of_intersection in Hw as [Hw _]. apply elem_of_union. left. exact Hw.
Qed.

Lemma Qmax_js_range (a b : Q) :
  (0 <= a <= 1)%Q -> (0 <= b <= 1)%Q -> (0 <= Qmax_js a b <= 1)%Q.
Proof. intros Ha Hb. unfold Qmax_js. destruct (Qle_bool a b); assumption. Qed.

(** X4. The three similarity measures return values between 0 and 1. *)
Theorem similarity_ranges (a b : string) :
  (0 <= calculateUrlSimilarity a b <= 1)%Q
  /\ (0 <= calculateTitleSimilarity a b <= 1)%Q
  /\ (0 <= calculateContentSimilarity a b <= 1)%Q.
Proof.
  split; [|split].
  - unfold calculateUrlSimilarity.
    destruct (negb (truthy a) || negb (truthy b)); [lra|].
    destruct (String.eqb a b); [lra|].
    destruct (negb _); [lra | apply calculateStringSimilarity_range].
  - unfold calculateTitleSimilarity.
    destruct (negb (truthy a) || negb (truthy b)); [lra|].
    destruct (String.eqb a b); [lra|].
    destruct (Nat.eqb_spec (size (wordSet 2 a ∪ wordSet 2 b)) 0) as [|Hm]; [lra|].
    apply Qmax_js_range; [apply (jaccard_range 2 a b Hm) | apply calculateStringSimilarity_range].
  - unfold calculateContentSimilarity.
    destruct (negb (truthy a) || negb (truthy b)); [lra|].
    destruct (String.eqb a b); [lra|].
    destruct (Nat.eqb_spec (size (wordSet 3 a ∪ wordSet 3 b)) 0) as [|Hm]; [lra|].
    apply (jaccard_range 3 a b Hm).
Qed.

(** *** When a measure is 1 *)

Lemma QofNat_pos (m : nat) : m <> 0%nat -> (0 < QofNat m)%Q.
Proof. intros Hm. unfold QofNat. change 0%Q with (inject_Z 0). rewrite <- Zlt_Qlt. lia. Qed.

Lemma QofNat_inj (n m : nat) : (QofNat n == QofNat m)%Q -> n = m.
Proof. unfold QofNat. intros H. rewrite inject_Z_injective in H. lia. Qed.

Lemma ratio_is_one (d m : nat) :
  m <> 0%nat -> ((QofNat d / QofNat m == 1)%Q <-> d = m).
Proof.
  intros Hm. pose proof (QofNat_pos m Hm) as Hpos. split.
  - intros H. apply QofNat_inj.
    rewrite <- (Qmult_1_l (QofNat m)), <- H. field. lra.
  - intros ->. field. lra.
Qed.

Lemma ratio_is_zero (d m : nat) :
  m <> 0%nat -> ((1 - QofNat d / QofNat m == 1)%Q <-> d = 0%nat).
Proof.
  intros Hm. pose proof (QofNat_pos m Hm) as Hpos. split.
  - intros H. apply QofNat_inj.
    assert (H0 : (QofNat d / QofNat m == 0)%Q) by lra.
    change (QofNat 0) with 0%Q. rewrite <- (Qmult_0_l (QofNat m)), <- H0. field. lra.
  - intros ->. change (QofNat 0) with 0%Q. field. lra.
Qed.

Lemma max_length_nonzero (a b : string) :
  a <> "" -> Nat.max (String.length a) (String.length b) <> 0%nat.
Proof. destruct a; [congruence|]. simpl. lia. Qed.

(** The string measure is 1 only on two equal non-empty texts. *)
Lemma calculateStringSimilarity_one (a b : string) :
  (calculateStringSimilarity a b == 1)%Q <-> a <> "" /\ a = b.
Proof.
  unfold calculateStringSimilarity.
  destruct (String.eqb_spec a "") as [->|Ha].
  { simpl. split; [intros H; discriminate H | intros [H _]; congruence]. }
  destruct (String.eqb_spec b "") as [->|Hb].
  { rewrite (truthy_nonempty a Ha). simpl.
    split; [intros H; discriminate H | intros [_ H]; congruence]. }
  rewrite (truthy_nonempty a Ha), (truthy_nonempty b Hb). simpl.
  destruct (String.eqb_spec a b) as [Hab|Hab]; [split; [auto | reflexivity]|].
  pose proof (max_length_nonzero a b Ha) as Hm.
  destruct (Nat.eqb_spec (Nat.max (String.length a) (String.length b)) 0) as [|_];
    [contradiction|].
  rewrite (ratio_is_zero _ _ Hm), levenshteinDistance_zero. tauto.
Qed.

Lemma equal_of_same_size (X Y : gset string) :
  size (X ∩ Y) = size (X ∪ Y) -> X = Y.
Proof.
  intros Hsize.
  assert (Hsub : X ∩ Y ⊆ X ∪ Y).
  { intros w Hw. apply elem_of_intersection in Hw as [Hw _].
    apply elem_of_union. left. exact Hw. }
  assert (Hle : (size (X ∪ Y) <= size (X ∩ Y))%nat) by lia.
  pose proof (set_subseteq_size_eq (X ∩ Y) (X ∪ Y) Hsub Hle) as Heq.
  apply leibniz_equiv. intros w. split; intros Hw.
  - assert (Hu : w ∈ X ∪ Y) by (apply elem_of_union; left; exact Hw).
    rewrite <- Heq in Hu. apply elem_of_intersection in Hu. tauto.
  - assert (Hu : w ∈ X ∪ Y) by (apply elem_of_union; right; exact Hw).
    rewrite <- Heq in Hu. apply elem_of_intersection in Hu. tauto.
Qed.

Lemma gset_inter_same (X : gset string) : X ∩ X = X.
Proof. apply leibniz_equiv. intros w. rewrite elem_of_intersection. tauto. Qed.

Lemma gset_union_same (X : gset string) : X ∪ X = X.
Proof. apply leibniz_equiv. intros w. rewrite elem_of_union. tauto. Qed.

Lemma gset_union_nonempty (X Y : gset string) : X <> ∅ -> size (X ∪ Y) <> 0%nat.
Proof.
  intros HX Hsize. apply size_empty_inv in Hsize. apply HX.
  apply leibniz_equiv. intros w. split; intros Hw.
  - apply Hsize. apply elem_of_union. left. exact Hw.
  - apply elem_of_empty in Hw. contradiction.
Qed.

(** The Jaccard index of two word sets is 1 when the sets are equal and
    not empty, and only then. *)
Lemma jaccard_one (n : nat) (a b : string) :
  size (wordSet n a ∪ wordSet n b) <> 0%nat ->
  (jaccard n a b == 1)%Q <-> wordSet n a = wordSet n b.
Proof.
  intros Hm. unfold jaccard. rewrite (ratio_is_one _ _ Hm). split.
  - apply equal_of_same_size.
  - intros ->. rewrite gset_inter_same, gset_union_same. reflexivity.
Qed.

Lemma Qmax_js_one (x y : Q) :
  (x <= 1)%Q -> (y <= 1)%Q -> (Qmax_js x y == 1)%Q <-> (x == 1)%Q \/ (y == 1)%Q.
Proof.
  intros Hx Hy. unfold Qmax_js.
  destruct (Qle_bool x y) eqn:Hle.
  - apply Qle_bool_iff in Hle. split; [auto|]. intros [H|H]; lra.
  - assert (Hlt : ~ (x <= y)%Q) by (rewrite <- Qle_bool_iff; congruence).
    split; [auto|]. intros [H|H]; lra.
Qed.

(** X7. When a measure is 1. The URL measure is 1 only on two equal
    non-empty texts. The title measure is 1 on two non-empty titles that are
    equal or have the same non-empty set of words longer than 2 characters,
    and only on those: the order of the words, their repetitions and the
    shorter words do not count. The content measure is the same with the
    words longer than 3 characters. *)
Theorem similarity_is_one (a b : string) :
  ((calculateUrlSimilarity a b == 1)%Q <-> a <> "" /\ a = b)
  /\ ((calculateTitleSimilarity a b == 1)%Q
      <-> a <> "" /\ b <> ""
          /\ (a = b \/ (wordSet 2 a = wordSet 2 b /\ wordSet 2 a <> ∅)))
  /\ ((calculateContentSimilarity a b == 1)%Q
      <-> a <> "" /\ b <> ""
          /\ (a = b \/ (wordSet 3 a = wordSet 3 b /\ wordSet 3 a <> ∅))).
Proof.
  split; [|split].
  - unfold calculateUrlSimilarity.
    destruct (String.eqb_spec a "") as [->|Ha].
    { simpl. split; [intros H; discriminate H | intros [H _]; congruence]. }
    destruct (String.eqb_spec b "") as [->|Hb].
    { rewrite (truthy_nonempty a Ha). simpl.
      split; [intros H; discriminate H | intros [_ H]; congruence]. }
    rewrite (truthy_nonempty a Ha), (truthy_nonempty b Hb). simpl.
    destruct (String.eqb_spec a b) as [Hab|Hab]; [split; [auto | reflexivity]|].
    destruct (negb _).
    + split; [intros H; discriminate H | intros [_ H]; congruence].
    + apply calculateStringSimilarity_one.
  - unfold calculateTitleSimilarity.
    destruct (String.eqb_spec a "") as [->|Ha].
    { simpl. split; [intros H; discriminate H | intros [H _]; congruence]. }
    destruct (String.eqb_spec b "") as [->|Hb].
    { rewrite (truthy_nonempty a Ha). simpl.
      split; [intros H; discriminate H | intros (_ & H & _); congruence]. }
    rewrite (truthy_nonempty a Ha), (truthy_nonempty b Hb). simpl.
    destruct (String.eqb_spec a b) as [Hab|Hab]; [split; [auto | reflexivity]|].
    destruct (Nat.eqb_spec (size (wordSet 2 a ∪ wordSet 2 b)) 0) as [Hm|Hm].
    + split; [intros H; discriminate H|].
      intros (_ & _ & [H|[_ H]]); [contradiction|].
      exfalso. exact (gset_union_nonempty _ _ H Hm).
    + fold (jaccard 2 a b).
      rewrite Qmax_js_one, (jaccard_one 2 a b Hm), calculateStringSimilarity_one.
      * split.
        -- intros [H|[_ H]]; [|contradiction]. repeat split; try assumption.
           right. split; [exact H|]. intros Hempty. apply Hm.
           rewrite <- H, gset_union_same, Hempty. apply size_empty.
        -- intros (_ & _ & [H|[H _]]); [contradiction | left; exact H].
      * apply (jaccard_range 2 a b Hm).
      * apply calculateStringSimilarity_range.
  - unfold calculateContentSimilarity.
    destruct (String.eqb_spec a "") as [->|Ha].
    { simpl. split; [intros H; discriminate H | intros [H _]; congruence]. }
    destruct (String.eqb_spec b "") as [->|Hb].
    { rewrite (truthy_nonempty a Ha). simpl.
      split; [intros H; discriminate H | intros (_ & H & _); congruence]. }
    rewrite (truthy_nonempty a Ha), (truthy_nonempty b Hb). simpl.
    destruct (String.eqb_spec a b) as [Hab|Hab]; [split; [auto | reflexivity]|].
    destruct (Nat.eqb_spec (size (wordSet 3 a ∪ wordSet 3 b)) 0) as [Hm|Hm].
    + split; [intros H; discriminate H|].
      intros (_ & _ & [H|[_ H]]); [contradiction|].
      exfalso. exact (gset_union_nonempty _ _ H Hm).
    + fold (jaccard 3 a b). rewrite (jaccard_one 3 a b Hm). split.
      * intros H. repeat split; try assumption.
        right. split; [exact H|]. intros Hempty. apply Hm.
        rewrite <- H, gset_union_same, Hempty. apply size_empty.
      * intros (_ & _ & [H|[H _]]); [contradiction | exact H].
Qed.

Example reordered_titles :
  (calculateTitleSimilarity "robot maker opens plant" "plant opens robot maker" == 1)%Q.
Proof. vm_compute. reflexivity. Qed.

(** *** A threshold as a budget of edits *)

Lemma ratio_le (d m : nat) (x : Q) :
  m <> 0%nat -> ((QofNat d / QofNat m <= x)%Q <-> (QofNat d <= x * QofNat m)%Q).
Proof.
  intros Hm. pose proof (QofNat_pos m Hm) as Hpos. split.
  - intros H.
    assert (Hd : (QofNat d == QofNat d / QofNat m * QofNat m)%Q) by (field; lra).
    rewrite Hd. apply Qmult_le_compat_r; lra.
  - intros H. apply Qle_shift_div_r; assumption.
Qed.

Lemma calculateUrlSimilarity_same_domain (a b : string) :
  a <> "" -> b <> "" -> a <> b -> domainOf a = domainOf b ->
  calculateUrlSimilarity a b = editSimilarity a b.
Proof.
  intros Ha Hb Hab Hdom. unfold calculateUrlSimilarity.
  rewrite (truthy_nonempty a Ha), (truthy_nonempty b Hb), (eqb_different a b Hab), Hdom,
    String.eqb_refl.
  simpl. apply calculateStringSimilarity_edit; assumption.
Qed.

Lemma calculateUrlSimilarity_other_domain (a b : string) :
  a <> "" -> b <> "" -> domainOf a <> domainOf b ->
  calculateUrlSimilarity a b = (1 # 10)%Q.
Proof.
  intros Ha Hb Hdom. unfold calculateUrlSimilarity.
  assert (Hab : a <> b) by congruence.
  rewrite (truthy_nonempty a Ha), (truthy_nonempty b Hb), (eqb_different a b Hab),
    (eqb_different _ _ Hdom).
  reflexivity.
Qed.

(** X24. The URL threshold as a budget of edits, for two different
    non-empty URLs. With the default threshold 0.8, two URLs with the same
    domain reach the threshold exactly when 5 times their edit distance is
    at most the length of the longer one, that is when at most a fifth of
    the characters differ, and two URLs with different domains never reach
    it. With any threshold [t], up to the rounding margin of binary64
    arithmetic: two URLs with the same domain reach it when their distance
    is at most (1 - t - margin) times the longer length, and only when it is
    at most (1 - t + margin) times that length; two URLs with different
    domains reach it when [t] is at most 0.1 - margin, and only when [t] is
    at most 0.1 + margin. *)
Theorem url_threshold_is_an_edit_budget (a b : string) :
  a <> "" -> b <> "" -> a <> b ->
  let distance := levenshteinDistance a b in
  let longer := Nat.max (String.length a) (String.length b) in
  let default := Dedup.urlSimilarityThreshold Dedup.defaultDedupConfig in
  (domainOf a = domainOf b ->
   (Qle_bool default (calculateUrlSimilarity a b) = true <-> (5 * distance <= longer)%nat)
   /\ (forall t : Q,
          ((QofNat distance <= (1 - t - roundingMargin) * QofNat longer)%Q ->
           Qle_bool t (calculateUrlSimilarity a b) = true)
          /\ (Qle_bool t (calculateUrlSimilarity a b) = true ->
              (QofNat distance <= (1 - t + roundingMargin) * QofNat longer)%Q)))
  /\ (domainOf a <> domainOf b ->
      Qle_bool default (calculateUrlSimilarity a b) = false
      /\ (forall t : Q,
             ((t <= (1 # 10) - roundingMargin)%Q ->
              Qle_bool t (calculateUrlSimilarity a b) = true)
             /\ (Qle_bool t (calculateUrlSimilarity a b) = true ->
                 (t <= (1 # 10) + roundingMargin)%Q))).
Proof.
  intros Ha Hb Hab distance longer default.
  assert (Hmargin : (0 < roundingMargin)%Q) by reflexivity.
  split; intros Hdom.
  - rewrite (calculateUrlSimilarity_same_domain a b Ha Hb Hab Hdom).
    unfold editSimilarity. fold distance. fold longer.
    pose proof (QofNat_pos longer (max_length_nonzero a b Ha)) as Hpos.
    assert (Hbudget : forall x : Q,
               (x <= 1 - QofNat distance / QofNat longer)%Q
               <-> (QofNat distance <= (1 - x) * QofNat longer)%Q).
    { intros x.
      pose proof (ratio_le distance longer (1 - x) (max_length_nonzero a b Ha)) as Hr.
      rewrite <- Hr. split; intros H; lra. }
    split; [|intros t; split].
    + rewrite Qle_bool_iff, Hbudget. unfold default, QofNat. simpl.
      rewrite (Nat2Z.inj_le (5 * distance) longer), Nat2Z.inj_mul, Zle_Qle, inject_Z_mult.
      change (inject_Z (Z.of_nat 5)) with 5%Q.
      split; intros H; lra.
    + intros H. apply Qle_bool_iff, Hbudget.
      assert (0 <= roundingMargin * QofNat longer)%Q
        by (apply Qmult_le_0_compat; lra).
      lra.
    + intros H. apply Qle_bool_iff, Hbudget in H.
      assert (0 <= roundingMargin * QofNat longer)%Q
        by (apply Qmult_le_0_compat; lra).
      lra.
  - rewrite (calculateUrlSimilarity_other_domain a b Ha Hb Hdom).
    split; [reflexivity|]. intros t. rewrite Qle_bool_iff. split; intros H; lra.
Qed.

(** Two article URLs of one site that differ in one character of 26, and
    two URLs of two sites. *)
Lemma url_threshold_is_an_edit_budget_witness :
  let a := "https://site.com/article-1" in
  let b := "https://site.com/article-2" in
  (Qle_bool (8 # 10) (calculateUrlSimilarity a b) = true
   <-> (5 * levenshteinDistance a b <= 26)%nat)
  /\ levenshteinDistance a b = 1%nat
  /\ Qle_bool (8 # 10) (calculateUrlSimilarity "https://a.com/x" "https://b.com/x") = false.
Proof.
  intros a b. split; [|split; [reflexivity|]].
  - apply (url_threshold_is_an_edit_budget a b); try discriminate. reflexivity.
  - apply (url_threshold_is_an_edit_budget "https://a.com/x" "https://b.com/x");
      discriminate.
Defined.

(** C3 (as amended). When either normalized title is empty the similarity
    is 0. For two non-empty normalized titles: identical titles have
    similarity 1; different titles none of whose words is longer than 2
    characters have similarity 0; otherwise the similarity is the maximum of
    the Jaccard index over the words longer than 2 characters and of the
    similarity by edit distance, so that it is at least each of the two. *)
Theorem C3_titleSimilarity_max_of_signals (a b : string) :
  (a = "" \/ b = "" -> calculateTitleSimilarity a b = 0%Q)
  /\ (a <> "" -> b <> "" ->
      (a = b -> calculateTitleSimilarity a b = 1%Q)
      /\ (a <> b -> wordSet 2 a ∪ wordSet 2 b = ∅ -> calculateTitleSimilarity a b = 0%Q)
      /\ (a <> b -> wordSet 2 a ∪ wordSet 2 b <> ∅ ->
          calculateTitleSimilarity a b = Qmax_js (jaccard 2 a b) (editSimilarity a b)
          /\ (jaccard 2 a b <= calculateTitleSimilarity a b)%Q
          /\ (editSimilarity a b <= calculateTitleSimilarity a b)%Q)).
Proof.
  split.
  { unfold calculateTitleSimilarity.
    intros [->| ->]; [|destruct (truthy a)]; reflexivity. }
  intros Ha Hb. unfold calculateTitleSimilarity.
  rewrite (truthy_nonempty a Ha), (truthy_nonempty b Hb). simpl. split; [|split].
  - intros ->. rewrite String.eqb_refl. reflexivity.
  - intros Hab Hempty. rewrite (eqb_different a b Hab).
    rewrite Hempty, size_empty. reflexivity.
  - intros Hab Hwords. rewrite (eqb_different a b Hab).
    destruct (Nat.eqb_spec (size (wordSet 2 a ∪ wordSet 2 b)) 0) as [Hsize|Hsize].
    + apply size_empty_inv in Hsize. apply leibniz_equiv in Hsize. contradiction.
    + rewrite (calculateStringSimilarity_edit a b Ha Hb Hab). fold (jaccard 2 a b).
      split; [reflexivity|]. split; [apply Qmax_js_ge_l | apply Qmax_js_ge_r].
Qed.

(** Two titles that share three of their four long words, and an empty
    title against one of them. *)
Lemma C3_witness :
  let a := "japan unveils new robot" in
  let b := "japan unveils robot" in
  calculateTitleSimilarity "" b = 0%Q
  /\ (a = b -> calculateTitleSimilarity a b = 1%Q)
  /\ (a <> b -> wordSet 2 a ∪ wordSet 2 b = ∅ -> calculateTitleSimilarity a b = 0%Q)
  /\ (a <> b -> wordSet 2 a ∪ wordSet 2 b <> ∅ ->
      calculateTitleSimilarity a b = Qmax_js (jaccard 2 a b) (editSimilarity a b)
      /\ (jaccard 2 a b <= calculateTitleSimilarity a b)%Q
      /\ (editSimilarity a b <= calculateTitleSimilarity a b)%Q).
Proof.
  intros a b. split.
  - apply (proj1 (C3_titleSimilarity_max_of_signals "" b)). left. reflexivity.
  - apply (proj2 (C3_titleSimilarity_max_of_signals a b)); discriminate.
Defined.

(** C3 (counterexample). The two normalized titles differ by two characters
    in eight, so their similarity by edit distance is 3/4, above the default
    threshold 7/10; but none of their words is longer than 2 characters, and
    the title similarity is 0. *)
Lemma C3_counterexample :
  normalizeTitle "AI is up" = "ai is up"
  /\ normalizeTitle "AI is on" = "ai is on"
  /\ (editSimilarity "ai is up" "ai is on" == 3 # 4)%Q
  /\ calculateTitleSimilarity "ai is up" "ai is on" = 0%Q.
Proof. vm_compute. repeat split; reflexivity. Qed.

(** ** Scorer *)

Section ScorerFacts.
Import Selection.

(** X1. The recency bands, for a valid date: the age in milliseconds
    against 6, 12, 24, 48, 72 and 168 hours gives 10, 9, 8, 6, 4, 2, and 1
    beyond a week. *)
Lemma scoreRecency_bands (now date : Z) (a : Article) :
  publishedAt a = Some date ->
  let age := (now - date)%Z in
  scoreRecency now a =
    (if (age <? 6 * 3600000)%Z then 10
     else if (age <? 12 * 3600000)%Z then 9
     else if (age <? 24 * 3600000)%Z then 8
     else if (age <? 48 * 3600000)%Z then 6
     else if (age <? 72 * 3600000)%Z then 4
     else if (age <? 168 * 3600000)%Z then 2
     else 1)%Q.
Proof.
  intros Hdate age. unfold scoreRecency, tryCatch. rewrite Hdate. simpl.
  fold age.
  assert (Hdiv : (inject_Z age / (1000 * 60 * 60) == inject_Z age * (1 # 3600000))%Q)
    by (unfold Qdiv; reflexivity).
  assert (Hlt : forall h : Z,
             negb (Qle_bool (inject_Z h) (inject_Z age / (1000 * 60 * 60)))
             = (age <? h * 3600000)%Z).
  { intros h.
    destruct (Qle_bool_spec (inject_Z h) (inject_Z age / (1000 * 60 * 60))) as [H|H];
      destruct (Z.ltb_spec age (h * 3600000)) as [H'|H']; simpl; try reflexivity; exfalso.
    - rewrite Hdiv in H.
      assert (H2 : (inject_Z h * inject_Z 3600000 <= inject_Z age)%Q)
        by (change (inject_Z 3600000) with (3600000 # 1)%Q; lra).
      rewrite <- inject_Z_mult, <- Zle_Qle in H2. lia.
    - apply H. rewrite Hdiv.
      assert (H2 : (inject_Z h * inject_Z 3600000 <= inject_Z age)%Q)
        by (rewrite <- inject_Z_mult, <- Zle_Qle; lia).
      change (inject_Z 3600000) with (3600000 # 1)%Q in H2. lra. }
  change 6%Q with (inject_Z 6). change 12%Q with (inject_Z 12).
  change 24%Q with (inject_Z 24). change 48%Q with (inject_Z 48).
  change 72%Q with (inject_Z 72). change 168%Q with (inject_Z 168).
  rewrite !Hlt. reflexivity.
Qed.

(** An article published thirty hours before the run. *)
Lemma scoreRecency_bands_witness :
  scoreRecency (30 * 3600000) (articleWithDate (Some 0%Z)) = 6%Q.
Proof.
  apply (scoreRecency_bands (30 * 3600000) 0 (articleWithDate (Some 0%Z))).
  reflexivity.
Defined.

(** C2 (the code misses the neutral default). An article whose
    [publishedAt] does not parse has the Invalid Date: its age is NaN, every
    band test is false, and the score is 1, the score of the oldest
    articles, at every time of the run. The handler that returns 5 is never
    reached. *)
Theorem C2_unparsable_date_scores_1 :
  forall now : Z, scoreRecency now (articleWithDate None) = 1%Q.
Proof. intros now. reflexivity. Qed.

Example scoreRecency_recent : scoreRecency 7200000 (articleWithDate (Some 0%Z)) = 10%Q.
Proof. reflexivity. Qed.

Example scoreRecency_week_old :
  scoreRecency (200 * 3600000) (articleWithDate (Some 0%Z)) = 1%Q.
Proof. reflexivity. Qed.

Lemma Qmin_js_le_l (a b : Q) : (Qmin_js a b <= a)%Q.
Proof. unfold Qmin_js. destruct (Qle_bool_spec a b); lra. Qed.

Lemma Qmin_js_le_r (a b : Q) : (Qmin_js a b <= b)%Q.
Proof. unfold Qmin_js. destruct (Qle_bool_spec a b); lra. Qed.

Lemma Qmin_js_glb (c a b : Q) : (c <= a)%Q -> (c <= b)%Q -> (c <= Qmin_js a b)%Q.
Proof. intros Ha Hb. unfold Qmin_js. destruct (Qle_bool a b); assumption. Qed.

Lemma clamp10_bounds (score : Q) : (0 <= clamp10 score <= 10)%Q.
Proof.
  unfold clamp10. split.
  - apply Qmax_js_ge_l.
  - unfold Qmax_js. destruct (Qle_bool_spec 0 (Qmin_js 10 score)).
    + apply Qmin_js_le_l.
    + lra.
Qed.

Lemma min10_bounds (score : Q) : (0 <= score)%Q -> (0 <= Qmin_js 10 score <= 10)%Q.
Proof.
  intros H. split.
  - apply Qmin_js_glb; lra.
  - apply Qmin_js_le_l.
Qed.

Lemma scoreContentLength_bounds (a : Article) : (0 <= scoreContentLength a <= 10)%Q.
Proof.
  unfold scoreContentLength.
  repeat match goal with
         | |- context [if ?b then _ else _] => destruct b
         end; lra.
Qed.

Lemma scoreJapanRelevance_bounds (config : SelectionConfig) (a : Article) :
  (0 <= scoreJapanRelevance config a <= 10)%Q.
Proof.
  unfold scoreJapanRelevance. apply min10_bounds.
  set (base := Qmin_js (QofNat (countMatches (searchText a) (japanKeywords config)) * 2) 8).
  assert (Hbase : (0 <= base)%Q).
  { apply Qmin_js_glb; [|lra].
    pose proof (QofNat_nonneg (countMatches (searchText a) (japanKeywords config))). lra. }
  repeat match goal with
         | |- context [if ?b then _ else _] => destruct b
         end; lra.
Qed.

Lemma scoreAIRelevance_bounds (config : SelectionConfig) (a : Article) :
  (0 <= scoreAIRelevance config a <= 10)%Q.
Proof.
  unfold scoreAIRelevance. apply min10_bounds.
  set (base := Qmin_js (QofNat (countMatches (searchText a) (aiKeywords config)) * (3 # 2)) 7).
  assert (Hbase : (0 <= base)%Q).
  { apply Qmin_js_glb; [|lra].
    pose proof (QofNat_nonneg (countMatches (searchText a) (aiKeywords config))). lra. }
  set (adv := Qmin_js _ 2).
  assert (Hadv : (0 <= adv)%Q).
  { apply Qmin_js_glb; [apply QofNat_nonneg | lra]. }
  destruct (_ || _); lra.
Qed.

Lemma scoreRecency_bounds (now : Z) (a : Article) : (0 <= scoreRecency now a <= 10)%Q.
Proof.
  unfold scoreRecency, tryCatch.
  repeat match goal with
         | |- context [if ?b then _ else _] => destruct b
         end; lra.
Qed.

(** Every sub-score lies in [0, 10]. *)
Lemma scoresOf_bounds (config : SelectionConfig) (now : Z) (a : Article) (key : Factor.t) :
  (0 <= scoresOf config now a key <= 10)%Q.
Proof.
  destruct key; simpl.
  - apply clamp10_bounds.
  - apply scoreContentLength_bounds.
  - apply scoreJapanRelevance_bounds.
  - apply scoreAIRelevance_bounds.
  - apply clamp10_bounds.
  - apply scoreRecency_bounds.
Qed.

(** The [reduce] adds the six products. *)
Lemma weightedTotal_sum (weights scores : Factor.t -> Q) :
  (weightedTotal weights scores ==
     scores Factor.contentQuality * weights Factor.contentQuality
     + scores Factor.contentLength * weights Factor.contentLength
     + scores Factor.japanRelevance * weights Factor.japanRelevance
     + scores Factor.aiRelevance * weights Factor.aiRelevance
     + scores Factor.sourceQuality * weights Factor.sourceQuality
     + scores Factor.recency * weights Factor.recency)%Q.
Proof. unfold weightedTotal, entries, factors. simpl. ring. Qed.

(** With non-negative sub-scores, raising one weight never lowers the total. *)
Lemma weightedTotal_mono (weights scores : Factor.t -> Q) (key : Factor.t) (w : Q) :
  (forall k, 0 <= scores k)%Q ->
  (weights key <= w)%Q ->
  (weightedTotal weights scores
   <= weightedTotal (fun k => if factor_eq_dec k key then w else weights k) scores)%Q.
Proof.
  intros Hpos Hw. rewrite !weightedTotal_sum.
  pose proof (Hpos key) as Hk.
  assert (Hprod : (scores key * weights key <= scores key * w)%Q).
  { rewrite !(Qmult_comm (scores key)). apply Qmult_le_compat_r; assumption. }
  destruct key; simpl in *; lra.
Qed.

(** C7. The final score of every article is the sum over the six factors of
    sub-score times weight; every sub-score lies in [0, 10]; and raising the
    weight of one factor leaves the sub-scores as they are and never lowers
    the final score. *)
Theorem C7_finalScore_weighted_sum_monotone
        (config : SelectionConfig) (now : Z) (a : Article) :
  let scored := scoreArticle config now a in
  (finalScore scored ==
     scores scored Factor.contentQuality * weights config Factor.contentQuality
     + scores scored Factor.contentLength * weights config Factor.contentLength
     + scores scored Factor.japanRelevance * weights config Factor.japanRelevance
     + scores scored Factor.aiRelevance * weights config Factor.aiRelevance
     + scores scored Factor.sourceQuality * weights config Factor.sourceQuality
     + scores scored Factor.recency * weights config Factor.recency)%Q
  /\ (forall key, 0 <= scores scored key <= 10)%Q
  /\ (forall (key : Factor.t) (w : Q),
         (weights config key <= w)%Q ->
         let scored' := scoreArticle (withWeight config key w) now a in
         scores scored' = scores scored
         /\ (finalScore scored <= finalScore scored')%Q).
Proof.
  intros scored. split; [|split].
  - apply weightedTotal_sum.
  - intros key. apply scoresOf_bounds.
  - intros key w Hw scored'. split; [reflexivity|].
    apply (weightedTotal_mono (weights config) (scoresOf config now a) key w).
    + intros k. apply scoresOf_bounds.
    + exact Hw.
Qed.

(** The default weights on a sample article, and the weight of recency
    raised from 2 to 5. *)
Lemma C7_witness :
  let scored := scoreArticle defaultConfig 7200000 (articleWithDate (Some 0%Z)) in
  let scored' :=
    scoreArticle (withWeight defaultConfig Factor.recency 5) 7200000
                 (articleWithDate (Some 0%Z)) in
  scores scored' = scores scored /\ (finalScore scored <= finalScore scored')%Q.
Proof.
  intros scored scored'.
  apply (C7_finalScore_weighted_sum_monotone defaultConfig 7200000
           (articleWithDate (Some 0%Z))).
  vm_compute. discriminate.
Defined.

Example finalScore_sample :
  (finalScore (scoreArticle defaultConfig 7200000 (articleWithDate (Some 0%Z))) == 59)%Q.
Proof. vm_compute. reflexivity. Qed.

(** *** The range of the final score *)

Lemma clamp10_min (floor score : Q) :
  (0 <= floor <= 10)%Q -> (floor <= score)%Q -> (floor <= clamp10 score)%Q.
Proof.
  intros Hfloor Hscore. unfold clamp10.
  pose proof (Qmax_js_ge_r 0 (Qmin_js 10 score)) as Hmax.
  pose proof (Qmin_js_glb floor 10 score) as Hmin. lra.
Qed.

Lemma scoreContentQuality_min (a : Article) : (2 <= scoreContentQuality a)%Q.
Proof.
  unfold scoreContentQuality. apply clamp10_min; [lra|].
  destruct (extractionSuccess a), (contentQuality a) as [level|];
    repeat match goal with
           | |- context [if ?b then _ else _] => destruct b
           end; lra.
Qed.

Lemma scoreSourceQuality_min (config : SelectionConfig) (a : Article) :
  (5 <= scoreSourceQuality config a)%Q.
Proof.
  unfold scoreSourceQuality. apply clamp10_min; [lra|].
  destruct (originalData a) as [data|];
    repeat match goal with
           | |- context [if ?b then _ else _] => destruct b
           end; lra.
Qed.

Lemma scoreRecency_min (now : Z) (a : Article) : (1 <= scoreRecency now a)%Q.
Proof.
  unfold scoreRecency, tryCatch.
  repeat match goal with
         | |- context [if ?b then _ else _] => destruct b
         end; lra.
Qed.

Lemma maxPossibleScore_sum (config : SelectionConfig) :
  (maxPossibleScore config ==
     10 * (weights config Factor.contentQuality + weights config Factor.contentLength
           + weights config Factor.japanRelevance + weights config Factor.aiRelevance
           + weights config Factor.sourceQuality + weights config Factor.recency))%Q.
Proof. unfold maxPossibleScore, factors. simpl. ring. Qed.

Lemma product_bounds (lo score weight : Q) :
  (lo <= score <= 10)%Q -> (0 <= weight)%Q ->
  (lo * weight <= score * weight <= 10 * weight)%Q.
Proof. intros [Hlo Hhi] Hw. split; apply Qmult_le_compat_r; assumption. Qed.

(** The lowest score that the weights allow: content quality is at least
    2, source quality at least 5 and recency at least 1. *)
Lemma finalScore_bounds (config : SelectionConfig) (now : Z) (a : Article) :
  (forall key, 0 <= weights config key)%Q ->
  (2 * weights config Factor.contentQuality + 5 * weights config Factor.sourceQuality
   + 1 * weights config Factor.recency
   <= finalScore (scoreArticle config now a) <= maxPossibleScore config)%Q.
Proof.
  intros Hw. simpl. rewrite weightedTotal_sum, maxPossibleScore_sum.
  pose proof (scoresOf_bounds config now a) as Hb.
  pose proof (product_bounds 2 _ _ (conj (scoreContentQuality_min a)
                (proj2 (Hb Factor.contentQuality))) (Hw Factor.contentQuality)) as H1.
  pose proof (product_bounds 0 _ _ (Hb Factor.contentLength) (Hw Factor.contentLength)) as H2.
  pose proof (product_bounds 0 _ _ (Hb Factor.japanRelevance) (Hw Factor.japanRelevance))
    as H3.
  pose proof (product_bounds 0 _ _ (Hb Factor.aiRelevance) (Hw Factor.aiRelevance)) as H4.
  pose proof (product_bounds 5 _ _ (conj (scoreSourceQuality_min config a)
                (proj2 (Hb Factor.sourceQuality))) (Hw Factor.sourceQuality)) as H5.
  pose proof (product_bounds 1 _ _ (conj (scoreRecency_min now a)
                (proj2 (Hb Factor.recency))) (Hw Factor.recency)) as H6.
  simpl in *. lra.
Qed.

(** X16. With weights that are whole numbers from 0 to 2^40, as the
    defaults are, the final score of every article lies between 2 x the
    weight of content quality + 5 x the weight of source quality + the
    weight of recency, and [maxPossibleScore], 10 x the sum of the weights.
    When [minScore] is not above that lower bound, as with the defaults (18
    against 5), [filterByMinimumScore] removes no article. The sub-scores
    are multiples of 1/2 from 0 to 10, so with such weights every product
    and every partial sum is a multiple of 1/2 below 2^46, which binary64
    arithmetic computes without rounding: the exact sum is the source's. *)
Theorem finalScore_range (config : SelectionConfig) (now : Z) (articles : list Article) :
  (forall key, exists n : Z,
      (0 <= n <= 2 ^ 40)%Z /\ (weights config key == inject_Z n)%Q) ->
  let floor := (2 * weights config Factor.contentQuality
                + 5 * weights config Factor.sourceQuality
                + 1 * weights config Factor.recency)%Q in
  Forall (fun scored => (floor <= finalScore scored <= maxPossibleScore config)%Q)
         (scoreArticles config now articles)
  /\ ((minScore config <= floor)%Q ->
      filterByMinimumScore config (scoreArticles config now articles)
      = scoreArticles config now articles).
Proof.
  intros Hwhole floor.
  assert (Hw : (forall key, 0 <= weights config key)%Q).
  { intros key. destruct (Hwhole key) as (n & [Hn _] & ->).
    change 0%Q with (inject_Z 0). rewrite <- Zle_Qle. exact Hn. }
  assert (Hall : Forall (fun scored =>
                           (floor <= finalScore scored <= maxPossibleScore config)%Q)
                        (scoreArticles config now articles)).
  { unfold scoreArticles. apply List.Forall_forall. intros scored Hin.
    apply in_map_iff in Hin as (a & <- & _). apply finalScore_bounds, Hw. }
  split; [exact Hall|].
  intros Hmin. unfold filterByMinimumScore.
  induction Hall as [|scored l [Hlo _] _ IH]; [reflexivity|].
  simpl. destruct (Qle_bool_spec (minScore config) (finalScore scored)) as [_|Hno].
  - f_equal. exact IH.
  - exfalso. apply Hno. lra.
Qed.

(** The default weights, 3 and five times 2, on four articles. *)
Lemma finalScore_range_witness :
  (forall key, exists n : Z,
      (0 <= n <= 2 ^ 40)%Z /\ (weights defaultConfig key == inject_Z n)%Q)
  /\ (minScore defaultConfig <= 18)%Q
  /\ filterByMinimumScore defaultConfig (scoreArticles defaultConfig 7200000 fourFromOneSource)
     = scoreArticles defaultConfig 7200000 fourFromOneSource.
Proof.
  assert (Hw : forall key, exists n : Z,
               (0 <= n <= 2 ^ 40)%Z /\ (weights defaultConfig key == inject_Z n)%Q).
  { intros key. destruct key; [exists 3%Z | exists 2%Z ..];
      (split; [lia | reflexivity]). }
  split; [exact Hw|]. split; [simpl; lra|].
  apply (finalScore_range defaultConfig 7200000 fourFromOneSource Hw).
  simpl. lra.
Defined.

(** *** More keywords *)

Lemma countMatches_app (text : string) (keywords more : list string) :
  countMatches text (keywords ++ more)
  = (countMatches text keywords + countMatches text more)%nat.
Proof. unfold countMatches. rewrite List.filter_app, length_app. reflexivity. Qed.

Lemma Qmin_js_mono_l (a b c : Q) : (a <= b)%Q -> (Qmin_js a c <= Qmin_js b c)%Q.
Proof.
  intros H. unfold Qmin_js.
  destruct (Qle_bool_spec a c), (Qle_bool_spec b c); lra.
Qed.

Lemma Qmin_js_mono_r (a b c : Q) : (a <= b)%Q -> (Qmin_js c a <= Qmin_js c b)%Q.
Proof.
  intros H. unfold Qmin_js.
  destruct (Qle_bool_spec c a), (Qle_bool_spec c b); lra.
Qed.

Lemma matches_more (text : string) (keywords more : list string) (points : Q) :
  (0 <= points)%Q ->
  (QofNat (countMatches text keywords) * points
   <= QofNat (countMatches text (keywords ++ more)) * points)%Q.
Proof.
  intros Hp. apply Qmult_le_compat_r; [|exact Hp].
  apply QofNat_le. rewrite countMatches_app. lia.
Qed.

Lemma scoreJapanRelevance_more (config : SelectionConfig) (a : Article)
      (moreJapan ai : list string) :
  (scoreJapanRelevance config a
   <= scoreJapanRelevance (withKeywords config (japanKeywords config ++ moreJapan) ai) a)%Q.
Proof.
  unfold scoreJapanRelevance. simpl.
  pose proof (Qmin_js_mono_l _ _ 8
                (matches_more (searchText a) (japanKeywords config) moreJapan 2
                              ltac:(lra))) as Hbase.
  apply Qmin_js_mono_r.
  destruct (includes (searchText a) "tokyo"),
           (includes (searchText a) "japanese company" || includes (searchText a) "japan-based"),
           (truthy (source a) && includes (toLowerCase (source a)) "japan"); lra.
Qed.

Lemma scoreAIRelevance_more (config : SelectionConfig) (a : Article)
      (japan moreAI : list string) :
  (scoreAIRelevance config a
   <= scoreAIRelevance (withKeywords config japan (aiKeywords config ++ moreAI)) a)%Q.
Proof.
  unfold scoreAIRelevance. simpl.
  pose proof (Qmin_js_mono_l _ _ 7
                (matches_more (searchText a) (aiKeywords config) moreAI (3 # 2)
                              ltac:(lra))) as Hbase.
  apply Qmin_js_mono_r.
  destruct (includes (searchText a) "research" || includes (searchText a) "development"
            || includes (searchText a) "breakthrough"); lra.
Qed.

Lemma weightedTotal_scores_mono (weights scores scores' : Factor.t -> Q) :
  (forall key, 0 <= weights key)%Q ->
  (forall key, scores key <= scores' key)%Q ->
  (weightedTotal weights scores <= weightedTotal weights scores')%Q.
Proof.
  intros Hw Hs. rewrite !weightedTotal_sum.
  assert (Hprod : forall key, (scores key * weights key <= scores' key * weights key)%Q).
  { intros key. apply Qmult_le_compat_r; auto. }
  pose proof (Hprod Factor.contentQuality). pose proof (Hprod Factor.contentLength).
  pose proof (Hprod Factor.japanRelevance). pose proof (Hprod Factor.aiRelevance).
  pose proof (Hprod Factor.sourceQuality). pose proof (Hprod Factor.recency).
  lra.
Qed.

(** X25. Keywords added to the configuration never lower a score: with
    more Japan keywords and more AI keywords, the Japan relevance and the AI
    relevance of every article are at least what they were, the other four
    sub-scores are the same, and with non-negative weights the final score
    is at least what it was. *)
Theorem more_keywords_never_lower_a_score
        (config : SelectionConfig) (now : Z) (a : Article) (moreJapan moreAI : list string) :
  let config' := withKeywords config (japanKeywords config ++ moreJapan)
                              (aiKeywords config ++ moreAI) in
  (forall key, scores (scoreArticle config now a) key
               <= scores (scoreArticle config' now a) key)%Q
  /\ (forall key, key <> Factor.japanRelevance -> key <> Factor.aiRelevance ->
                  scores (scoreArticle config' now a) key
                  = scores (scoreArticle config now a) key)
  /\ ((forall key, 0 <= weights config key)%Q ->
      (finalScore (scoreArticle config now a)
       <= finalScore (scoreArticle config' now a))%Q).
Proof.
  intros config'.
  assert (Hscores : forall key, (scoresOf config now a key <= scoresOf config' now a key)%Q).
  { intros key. unfold scoresOf.
    destruct key; try apply Qle_refl;
      [apply scoreJapanRelevance_more | apply scoreAIRelevance_more]. }
  split; [exact Hscores|]. split.
  - intros key Hj Ha. destruct key; try reflexivity; contradiction.
  - intros Hw. simpl. apply weightedTotal_scores_mono; assumption.
Qed.

Lemma more_keywords_never_lower_a_score_witness :
  let config' := withKeywords defaultConfig (japanKeywords defaultConfig ++ ["lab"])
                              (aiKeywords defaultConfig ++ ["research"]) in
  (finalScore (scoreArticle defaultConfig 7200000 (articleWithDate (Some 0%Z)))
   <= finalScore (scoreArticle config' 7200000 (articleWithDate (Some 0%Z))))%Q.
Proof.
  intros config'.
  destruct (more_keywords_never_lower_a_score defaultConfig 7200000
              (articleWithDate (Some 0%Z)) ["lab"] ["research"]) as (_ & _ & Hfinal).
  apply Hfinal. intros key. destruct key; simpl; lra.
Defined.

End ScorerFacts.

(** ** Sorting and slicing *)

Section SortFacts.
Context {A : Type}.
Variable before : A -> A -> bool.
Variable p : A -> bool.

Lemma insertBy_filter_length (x : A) (l : list A) :
  length (List.filter p (insertBy before x l)) = length (List.filter p (x :: l)).
Proof.
  induction l as [|y l IH]; [reflexivity|].
  simpl. destruct (before x y); [reflexivity|].
  simpl in *. destruct (p y), (p x); simpl in *; lia.
Qed.

Lemma sortBy_filter_length (l : list A) :
  length (List.filter p (sortBy before l)) = length (List.filter p l).
Proof.
  induction l as [|x l IH]; [reflexivity|].
  change (sortBy before (x :: l)) with (insertBy before x (sortBy before l)).
  rewrite insertBy_filter_length. simpl. destruct (p x); simpl; lia.
Qed.

Lemma take_filter_length (n : nat) (l : list A) :
  (length (List.filter p (take n l)) <= length (List.filter p l))%nat.
Proof.
  revert n. induction l as [|x l IH]; intros [|n]; simpl; try lia.
  specialize (IH n). destruct (p x); simpl; lia.
Qed.

Lemma sliceTo_filter_length (n : Z) (l : list A) :
  (length (List.filter p (sliceTo n l)) <= length (List.filter p l))%nat.
Proof. apply take_filter_length. Qed.

Lemma sliceTo_length (n : Z) (l : list A) :
  (0 <= n)%Z -> (Z.of_nat (length (sliceTo n l)) <= n)%Z.
Proof.
  intros Hn. unfold sliceTo. rewrite length_take.
  destruct (Z.ltb_spec n 0); lia.
Qed.

Lemma sortBy_length (l : list A) : length (sortBy before l) = length l.
Proof.
  induction l as [|x l IH]; [reflexivity|].
  change (sortBy before (x :: l)) with (insertBy before x (sortBy before l)).
  assert (Hins : forall y k, length (insertBy before y k) = S (length k)).
  { intros y k. induction k as [|z k IHk]; [reflexivity|].
    simpl. destruct (before y z); simpl; lia. }
  rewrite Hins, IH. reflexivity.
Qed.

End SortFacts.

(** Sorting keeps a symmetric relation that holds on all pairs. *)

Section SortPairs.
Context {A : Type}.
Variable before : A -> A -> bool.
Variable R : A -> A -> Prop.
Hypothesis R_swap : forall x y, R x y -> R y x.

Lemma Forall_insertBy (P : A -> Prop) (x : A) (l : list A) :
  P x -> Forall P l -> Forall P (insertBy before x l).
Proof.
  intros Hx Hl. induction Hl as [|y l Hy Hl IH]; simpl.
  - constructor; [exact Hx | constructor].
  - destruct (before x y).
    + constructor; [exact Hx|]. constructor; assumption.
    + constructor; assumption.
Qed.

Lemma Forall_sortBy (P : A -> Prop) (l : list A) :
  Forall P l -> Forall P (sortBy before l).
Proof.
  induction 1 as [|x l Hx Hl IH]; [constructor|].
  change (sortBy before (x :: l)) with (insertBy before x (sortBy before l)).
  apply Forall_insertBy; assumption.
Qed.

Lemma FOP_insertBy (x : A) (l : list A) :
  Forall (R x) l -> ForallOrdPairs R l -> ForallOrdPairs R (insertBy before x l).
Proof.
  intros Hx Hl. revert Hx. induction Hl as [|y l Hy Hl IH]; intros Hx; simpl.
  - constructor; constructor.
  - inversion Hx as [|? ? Hxy Hxl]; subst.
    destruct (before x y).
    + constructor; [exact Hx|]. constructor; assumption.
    + constructor.
      * apply Forall_insertBy; [apply R_swap, Hxy | exact Hy].
      * apply IH, Hxl.
Qed.

Lemma FOP_sortBy (l : list A) :
  ForallOrdPairs R l -> ForallOrdPairs R (sortBy before l).
Proof.
  induction 1 as [|x l Hx Hl IH]; [constructor|].
  change (sortBy before (x :: l)) with (insertBy before x (sortBy before l)).
  apply FOP_insertBy; [apply Forall_sortBy, Hx | exact IH].
Qed.

Lemma FOP_take (n : nat) (l : list A) :
  ForallOrdPairs R l -> ForallOrdPairs R (take n l).
Proof.
  intros Hl. revert n. induction Hl as [|x l Hx Hl IH]; intros [|n]; simpl;
    try constructor.
  - apply Forall_take, Hx.
  - apply IH.
Qed.

End SortPairs.

(** Sorting by insertion yields a list whose neighbours are in order, and
    leaves such a list as it is. *)

Section SortOrder.
Context {A : Type}.
Variable before : A -> A -> bool.

Lemma sortBy_inOrder_fixed (l : list A) : inOrder before l -> sortBy before l = l.
Proof.
  induction 1 as [|x l Hl IH Hx]; [reflexivity|].
  change (sortBy before (x :: l)) with (insertBy before x (sortBy before l)).
  rewrite IH. destruct Hx as [|y l Hxy]; simpl; [reflexivity|].
  rewrite Hxy. reflexivity.
Qed.

Lemma inOrder_take (n : nat) (l : list A) : inOrder before l -> inOrder before (take n l).
Proof.
  intros Hl. revert n. induction Hl as [|x l Hl IH Hx]; intros [|n]; simpl;
    try constructor.
  - apply IH.
  - destruct Hx as [|y l Hxy]; destruct n; simpl; constructor. exact Hxy.
Qed.

Lemma inOrder_imap (f : nat -> A -> A) (l : list A) :
  (forall i j x y, before (f i x) (f j y) = before x y) ->
  inOrder before l -> inOrder before (imap f l).
Proof.
  intros Hf Hl. revert f Hf. induction Hl as [|x l Hl IH Hx]; intros f Hf; simpl.
  - constructor.
  - constructor.
    + apply IH. intros i j a b. apply Hf.
    + destruct Hx as [|y l Hxy]; simpl; constructor. rewrite Hf. exact Hxy.
Qed.

Hypothesis before_total : forall x y, before x y = false -> before y x = true.

Lemma insertBy_inOrder (x : A) (l : list A) : inOrder before l -> inOrder before (insertBy before x l).
Proof.
  induction 1 as [|y l Hl IH Hy]; simpl.
  - constructor; constructor.
  - destruct (before x y) eqn:Hxy.
    + constructor; [constructor; assumption | constructor; exact Hxy].
    + constructor; [exact IH|].
      destruct Hy as [|z l Hyz]; simpl.
      * constructor. apply before_total, Hxy.
      * destruct (before x z); constructor; [apply before_total, Hxy | exact Hyz].
Qed.

Lemma sortBy_inOrder (l : list A) : inOrder before (sortBy before l).
Proof.
  induction l as [|x l IH]; [constructor|].
  change (sortBy before (x :: l)) with (insertBy before x (sortBy before l)).
  apply insertBy_inOrder, IH.
Qed.

End SortOrder.

(** The sort rearranges its input, and it is stable: elements that the
    comparator does not tell apart keep their order. *)

Section SortStable.
Context {A : Type}.
Variable before : A -> A -> bool.

Lemma insertBy_Permutation (x : A) (l : list A) : insertBy before x l ≡ₚ x :: l.
Proof.
  induction l as [|y l IH]; simpl; [reflexivity|].
  destruct (before x y); [reflexivity|].
  rewrite IH. apply Permutation_swap.
Qed.

Lemma sortBy_Permutation (l : list A) : sortBy before l ≡ₚ l.
Proof.
  induction l as [|x l IH]; [reflexivity|].
  change (sortBy before (x :: l)) with (insertBy before x (sortBy before l)).
  rewrite insertBy_Permutation, IH. reflexivity.
Qed.

Variable p : A -> bool.
Hypothesis before_same : forall x y, p x = true -> p y = true -> before x y = true.

Lemma insertBy_filter (x : A) (l : list A) :
  List.filter p (insertBy before x l) = List.filter p (x :: l).
Proof.
  induction l as [|y l IH]; [reflexivity|].
  simpl. destruct (before x y) eqn:Hxy; [reflexivity|].
  simpl in *. rewrite IH.
  destruct (p y) eqn:Hy, (p x) eqn:Hx; try reflexivity.
  rewrite (before_same x y Hx Hy) in Hxy. discriminate Hxy.
Qed.

Lemma sortBy_filter (l : list A) :
  List.filter p (sortBy before l) = List.filter p l.
Proof.
  induction l as [|x l IH]; [reflexivity|].
  change (sortBy before (x :: l)) with (insertBy before x (sortBy before l)).
  rewrite insertBy_filter. simpl. rewrite IH. reflexivity.
Qed.

End SortStable.

(** Where the comparator is transitive, neighbours in order put every pair
    in order. *)

Section SortStrong.
Context {A : Type}.
Variable before : A -> A -> bool.
Variable P : A -> Prop.
Hypothesis before_trans :
  forall x y z, P x -> P y -> P z ->
                before x y = true -> before y z = true -> before x z = true.

Lemma inOrder_StronglySorted (l : list A) :
  Forall P l -> inOrder before l -> StronglySorted (fun x y => before x y = true) l.
Proof.
  intros HP Hl. induction Hl as [|x l Hl IH Hx]; [constructor|].
  inversion HP as [|? ? HPx HPl]; subst.
  specialize (IH HPl). constructor; [exact IH|].
  destruct Hx as [|y l Hxy]; [constructor|].
  inversion IH as [|? ? _ Hy]; subst.
  inversion HPl as [|? ? HPy HPl']; subst.
  constructor; [exact Hxy|].
  rewrite List.Forall_forall in Hy, HPl' |- *. intros z Hz.
  apply (before_trans x y z); auto.
Qed.

End SortStrong.

Lemma StronglySorted_take {A : Type} (R : A -> A -> Prop) (n : nat) (l : list A) :
  StronglySorted R l -> StronglySorted R (take n l).
Proof.
  intros Hl. revert n. induction Hl as [|x l Hl IH Hx]; intros [|n]; simpl;
    try constructor.
  - apply IH.
  - apply Forall_take, Hx.
Qed.

Lemma StronglySorted_impl {A : Type} (R S : A -> A -> Prop) (l : list A) :
  (forall x y, In x l -> In y l -> R x y -> S x y) ->
  StronglySorted R l -> StronglySorted S l.
Proof.
  intros HRS Hl. induction Hl as [|x l Hl IH Hx]; [constructor|].
  constructor.
  - apply IH. intros a b Ha Hb. apply HRS; right; assumption.
  - rewrite List.Forall_forall in Hx |- *. intros y Hy.
    apply HRS; [left; reflexivity | right; exact Hy | apply Hx, Hy].
Qed.

(** ** Diversity selector *)

Section SelectorFacts.
Import Selection.

Lemma countOf_insert (counts : gmap string nat) (key key' : string) (n : nat) :
  countOf (<[key := n]> counts) key' = if String.eqb key key' then n else countOf counts key'.
Proof.
  unfold countOf. destruct (String.eqb_spec key key') as [->|Hne].
  - rewrite lookup_insert_eq. reflexivity.
  - rewrite lookup_insert_ne by assumption. reflexivity.
Qed.

Lemma countBySource_snoc (key : string) (l : list ScoredArticle) (a : ScoredArticle) :
  countBySource key (l ++ [a])
  = (countBySource key l + if String.eqb (sourceKey a) key then 1 else 0)%nat.
Proof.
  unfold countBySource. rewrite List.filter_app, length_app. simpl.
  destruct (String.eqb (sourceKey a) key); reflexivity.
Qed.

Lemma countByCategory_snoc (key : string) (l : list ScoredArticle) (a : ScoredArticle) :
  countByCategory key (l ++ [a])
  = (countByCategory key l + if String.eqb (categoryKey a) key then 1 else 0)%nat.
Proof.
  unfold countByCategory. rewrite List.filter_app, length_app. simpl.
  destruct (String.eqb (categoryKey a) key); reflexivity.
Qed.

Lemma diversityInv_initial (settings : DiversitySettings) :
  (0 <= maxSameSource settings)%Z ->
  (0 <= maxSameCategory settings)%Z ->
  diversityInv settings {| diverseArticles := []; sourceCounts := ∅; categoryCounts := ∅ |}.
Proof.
  intros Hs Hc. split; intros key; simpl; unfold countOf;
    rewrite ?lookup_empty; simpl; try reflexivity; assumption.
Qed.

Lemma diversityInv_step (settings : DiversitySettings) (st : DiversityState)
      (a : ScoredArticle) :
  diversityInv settings st -> diversityInv settings (diversityStep settings st a).
Proof.
  intros [Hsrc Hcat Hscap Hccap]. unfold diversityStep, underCap.
  destruct (countableKey (sourceKey a)); simpl; [|split; assumption].
  destruct (Z.ltb_spec (Z.of_nat (countOf (sourceCounts st) (sourceKey a)))
                       (maxSameSource settings)) as [Hs|Hs]; simpl;
    [|split; assumption].
  destruct (countableKey (categoryKey a)); simpl; [|split; assumption].
  destruct (Z.ltb_spec (Z.of_nat (countOf (categoryCounts st) (categoryKey a)))
                       (maxSameCategory settings)) as [Hc|Hc]; simpl;
    [|split; assumption].
  split; intros key; simpl.
  - rewrite countBySource_snoc, countOf_insert, Hsrc.
    destruct (String.eqb_spec (sourceKey a) key) as [<-|]; lia.
  - rewrite countByCategory_snoc, countOf_insert, Hcat.
    destruct (String.eqb_spec (categoryKey a) key) as [<-|]; lia.
  - rewrite countOf_insert.
    destruct (String.eqb_spec (sourceKey a) key) as [<-|]; [lia | apply Hscap].
  - rewrite countOf_insert.
    destruct (String.eqb_spec (categoryKey a) key) as [<-|]; [lia | apply Hccap].
Qed.

Lemma diversityInv_fold (settings : DiversitySettings) (l : list ScoredArticle)
      (st : DiversityState) :
  diversityInv settings st ->
  diversityInv settings (fold_left (diversityStep settings) l st).
Proof.
  revert st. induction l as [|a l IH]; intros st Hst; simpl; [assumption|].
  apply IH, diversityInv_step, Hst.
Qed.

(** With diversity preferred and non-negative caps, the walk admits at most
    [maxSameSource] articles of a source and [maxSameCategory] of a category. *)
Lemma ensureArticleDiversity_caps (config : SelectionConfig) (articles : list ScoredArticle) :
  preferDiverseSources (diversitySettings config) = true ->
  (0 <= maxSameSource (diversitySettings config))%Z ->
  (0 <= maxSameCategory (diversitySettings config))%Z ->
  (forall key, (Z.of_nat (countBySource key (ensureArticleDiversity config articles))
                <= maxSameSource (diversitySettings config))%Z)
  /\ (forall key, (Z.of_nat (countByCategory key (ensureArticleDiversity config articles))
                   <= maxSameCategory (diversitySettings config))%Z).
Proof.
  intros Hpref Hs Hc. unfold ensureArticleDiversity. rewrite Hpref. simpl.
  pose proof (diversityInv_fold (diversitySettings config)
                (sortBy higherOrSame articles) _
                (diversityInv_initial _ Hs Hc)) as [Hsrc Hcat Hscap Hccap].
  split; intros key.
  - rewrite Hsrc. apply Hscap.
  - rewrite Hcat. apply Hccap.
Qed.

Lemma topArticles_countBySource (config : SelectionConfig) (key : string)
      (l : list ScoredArticle) :
  (countBySource key (topArticles config l) <= countBySource key l)%nat.
Proof.
  unfold topArticles, countBySource.
  etransitivity; [apply sliceTo_filter_length|].
  rewrite sortBy_filter_length. reflexivity.
Qed.

Lemma topArticles_countByCategory (config : SelectionConfig) (key : string)
      (l : list ScoredArticle) :
  (countByCategory key (topArticles config l) <= countByCategory key l)%nat.
Proof.
  unfold topArticles, countByCategory.
  etransitivity; [apply sliceTo_filter_length|].
  rewrite sortBy_filter_length. reflexivity.
Qed.

(** C4 (as amended). For every list of scored articles and every
    configuration with non-negative caps, the selection holds at most
    [maxArticles] articles; and when [preferDiverseSources] is set it holds
    at most [maxSameSource] articles of any one source and at most
    [maxSameCategory] of any one category. *)
Theorem C4_selection_respects_caps
        (config : SelectionConfig) (qualified : list ScoredArticle) :
  (0 <= maxSameSource (diversitySettings config))%Z ->
  (0 <= maxSameCategory (diversitySettings config))%Z ->
  (0 <= maxArticles config)%Z ->
  let selected := topArticles config (ensureArticleDiversity config qualified) in
  (Z.of_nat (length selected) <= maxArticles config)%Z
  /\ (preferDiverseSources (diversitySettings config) = true ->
      (forall key, (Z.of_nat (countBySource key selected)
                    <= maxSameSource (diversitySettings config))%Z)
      /\ (forall key, (Z.of_nat (countByCategory key selected)
                       <= maxSameCategory (diversitySettings config))%Z)).
Proof.
  intros Hs Hc Hmax selected. split.
  - apply sliceTo_length, Hmax.
  - intros Hpref.
    destruct (ensureArticleDiversity_caps config qualified Hpref Hs Hc) as [Hsrc Hcat].
    split; intros key.
    + pose proof (topArticles_countBySource config key
                    (ensureArticleDiversity config qualified)).
      specialize (Hsrc key). unfold selected. lia.
    + pose proof (topArticles_countByCategory config key
                    (ensureArticleDiversity config qualified)).
      specialize (Hcat key). unfold selected. lia.
Qed.

(** The default configuration on four qualifying articles of one source:
    three are selected. *)
Lemma C4_witness :
  let qualified :=
    filterByMinimumScore defaultConfig (scoreArticles defaultConfig 7200000 fourFromOneSource) in
  let selected := topArticles defaultConfig (ensureArticleDiversity defaultConfig qualified) in
  (Z.of_nat (length selected) <= 10)%Z
  /\ (true = true ->
      (forall key, (Z.of_nat (countBySource key selected) <= 3)%Z)
      /\ (forall key, (Z.of_nat (countByCategory key selected) <= 4)%Z)).
Proof.
  intros qualified selected.
  apply (C4_selection_respects_caps defaultConfig qualified); simpl; lia.
Defined.

Example default_selects_three :
  length (selectBestArticles defaultConfig 7200000 fourFromOneSource) = 3%nat.
Proof. vm_compute. reflexivity. Qed.

(** C4 (counterexample). With [PREFER_DIVERSE_SOURCES='false'] and every
    other setting at its default, four qualifying articles of one source are
    all selected, although [maxSameSource] is 3. *)
Lemma C4_counterexample :
  let qualified :=
    filterByMinimumScore noDiversityConfig
                         (scoreArticles noDiversityConfig 7200000 fourFromOneSource) in
  let selected :=
    topArticles noDiversityConfig (ensureArticleDiversity noDiversityConfig qualified) in
  maxSameSource (diversitySettings noDiversityConfig) = 3%Z
  /\ countBySource "Nikkei" selected = 4%nat.
Proof. vm_compute. split; reflexivity. Qed.

(** C10. The flag [preferDiverseSources] is false exactly when the variable
    [PREFER_DIVERSE_SOURCES] is the text [false]. With the flag false the
    diversity step returns its input as it is, and the selection is the
    qualified articles, sorted by final score and cut to [maxArticles]:
    neither cap plays a part. *)
Theorem C10_diversity_disabled_returns_input
        (config : SelectionConfig) (now : Z)
        (articles : list ScoredArticle) (allArticles : list Article) :
  preferDiverseSources (diversitySettings config) = false ->
  (forall value, loadPreferDiverseSources value = false <-> value = Some "false")
  /\ ensureArticleDiversity config articles = articles
  /\ selectBestArticles config now allArticles
     = sliceTo (maxArticles config)
               (sortBy higherOrSame
                       (filterByMinimumScore config (scoreArticles config now allArticles))).
Proof.
  intros Hpref.
  assert (Hid : forall l, ensureArticleDiversity config l = l).
  { intros l. unfold ensureArticleDiversity. rewrite Hpref. reflexivity. }
  split; [|split; [apply Hid|]].
  - intros [value|]; simpl; [|split; discriminate].
    destruct (String.eqb_spec value "false") as [->|Hne]; simpl; split;
      congruence.
  - unfold selectBestArticles, topArticles. rewrite Hid.
    destruct allArticles as [|a rest]; [|reflexivity].
    unfold sliceTo. simpl. rewrite take_nil. reflexivity.
Qed.

(** The defaults with the variable set to [false], on four qualifying
    articles of one source: all four are selected. *)
Lemma C10_witness :
  (forall value, loadPreferDiverseSources value = false <-> value = Some "false")
  /\ ensureArticleDiversity noDiversityConfig
       (scoreArticles noDiversityConfig 7200000 fourFromOneSource)
     = scoreArticles noDiversityConfig 7200000 fourFromOneSource
  /\ selectBestArticles noDiversityConfig 7200000 fourFromOneSource
     = sliceTo (maxArticles noDiversityConfig)
               (sortBy higherOrSame
                       (filterByMinimumScore noDiversityConfig
                          (scoreArticles noDiversityConfig 7200000 fourFromOneSource))).
Proof.
  apply (C10_diversity_disabled_returns_input noDiversityConfig 7200000
           (scoreArticles noDiversityConfig 7200000 fourFromOneSource) fourFromOneSource).
  reflexivity.
Defined.

Example no_diversity_selects_four :
  length (selectBestArticles noDiversityConfig 7200000 fourFromOneSource) = 4%nat.
Proof. vm_compute. reflexivity. Qed.

(** *** The order of the selection and where it comes from *)

(** The test of one iteration: both counts are under their caps. *)
Lemma diversityStep_articles (settings : DiversitySettings) (st : DiversityState)
      (a : ScoredArticle) :
  diverseArticles (diversityStep settings st a)
  = diverseArticles st
    ++ (if underCap (sourceCounts st) (sourceKey a) (maxSameSource settings)
           && underCap (categoryCounts st) (categoryKey a) (maxSameCategory settings)
        then [a] else []).
Proof.
  unfold diversityStep. destruct (_ && _); simpl; [reflexivity|].
  symmetry. apply app_nil_r.
Qed.

Lemma diversity_fold_sublist (settings : DiversitySettings) (l : list ScoredArticle)
      (st : DiversityState) :
  exists added,
    diverseArticles (fold_left (diversityStep settings) l st) = diverseArticles st ++ added
    /\ sublist added l.
Proof.
  revert st. induction l as [|a l IH]; intros st; simpl.
  - exists []. split; [symmetry; apply app_nil_r | constructor].
  - destruct (IH (diversityStep settings st a)) as (added & Heq & Hsub).
    rewrite diversityStep_articles, <- app_assoc in Heq.
    eexists. split; [exact Heq|].
    destruct (_ && _); simpl; [apply sublist_skip | apply sublist_cons]; exact Hsub.
Qed.

(** With diversity preferred, the walk leaves articles out of the sorted
    list and does nothing else. *)
Lemma ensureArticleDiversity_sublist (config : SelectionConfig) (l : list ScoredArticle) :
  preferDiverseSources (diversitySettings config) = true ->
  sublist (ensureArticleDiversity config l) (sortBy higherOrSame l).
Proof.
  intros Hpref. unfold ensureArticleDiversity. rewrite Hpref. simpl.
  destruct (diversity_fold_sublist (diversitySettings config) (sortBy higherOrSame l)
              {| diverseArticles := []; sourceCounts := ∅; categoryCounts := ∅ |})
    as (added & -> & Hsub).
  exact Hsub.
Qed.

Lemma ensureArticleDiversity_submseteq (config : SelectionConfig) (l : list ScoredArticle) :
  ensureArticleDiversity config l ⊆+ l.
Proof.
  destruct (preferDiverseSources (diversitySettings config)) eqn:Hpref.
  - etransitivity; [apply sublist_submseteq, ensureArticleDiversity_sublist, Hpref|].
    apply Permutation_submseteq, sortBy_Permutation.
  - unfold ensureArticleDiversity. rewrite Hpref. reflexivity.
Qed.

Lemma higherOrSame_total (x y : ScoredArticle) :
  higherOrSame x y = false -> higherOrSame y x = true.
Proof.
  unfold higherOrSame. intros H. apply Qle_bool_iff.
  destruct (Qle_bool_spec (finalScore y) (finalScore x)); [discriminate|]. lra.
Qed.

Lemma higherOrSame_trans (x y z : ScoredArticle) :
  True -> True -> True ->
  higherOrSame x y = true -> higherOrSame y z = true -> higherOrSame x z = true.
Proof.
  unfold higherOrSame. intros _ _ _ Hxy Hyz.
  apply Qle_bool_iff in Hxy, Hyz. apply Qle_bool_iff. lra.
Qed.

Lemma sorted_by_score (l : list ScoredArticle) :
  StronglySorted (fun a b => higherOrSame a b = true) (sortBy higherOrSame l).
Proof.
  apply (inOrder_StronglySorted higherOrSame (fun _ => True)).
  - exact higherOrSame_trans.
  - apply List.Forall_forall. auto.
  - apply sortBy_inOrder, higherOrSame_total.
Qed.

Lemma filterByMinimumScore_submseteq (config : SelectionConfig) (l : list ScoredArticle) :
  filterByMinimumScore config l ⊆+ l.
Proof.
  unfold filterByMinimumScore. induction l as [|a l IH]; simpl; [reflexivity|].
  destruct (Qle_bool _ _).
  - apply submseteq_skip, IH.
  - apply submseteq_cons, IH.
Qed.

Lemma selectBestArticles_unfold (config : SelectionConfig) (now : Z)
      (allArticles : list Article) :
  selectBestArticles config now allArticles
  = topArticles config
      (ensureArticleDiversity config
         (filterByMinimumScore config (scoreArticles config now allArticles))).
Proof.
  destruct allArticles as [|a rest]; [|reflexivity].
  unfold topArticles, ensureArticleDiversity, sliceTo. simpl.
  destruct (negb _); simpl; rewrite take_nil; reflexivity.
Qed.

Lemma selectBestArticles_qualified (config : SelectionConfig) (now : Z)
      (allArticles : list Article) :
  selectBestArticles config now allArticles
  ⊆+ filterByMinimumScore config (scoreArticles config now allArticles).
Proof.
  rewrite selectBestArticles_unfold. unfold topArticles, sliceTo.
  etransitivity; [apply submseteq_take|].
  etransitivity; [apply Permutation_submseteq, sortBy_Permutation|].
  apply ensureArticleDiversity_submseteq.
Qed.

(** X17. The selection, for every configuration and input: it is in the
    order of the final scores, the highest first; every selected article
    is an input article with its scores, and its final score is at least
    [minScore]; no input article is selected twice, and the selection is no
    longer than the input. *)
Theorem selectBestArticles_ordered_and_qualified
        (config : SelectionConfig) (now : Z) (allArticles : list Article) :
  let selected := selectBestArticles config now allArticles in
  StronglySorted (fun a b => (finalScore b <= finalScore a)%Q) selected
  /\ Forall (fun scored =>
               (minScore config <= finalScore scored)%Q
               /\ exists a, In a allArticles /\ scored = scoreArticle config now a) selected
  /\ selected ⊆+ scoreArticles config now allArticles
  /\ (length selected <= length allArticles)%nat.
Proof.
  intros selected.
  pose proof (selectBestArticles_qualified config now allArticles) as Hq.
  fold selected in Hq.
  assert (Hs : selected ⊆+ scoreArticles config now allArticles).
  { etransitivity; [exact Hq | apply filterByMinimumScore_submseteq]. }
  split; [|split; [|split]].
  - unfold selected. rewrite selectBestArticles_unfold. unfold topArticles, sliceTo.
    apply StronglySorted_take.
    apply (StronglySorted_impl (fun a b => higherOrSame a b = true));
      [|apply sorted_by_score].
    intros x y _ _ H. apply Qle_bool_iff, H.
  - apply List.Forall_forall. intros scored Hin. apply list_elem_of_In in Hin.
    pose proof (elem_of_submseteq _ _ _ Hin Hq) as Hin'.
    apply list_elem_of_In in Hin'. unfold filterByMinimumScore in Hin'.
    apply List.filter_In in Hin' as [Hscored Hmin]. split.
    + apply Qle_bool_iff, Hmin.
    + unfold scoreArticles in Hscored. apply in_map_iff in Hscored as (a & <- & Ha).
      exists a. auto.
  - exact Hs.
  - apply submseteq_length in Hs. unfold scoreArticles in Hs.
    rewrite length_map in Hs. exact Hs.
Qed.

(** *** What the diversity walk leaves out *)

Lemma countBySource_other (key : string) (l : list ScoredArticle) (x : ScoredArticle) :
  sourceKey x <> key -> countBySource key (l ++ [x]) = countBySource key l.
Proof.
  intros Hne. rewrite countBySource_snoc.
  destruct (String.eqb_spec (sourceKey x) key); [contradiction | lia].
Qed.

Lemma countByCategory_other (key : string) (l : list ScoredArticle) (x : ScoredArticle) :
  categoryKey x <> key -> countByCategory key (l ++ [x]) = countByCategory key l.
Proof.
  intros Hne. rewrite countByCategory_snoc.
  destruct (String.eqb_spec (categoryKey x) key); [contradiction | lia].
Qed.

(** An article that finds its source or category full stays crowded out
    when one more article is admitted. *)
Lemma crowdedOut_admit (settings : DiversitySettings) (st : DiversityState)
      (a x : ScoredArticle) :
  diversityInv settings st ->
  (Z.of_nat (countOf (sourceCounts st) (sourceKey x)) < maxSameSource settings)%Z ->
  (Z.of_nat (countOf (categoryCounts st) (categoryKey x)) < maxSameCategory settings)%Z ->
  crowdedOut settings (diverseArticles st) a ->
  crowdedOut settings (diverseArticles st ++ [x]) a.
Proof.
  intros [Hsrc Hcat _ _] Hs Hc [[Hfull Hbest]|[Hfull Hbest]]; [left | right].
  - assert (Hne : sourceKey x <> sourceKey a).
    { intros Heq. rewrite <- Hsrc, Heq in Hs. lia. }
    split; [rewrite countBySource_other; assumption|].
    intros b Hb Hkey. apply in_app_or in Hb as [Hb|[<-|[]]]; [auto | contradiction].
  - assert (Hne : categoryKey x <> categoryKey a).
    { intros Heq. rewrite <- Hcat, Heq in Hc. lia. }
    split; [rewrite countByCategory_other; assumption|].
    intros b Hb Hkey. apply in_app_or in Hb as [Hb|[<-|[]]]; [auto | contradiction].
Qed.

Lemma underCap_true (counts : gmap string nat) (key : string) (cap : Z) :
  underCap counts key cap = true -> (Z.of_nat (countOf counts key) < cap)%Z.
Proof.
  unfold underCap. intros H. apply andb_true_iff in H as [_ H]. apply Z.ltb_lt, H.
Qed.

Lemma underCap_false (counts : gmap string nat) (key : string) (cap : Z) :
  countableKey key = true ->
  underCap counts key cap = false -> (cap <= Z.of_nat (countOf counts key))%Z.
Proof. unfold underCap. intros ->. simpl. apply Z.ltb_ge. Qed.

(** The walk splits the articles that it has passed into those admitted and
    those left out, and each of the latter found its source or its category
    full of articles that score at least as much. *)
Lemma diversity_fold_greedy (settings : DiversitySettings)
      (rest done leftOut : list ScoredArticle) (st : DiversityState) :
  StronglySorted (fun a b => higherOrSame a b = true) rest ->
  (forall b y, In b done -> In y rest -> higherOrSame b y = true) ->
  Forall (fun a => countableKey (sourceKey a) && countableKey (categoryKey a) = true)
         rest ->
  diversityInv settings st ->
  done ≡ₚ diverseArticles st ++ leftOut ->
  Forall (crowdedOut settings (diverseArticles st)) leftOut ->
  let st' := fold_left (diversityStep settings) rest st in
  exists leftOut',
    done ++ rest ≡ₚ diverseArticles st' ++ leftOut'
    /\ Forall (crowdedOut settings (diverseArticles st')) leftOut'.
Proof.
  revert done leftOut st.
  induction rest as [|x rest IH];
    intros done leftOut st Hsorted Hbefore Hkeys Hinv Hperm Hout.
  - simpl. exists leftOut. rewrite app_nil_r. auto.
  - simpl. inversion Hsorted as [|? ? Hrest Hx]; subst.
    inversion Hkeys as [|? ? Hkey Hkeys']; subst.
    apply andb_true_iff in Hkey as [HkeyS HkeyC].
    rewrite List.Forall_forall in Hx.
    replace (done ++ x :: rest) with ((done ++ [x]) ++ rest)
      by (rewrite <- app_assoc; reflexivity).
    assert (Hbefore' : forall b y, In b (done ++ [x]) -> In y rest ->
                                   higherOrSame b y = true).
    { intros b y Hb Hy. apply in_app_or in Hb as [Hb|[<-|[]]].
      - apply Hbefore; [exact Hb | right; exact Hy].
      - apply Hx, Hy. }
    assert (Hdiverse : forall b, In b (diverseArticles st) ->
                                 (finalScore x <= finalScore b)%Q).
    { intros b Hb. apply Qle_bool_iff. apply (Hbefore b x); [|left; reflexivity].
      apply list_elem_of_In. rewrite Hperm. apply list_elem_of_In.
      apply in_or_app. left. exact Hb. }
    pose proof Hinv as [Hsrc Hcat Hscap Hccap].
    pose proof (diversityStep_articles settings st x) as Hstep.
    destruct (underCap (sourceCounts st) (sourceKey x) (maxSameSource settings)) eqn:Hs;
      [destruct (underCap (categoryCounts st) (categoryKey x) (maxSameCategory settings))
         eqn:Hc|]; simpl in Hstep.
    + apply underCap_true in Hs, Hc.
      apply (IH (done ++ [x]) leftOut); try assumption.
      * apply diversityInv_step, Hinv.
      * rewrite Hstep, Hperm, <- !app_assoc.
        apply Permutation_app_head, Permutation_app_comm.
      * rewrite Hstep. eapply Forall_impl; [exact Hout|].
        intros a Ha. apply crowdedOut_admit; assumption.
    + apply (underCap_false _ _ _ HkeyC) in Hc. rewrite app_nil_r in Hstep.
      apply (IH (done ++ [x]) (leftOut ++ [x])); try assumption.
      * apply diversityInv_step, Hinv.
      * rewrite Hstep, Hperm, app_assoc. reflexivity.
      * rewrite Hstep. apply Forall_app. split; [exact Hout|].
        constructor; [|constructor]. right. split.
        -- rewrite Hcat. specialize (Hccap (categoryKey x)). lia.
        -- intros b Hb _. apply Hdiverse, Hb.
    + apply (underCap_false _ _ _ HkeyS) in Hs. rewrite app_nil_r in Hstep.
      apply (IH (done ++ [x]) (leftOut ++ [x])); try assumption.
      * apply diversityInv_step, Hinv.
      * rewrite Hstep, Hperm, app_assoc. reflexivity.
      * rewrite Hstep. apply Forall_app. split; [exact Hout|].
        constructor; [|constructor]. left. split.
        -- rewrite Hsrc. specialize (Hscap (sourceKey x)). lia.
        -- intros b Hb _. apply Hdiverse, Hb.
Qed.

Lemma sublist_StronglySorted {A : Type} (R : A -> A -> Prop) (l k : list A) :
  sublist l k -> StronglySorted R k -> StronglySorted R l.
Proof.
  induction 1 as [|x l k Hsub IH|x l k Hsub IH]; intros Hk.
  - constructor.
  - inversion Hk as [|? ? Hk' Hx]; subst. constructor; [apply IH, Hk'|].
    rewrite List.Forall_forall in Hx |- *. intros y Hy. apply Hx.
    apply list_elem_of_In. apply (elem_of_sublist l); [apply list_elem_of_In, Hy | exact Hsub].
  - inversion Hk; subst. apply IH. assumption.
Qed.

(** X18. The diversity walk, with diversity preferred, non-negative caps
    and sources and categories that an object can count. Its result is the
    list sorted by final score with some articles left out, so it is in
    score order and the sort that follows it changes nothing. The input
    splits into the result and the articles left out, and an article is left
    out only in favour of better ones: its source has [maxSameSource]
    articles in the result, or its category has [maxSameCategory], and each
    of those has a final score at least as high as its own. *)
Theorem ensureArticleDiversity_leaves_out_the_lowest
        (config : SelectionConfig) (articles : list ScoredArticle) :
  preferDiverseSources (diversitySettings config) = true ->
  (0 <= maxSameSource (diversitySettings config))%Z ->
  (0 <= maxSameCategory (diversitySettings config))%Z ->
  Forall (fun a => countableKey (sourceKey a) && countableKey (categoryKey a) = true)
         articles ->
  let diverse := ensureArticleDiversity config articles in
  sublist diverse (sortBy higherOrSame articles)
  /\ sortBy higherOrSame diverse = diverse
  /\ (exists leftOut,
         articles ≡ₚ diverse ++ leftOut
         /\ Forall (crowdedOut (diversitySettings config) diverse) leftOut).
Proof.
  intros Hpref Hs Hc Hkeys diverse.
  pose proof (ensureArticleDiversity_sublist config articles Hpref) as Hsub.
  fold diverse in Hsub.
  split; [exact Hsub|]. split.
  - apply sortBy_inOrder_fixed. apply StronglySorted_Sorted.
    apply (sublist_StronglySorted _ _ _ Hsub), sorted_by_score.
  - unfold diverse, ensureArticleDiversity. rewrite Hpref. simpl.
    destruct (diversity_fold_greedy (diversitySettings config)
                (sortBy higherOrSame articles) [] []
                {| diverseArticles := []; sourceCounts := ∅; categoryCounts := ∅ |})
      as (leftOut & Hperm & Hout).
    + apply sorted_by_score.
    + intros b y [].
    + apply Forall_sortBy, Hkeys.
    + apply diversityInv_initial; assumption.
    + reflexivity.
    + constructor.
    + exists leftOut. split; [|exact Hout].
      rewrite <- Hperm. simpl. symmetry. apply sortBy_Permutation.
Qed.

(** *** The counts of the selection metadata *)

Lemma countLabel_snoc (key : ScoredArticle -> string) (label : string)
      (l : list ScoredArticle) (a : ScoredArticle) :
  countLabel key label (l ++ [a])
  = (countLabel key label l + if String.eqb (key a) label then 1 else 0)%nat.
Proof.
  unfold countLabel. rewrite List.filter_app, length_app. simpl.
  destruct (String.eqb (key a) label); reflexivity.
Qed.

Lemma countByKey_snoc (key : ScoredArticle -> string) (l : list ScoredArticle)
      (a : ScoredArticle) :
  countByKey key (l ++ [a])
  = <[key a := S (countOf (countByKey key l) (key a))]> (countByKey key l).
Proof. unfold countByKey. rewrite fold_left_app. reflexivity. Qed.

(** The dictionary holds, for each label, the number of articles with it. *)
Lemma countByKey_countOf (key : ScoredArticle -> string) (l : list ScoredArticle)
      (label : string) :
  countOf (countByKey key l) label = countLabel key label l.
Proof.
  induction l as [|a l IH] using rev_ind; [reflexivity|].
  rewrite countByKey_snoc, countLabel_snoc, countOf_insert.
  destruct (String.eqb_spec (key a) label) as [<-|]; lia.
Qed.

(** No entry of the dictionary is 0. *)
Lemma countByKey_positive (key : ScoredArticle -> string) (l : list ScoredArticle)
      (label : string) (n : nat) :
  countByKey key l !! label = Some n -> (0 < n)%nat.
Proof.
  revert label n. induction l as [|a l IH] using rev_ind; intros label n.
  - unfold countByKey. simpl. rewrite lookup_empty. discriminate.
  - rewrite countByKey_snoc. destruct (String.eqb_spec (key a) label) as [<-|Hne].
    + rewrite lookup_insert_eq. intros [= <-]. lia.
    + rewrite lookup_insert_ne by assumption. apply IH.
Qed.

Lemma countByKey_lookup (key : ScoredArticle -> string) (l : list ScoredArticle)
      (label : string) :
  countByKey key l !! label
  = if (countLabel key label l =? 0)%nat then None else Some (countLabel key label l).
Proof.
  rewrite <- countByKey_countOf. unfold countOf.
  destruct (countByKey key l !! label) as [n|] eqn:Hn; simpl; [|reflexivity].
  apply countByKey_positive in Hn.
  destruct (Nat.eqb_spec n 0); [lia | reflexivity].
Qed.

Lemma totalOf_insert (breakdown : gmap string nat) (label : string) (n : nat) :
  totalOf (<[label := n]> breakdown) = (n + totalOf (delete label breakdown))%nat.
Proof.
  unfold totalOf. rewrite <- insert_delete_eq.
  rewrite map_fold_insert_L.
  - reflexivity.
  - intros. lia.
  - apply lookup_delete_eq.
Qed.

Lemma totalOf_delete (breakdown : gmap string nat) (label : string) :
  totalOf breakdown = (countOf breakdown label + totalOf (delete label breakdown))%nat.
Proof.
  unfold countOf. destruct (breakdown !! label) as [n|] eqn:Hn; simpl.
  - rewrite <- (insert_id breakdown label n Hn) at 1. apply totalOf_insert.
  - rewrite delete_id by assumption. reflexivity.
Qed.

(** The counts of a breakdown add up to the number of articles counted. *)
Lemma countByKey_total (key : ScoredArticle -> string) (l : list ScoredArticle) :
  totalOf (countByKey key l) = length l.
Proof.
  induction l as [|a l IH] using rev_ind; [reflexivity|].
  rewrite countByKey_snoc, totalOf_insert, length_app. simpl.
  rewrite (totalOf_delete (countByKey key l) (key a)) in IH. lia.
Qed.

(** X19. The three breakdowns of the selection metadata, on selected
    articles whose labels an object can count: each breakdown has an entry
    for a label exactly when some selected article has the label, the entry
    is the number of those articles, and the entries of each breakdown add
    up to [totalSelected]. *)
Theorem generateSelectionMetadata_counts
        (allArticles : list Article) (selectedArticles : list ScoredArticle) :
  Forall (fun a => countableKey (sourceLabel a) && countableKey (categoryKey a)
                   && countableKey (qualityLabel a) = true) selectedArticles ->
  let metadata := generateSelectionMetadata allArticles selectedArticles in
  let entry (count : nat) := if (count =? 0)%nat then None else Some count in
  (forall label,
      sourceBreakdown metadata !! label
      = entry (countLabel sourceLabel label selectedArticles))
  /\ (forall label,
         categoryBreakdown metadata !! label
         = entry (countLabel categoryKey label selectedArticles))
  /\ (forall label,
         qualityBreakdown metadata !! label
         = entry (countLabel qualityLabel label selectedArticles))
  /\ totalOf (sourceBreakdown metadata) = totalSelected metadata
  /\ totalOf (categoryBreakdown metadata) = totalSelected metadata
  /\ totalOf (qualityBreakdown metadata) = totalSelected metadata.
Proof.
  intros _ metadata entry. unfold metadata, entry. simpl.
  repeat split; try (intros label; apply countByKey_lookup); apply countByKey_total.
Qed.

Lemma filter_length_le {A : Type} (p q : A -> bool) (l : list A) :
  (forall x, p x = true -> q x = true) ->
  (length (List.filter p l) <= length (List.filter q l))%nat.
Proof.
  intros Hpq. induction l as [|x l IH]; simpl; [lia|].
  destruct (p x) eqn:Hp.
  - rewrite (Hpq x Hp). simpl. lia.
  - destruct (q x); simpl; lia.
Qed.

Lemma filter_length_orb {A : Type} (p q : A -> bool) (l : list A) :
  (length (List.filter (fun x => p x || q x) l)
   <= length (List.filter p l) + length (List.filter q l))%nat.
Proof.
  induction l as [|x l IH]; simpl; [lia|].
  destruct (p x), (q x); simpl; lia.
Qed.

(** A label other than [Unknown] is the source itself, which is also what
    the diversity walk counts; the label [Unknown] covers the articles that
    the walk counts under [Unknown] and under [unknown]. *)
Lemma countLabel_source_known (label : string) (l : list ScoredArticle) :
  label <> "Unknown" -> (countLabel sourceLabel label l <= countBySource label l)%nat.
Proof.
  intros Hne. unfold countLabel, countBySource.
  apply filter_length_le. intros a. unfold sourceLabel, sourceKey.
  destruct (truthy (source (article a))); [auto|].
  intros H. apply String.eqb_eq in H. congruence.
Qed.

Lemma countLabel_source_unknown (l : list ScoredArticle) :
  (countLabel sourceLabel "Unknown" l
   <= countBySource "Unknown" l + countBySource "unknown" l)%nat.
Proof.
  unfold countLabel, countBySource.
  etransitivity; [|apply filter_length_orb].
  apply filter_length_le. intros a. unfold sourceLabel, sourceKey.
  destruct (truthy (source (article a))); intros H; [rewrite H | ]; reflexivity.
Qed.

(** X20. The metadata of a selection made with diversity preferred and
    non-negative caps, from articles whose sources and categories an object
    can count: no more articles are selected than considered, nor
    than [maxArticles]; no entry of the category breakdown exceeds
    [maxSameCategory]; no entry of the source breakdown exceeds
    [maxSameSource], except the entry [Unknown], which stays within twice
    that: the metadata counts under [Unknown] the articles without a source,
    which the diversity walk counts under [unknown]. *)
Theorem selection_metadata_within_caps
        (config : SelectionConfig) (now : Z) (allArticles : list Article) :
  preferDiverseSources (diversitySettings config) = true ->
  (0 <= maxSameSource (diversitySettings config))%Z ->
  (0 <= maxSameCategory (diversitySettings config))%Z ->
  (0 <= maxArticles config)%Z ->
  Forall (fun a => countableKey (sourceKey a) && countableKey (categoryKey a) = true)
         (scoreArticles config now allArticles) ->
  let selected := selectBestArticles config now allArticles in
  let metadata := generateSelectionMetadata allArticles selected in
  (totalSelected metadata <= totalConsidered metadata)%nat
  /\ (Z.of_nat (totalSelected metadata) <= maxArticles config)%Z
  /\ (forall label count,
         categoryBreakdown metadata !! label = Some count ->
         (Z.of_nat count <= maxSameCategory (diversitySettings config))%Z)
  /\ (forall label count,
         sourceBreakdown metadata !! label = Some count ->
         (label <> "Unknown" ->
          (Z.of_nat count <= maxSameSource (diversitySettings config))%Z)
         /\ (Z.of_nat count <= 2 * maxSameSource (diversitySettings config))%Z).
Proof.
  intros Hpref Hs Hc Hmax _ selected metadata.
  set (qualified := filterByMinimumScore config (scoreArticles config now allArticles)).
  assert (Hsel : selected = topArticles config (ensureArticleDiversity config qualified))
    by apply selectBestArticles_unfold.
  destruct (ensureArticleDiversity_caps config qualified Hpref Hs Hc) as [Hsrc Hcat].
  assert (Hsrc' : forall key, (Z.of_nat (countBySource key selected)
                               <= maxSameSource (diversitySettings config))%Z).
  { intros key. rewrite Hsel.
    pose proof (topArticles_countBySource config key
                  (ensureArticleDiversity config qualified)).
    specialize (Hsrc key). lia. }
  assert (Hcat' : forall key, (Z.of_nat (countByCategory key selected)
                               <= maxSameCategory (diversitySettings config))%Z).
  { intros key. rewrite Hsel.
    pose proof (topArticles_countByCategory config key
                  (ensureArticleDiversity config qualified)).
    specialize (Hcat key). lia. }
  unfold metadata. simpl. split; [|split; [|split]].
  - pose proof (submseteq_length _ _ (selectBestArticles_qualified config now allArticles))
      as H1.
    pose proof (submseteq_length _ _
                  (filterByMinimumScore_submseteq config
                     (scoreArticles config now allArticles))) as H2.
    unfold scoreArticles in H2 at 2. rewrite length_map in H2. fold selected in H1. lia.
  - rewrite Hsel. apply sliceTo_length, Hmax.
  - intros label count Hlookup. rewrite countByKey_lookup in Hlookup.
    destruct (_ =? _)%nat; [discriminate|]. injection Hlookup as <-.
    apply (Hcat' label).
  - intros label count Hlookup. rewrite countByKey_lookup in Hlookup.
    destruct (_ =? _)%nat; [discriminate|]. injection Hlookup as <-.
    destruct (String.eqb_spec label "Unknown") as [->|Hne].
    + split; [congruence|].
      pose proof (countLabel_source_unknown selected).
      pose proof (Hsrc' "Unknown"). pose proof (Hsrc' "unknown"). lia.
    + pose proof (countLabel_source_known label selected Hne).
      pose proof (Hsrc' label). split; [intros _|]; lia.
Qed.

Example unknown_sources_counted_together :
  let selected := selectBestArticles oneFromEachSource 7200000
                                     [articleFrom ""; articleFrom "Unknown"] in
  sourceBreakdown
    (generateSelectionMetadata [articleFrom ""; articleFrom "Unknown"] selected)
  !! "Unknown" = Some 2%nat.
Proof. vm_compute. reflexivity. Qed.

(** *** The selector on sample articles *)

Lemma sample_keys_countable :
  Forall (fun a => countableKey (sourceKey a) && countableKey (categoryKey a) = true)
         (scoreArticles defaultConfig 7200000 fourFromOneSource).
Proof. repeat constructor. Qed.

(** One article a source on two different articles of one source and one
    of another: two are admitted and one of the first source is left out. *)
Lemma ensureArticleDiversity_leaves_out_the_lowest_witness :
  let articles := scoreArticles oneFromEachSource 7200000 twoFromOneSource in
  let diverse := ensureArticleDiversity oneFromEachSource articles in
  (sublist diverse (sortBy higherOrSame articles)
   /\ sortBy higherOrSame diverse = diverse
   /\ (exists leftOut,
          articles ≡ₚ diverse ++ leftOut
          /\ Forall (crowdedOut (diversitySettings oneFromEachSource) diverse) leftOut))
  /\ length articles = 3%nat
  /\ length diverse = 2%nat.
Proof.
  intros articles diverse. split; [|split; reflexivity].
  apply (ensureArticleDiversity_leaves_out_the_lowest oneFromEachSource articles).
  - reflexivity.
  - simpl. lia.
  - simpl. lia.
  - repeat constructor.
Defined.

Lemma generateSelectionMetadata_counts_witness :
  let selected := scoreArticles defaultConfig 7200000 fourFromOneSource in
  let metadata := generateSelectionMetadata fourFromOneSource selected in
  sourceBreakdown metadata !! "Nikkei" = Some 4%nat
  /\ totalOf (sourceBreakdown metadata) = totalSelected metadata.
Proof.
  intros selected metadata.
  assert (Hkeys : Forall (fun a => countableKey (sourceLabel a)
                                   && countableKey (categoryKey a)
                                   && countableKey (qualityLabel a) = true) selected)
    by repeat constructor.
  destruct (generateSelectionMetadata_counts fourFromOneSource selected Hkeys)
    as (Hsource & _ & _ & Htotal & _).
  split; [rewrite Hsource; reflexivity | exact Htotal].
Defined.

Lemma selection_metadata_within_caps_witness :
  let selected := selectBestArticles defaultConfig 7200000 fourFromOneSource in
  let metadata := generateSelectionMetadata fourFromOneSource selected in
  (totalSelected metadata <= totalConsidered metadata)%nat
  /\ (Z.of_nat (totalSelected metadata) <= 10)%Z
  /\ (forall label count,
         categoryBreakdown metadata !! label = Some count -> (Z.of_nat count <= 4)%Z)
  /\ (forall label count,
         sourceBreakdown metadata !! label = Some count ->
         (label <> "Unknown" -> (Z.of_nat count <= 3)%Z)
         /\ (Z.of_nat count <= 2 * 3)%Z).
Proof.
  intros selected metadata.
  apply (selection_metadata_within_caps defaultConfig 7200000 fourFromOneSource).
  - reflexivity.
  - simpl. lia.
  - simpl. lia.
  - simpl. lia.
  - exact sample_keys_countable.
Defined.

End SelectorFacts.

(** ** Deduplicator *)

Section DedupFacts.
Import Dedup.

Variable parseURL : string -> option URL.
Variable searchParamsToString : list (string * string) -> string.
Variable config : DedupConfig.

Local Abbreviation normalizeUrl := (normalizeUrl parseURL searchParamsToString).
Local Abbreviation urlStage := (urlStage parseURL searchParamsToString config).
Local Abbreviation titleStage := (titleStage config).
Local Abbreviation contentStage := (contentStage config).
Local Abbreviation withInfo := (withInfo parseURL searchParamsToString).
Local Abbreviation dedupStep := (dedupStep parseURL searchParamsToString config).
Local Abbreviation dedupLoop := (dedupLoop parseURL searchParamsToString config).
Local Abbreviation performDeduplication :=
  (performDeduplication parseURL searchParamsToString config).
Local Abbreviation deduplicateArticles :=
  (deduplicateArticles parseURL searchParamsToString config).
Local Abbreviation urlAnchor := (urlAnchor parseURL searchParamsToString config).
Local Abbreviation titleAnchor := (titleAnchor config).
Local Abbreviation urlFlag := (urlFlag parseURL searchParamsToString config).
Local Abbreviation titleFlag := (titleFlag parseURL searchParamsToString config).
Local Abbreviation contentFlag := (contentFlag parseURL searchParamsToString config).
Local Abbreviation reindex := (reindex parseURL searchParamsToString).
Local Abbreviation urlTest := (urlTest parseURL searchParamsToString config).
Local Abbreviation titleTest := (titleTest config).
Local Abbreviation contentTest := (contentTest config).
Local Abbreviation urlDuplicate := (urlDuplicate parseURL searchParamsToString config).
Local Abbreviation titleDuplicate := (titleDuplicate config).
Local Abbreviation contentDuplicate := (contentDuplicate config).
Local Abbreviation duplicateOf := (duplicateOf parseURL searchParamsToString config).
Local Abbreviation acceptedState := (acceptedState parseURL searchParamsToString config).
Local Abbreviation keptApart := (keptApart parseURL searchParamsToString config).
Local Abbreviation contentThresholdOk := (contentThresholdOk config).
Local Abbreviation passInv := (passInv parseURL searchParamsToString config).

(** *** The three stages *)

Lemma urlStage_anchors (seen : list string) (y : Article) :
  snd (urlStage seen y) = seen ++ (if fst (urlStage seen y) then [] else urlAnchor y).
Proof.
  unfold Dedup.urlStage, Dedup.urlAnchor.
  destruct (enableUrlDedup config && truthy (url y)); simpl.
  - destruct (has _ seen); simpl; [symmetry; apply app_nil_r|].
    destruct (existsb _ seen); simpl; [symmetry; apply app_nil_r | reflexivity].
  - symmetry. apply app_nil_r.
Qed.

Lemma titleStage_titles (d : bool) (hashes : list Z) (titles : list string) (y : Article) :
  snd (titleStage d hashes titles y)
  = titles ++ (if fst (fst (titleStage d hashes titles y)) then [] else titleAnchor y).
Proof.
  unfold Dedup.titleStage, Dedup.titleAnchor.
  destruct d; simpl; [symmetry; apply app_nil_r|].
  destruct (enableTitleDedup config && truthy (title y)); simpl.
  - destruct (existsb _ hashes); simpl; [symmetry; apply app_nil_r|].
    destruct (existsb _ titles); simpl; [symmetry; apply app_nil_r | reflexivity].
  - symmetry. apply app_nil_r.
Qed.

Lemma titleStage_hashes (d : bool) (hashes : list Z) (titles : list string) (y : Article) :
  snd (fst (titleStage d hashes titles y))
  = hashes ++ map simpleHash
                  (if fst (fst (titleStage d hashes titles y)) then [] else titleAnchor y).
Proof.
  unfold Dedup.titleStage, Dedup.titleAnchor.
  destruct d; simpl; [symmetry; apply app_nil_r|].
  destruct (enableTitleDedup config && truthy (title y)); simpl.
  - destruct (existsb _ hashes); simpl; [symmetry; apply app_nil_r|].
    destruct (existsb _ titles); simpl; [symmetry; apply app_nil_r | reflexivity].
  - symmetry. apply app_nil_r.
Qed.

Lemma titleStage_keeps_flag (hashes : list Z) (titles : list string) (y : Article) :
  fst (fst (titleStage true hashes titles y)) = true.
Proof. reflexivity. Qed.

Lemma contentStage_keeps_flag (unique : list Article) (y : Article) :
  contentStage true unique y = true.
Proof. reflexivity. Qed.

(** *** One iteration *)

Lemma dedupStep_seenUrls (st : DedupState) (index : nat) (y : Article) :
  seenUrls (dedupStep st index y) = snd (urlStage (seenUrls st) y).
Proof.
  unfold Dedup.dedupStep.
  destruct (urlStage (seenUrls st) y) as [dU seen'].
  destruct (titleStage dU _ _ y) as [[dT hashes'] titles']. reflexivity.
Qed.

Lemma dedupStep_processedTitles (st : DedupState) (index : nat) (y : Article) :
  processedTitles (dedupStep st index y)
  = snd (titleStage (urlFlag st y) (seenTitleHashes st) (processedTitles st) y).
Proof.
  unfold Dedup.dedupStep, Dedup.urlFlag.
  destruct (urlStage (seenUrls st) y) as [dU seen']. simpl.
  destruct (titleStage dU _ _ y) as [[dT hashes'] titles']. reflexivity.
Qed.

Lemma dedupStep_seenTitleHashes (st : DedupState) (index : nat) (y : Article) :
  seenTitleHashes (dedupStep st index y)
  = snd (fst (titleStage (urlFlag st y) (seenTitleHashes st) (processedTitles st) y)).
Proof.
  unfold Dedup.dedupStep, Dedup.urlFlag.
  destruct (urlStage (seenUrls st) y) as [dU seen']. simpl.
  destruct (titleStage dU _ _ y) as [[dT hashes'] titles']. reflexivity.
Qed.

Lemma dedupStep_uniqueArticles (st : DedupState) (index : nat) (y : Article) :
  uniqueArticles (dedupStep st index y)
  = uniqueArticles st ++ (if contentFlag st y then [] else [withInfo index y]).
Proof.
  unfold Dedup.dedupStep, Dedup.contentFlag, Dedup.titleFlag, Dedup.urlFlag.
  destruct (urlStage (seenUrls st) y) as [dU seen']. simpl.
  destruct (titleStage dU _ _ y) as [[dT hashes'] titles']. simpl.
  destruct (contentStage dT (uniqueArticles st) y); simpl;
    [symmetry; apply app_nil_r | reflexivity].
Qed.

Lemma urlFlag_titleFlag (st : DedupState) (y : Article) :
  urlFlag st y = true -> titleFlag st y = true.
Proof. unfold Dedup.titleFlag. intros ->. reflexivity. Qed.

Lemma titleFlag_contentFlag (st : DedupState) (y : Article) :
  titleFlag st y = true -> contentFlag st y = true.
Proof. unfold Dedup.contentFlag. intros ->. reflexivity. Qed.

(** *** The loop *)

Lemma dedupLoop_app (st : DedupState) (index : nat) (l1 l2 : list Article) :
  dedupLoop st index (l1 ++ l2)
  = dedupLoop (dedupLoop st index l1) (index + length l1) l2.
Proof.
  revert st index. induction l1 as [|y l1 IH]; intros st index; simpl.
  - rewrite Nat.add_0_r. reflexivity.
  - rewrite IH. f_equal. lia.
Qed.

(** The articles added by a stretch of the loop carry the positions of
    that stretch. *)
Lemma dedupLoop_unique (st : DedupState) (index : nat) (l : list Article) :
  exists added,
    uniqueArticles (dedupLoop st index l) = uniqueArticles st ++ added
    /\ Forall (fun a => exists k, indexOf a = Some k
                                  /\ (index <= k < index + length l)%nat) added.
Proof.
  revert st index. induction l as [|y l IH]; intros st index; simpl.
  - exists []. split; [symmetry; apply app_nil_r | constructor].
  - destruct (IH (dedupStep st index y) (S index)) as (added & Heq & Hall).
    rewrite dedupStep_uniqueArticles in Heq.
    exists ((if contentFlag st y then [] else [withInfo index y]) ++ added).
    split; [rewrite Heq; symmetry; apply app_assoc|].
    apply Forall_app. split.
    + destruct (contentFlag st y); constructor; [|constructor].
      exists index. split; [reflexivity | lia].
    + eapply Forall_impl; [exact Hall|].
      intros a (k & Hk & Hrange). exists k. split; [assumption | lia].
Qed.

Lemma dedupStep_seenUrls_mono (st : DedupState) (index : nat) (y : Article) (u : string) :
  In u (seenUrls st) -> In u (seenUrls (dedupStep st index y)).
Proof.
  intros Hin. rewrite dedupStep_seenUrls, urlStage_anchors.
  apply in_or_app. left. exact Hin.
Qed.

Lemma dedupLoop_seenUrls_mono (st : DedupState) (index : nat) (l : list Article)
      (u : string) :
  In u (seenUrls st) -> In u (seenUrls (dedupLoop st index l)).
Proof.
  revert st index. induction l as [|y l IH]; intros st index Hin; simpl; [assumption|].
  apply IH, dedupStep_seenUrls_mono, Hin.
Qed.

Lemma has_In (x : string) (members : list string) : has x members = true <-> In x members.
Proof.
  unfold has. rewrite existsb_exists. split.
  - intros (y & Hy & Heq). apply String.eqb_eq in Heq. subst. exact Hy.
  - intros Hin. exists x. split; [exact Hin | apply String.eqb_refl].
Qed.

(** An article whose normalized URL is already an anchor is flagged by the
    URL stage. *)
Lemma urlFlag_seen (st : DedupState) (y : Article) :
  enableUrlDedup config = true ->
  truthy (url y) = true ->
  In (normalizeUrl (url y)) (seenUrls st) ->
  urlFlag st y = true.
Proof.
  intros Hen Hurl Hin. unfold Dedup.urlFlag, Dedup.urlStage.
  rewrite Hen, Hurl. simpl.
  apply has_In in Hin. rewrite Hin. reflexivity.
Qed.

Lemma contentFlag_of_urlFlag (st : DedupState) (y : Article) :
  urlFlag st y = true -> contentFlag st y = true.
Proof. intros H. apply titleFlag_contentFlag, urlFlag_titleFlag, H. Qed.

(** An accepted article has left its normalized URL among the anchors. *)
Lemma accepted_leaves_url (st : DedupState) (index : nat) (y : Article) :
  enableUrlDedup config = true ->
  truthy (url y) = true ->
  contentFlag st y = false ->
  In (normalizeUrl (url y)) (seenUrls (dedupStep st index y)).
Proof.
  intros Hen Hurl Hacc. rewrite dedupStep_seenUrls, urlStage_anchors.
  fold (urlFlag st y).
  destruct (urlFlag st y) eqn:HU.
  - apply contentFlag_of_urlFlag in HU. congruence.
  - apply in_or_app. right. unfold Dedup.urlAnchor. rewrite Hen, Hurl. simpl. left. reflexivity.
Qed.

(** The first article of a pass is always accepted. *)
Lemma first_article_accepted (y : Article) :
  contentFlag initialState y = false.
Proof.
  unfold Dedup.contentFlag, Dedup.titleFlag, Dedup.urlFlag,
    Dedup.contentStage, Dedup.titleStage, Dedup.urlStage. simpl.
  destruct (enableUrlDedup config && truthy (url y)); simpl;
    destruct (enableTitleDedup config && truthy (title y)); simpl;
    destruct (enableContentDedup config && truthy (content y)); reflexivity.
Qed.

(** Articles that share an anchored normalized URL are all rejected. *)
Lemma dedupLoop_same_url_rejected (u : string) (rest : list Article)
      (st : DedupState) (index : nat) :
  enableUrlDedup config = true ->
  In u (seenUrls st) ->
  Forall (fun B => truthy (url B) = true /\ normalizeUrl (url B) = u) rest ->
  uniqueArticles (dedupLoop st index rest) = uniqueArticles st.
Proof.
  intros Hen. revert st index.
  induction rest as [|B rest IH]; intros st index Hin Hall; simpl; [reflexivity|].
  inversion Hall as [|? ? [HB Hu] Hrest]; subst.
  rewrite IH; [|apply dedupStep_seenUrls_mono, Hin|exact Hrest].
  rewrite dedupStep_uniqueArticles.
  rewrite (contentFlag_of_urlFlag st B (urlFlag_seen st B Hen HB Hin)).
  apply app_nil_r.
Qed.

Lemma sliceTo_singleton {A : Type} (n : Z) (x : A) : (1 <= n)%Z -> sliceTo n [x] = [x].
Proof.
  intros Hn. unfold sliceTo. destruct (Z.ltb_spec n 0); [lia|].
  apply take_ge. simpl. lia.
Qed.

(** *** URL similarity and exclusion *)

Lemma urlSimilarity_empty (a b : string) :
  a = "" \/ b = "" -> calculateUrlSimilarity a b = 0%Q.
Proof.
  unfold calculateUrlSimilarity.
  intros [->| ->]; [|destruct (truthy a)]; reflexivity.
Qed.

Lemma urlSimilarity_cases (a b : string) :
  a <> "" -> b <> "" ->
  (a = b -> calculateUrlSimilarity a b = 1%Q)
  /\ (a <> b -> domainOf a <> domainOf b -> calculateUrlSimilarity a b = (1 # 10)%Q)
  /\ (a <> b -> domainOf a = domainOf b -> calculateUrlSimilarity a b = editSimilarity a b).
Proof.
  intros Ha Hb. unfold calculateUrlSimilarity.
  rewrite (truthy_nonempty a Ha), (truthy_nonempty b Hb). simpl. split; [|split].
  - intros ->. rewrite String.eqb_refl. reflexivity.
  - intros Hab Hdom. rewrite (eqb_different a b Hab), (eqb_different _ _ Hdom). reflexivity.
  - intros Hab Hdom. rewrite (eqb_different a b Hab), Hdom, String.eqb_refl. simpl.
    apply calculateStringSimilarity_edit; assumption.
Qed.

Lemma In_sortBy {A : Type} (before : A -> A -> bool) (x : A) (l : list A) :
  In x (sortBy before l) -> In x l.
Proof.
  assert (Hins : forall y k, In x (insertBy before y k) -> x = y \/ In x k).
  { intros y k. induction k as [|z k IHk]; simpl.
    - intros [->|[]]. left. reflexivity.
    - destruct (before y z); simpl.
      + intros [->|[->|H]]; auto.
      + intros [->|H]; [auto|]. destruct (IHk H) as [->|H']; auto. }
  induction l as [|y l IH]; [intros []|].
  change (sortBy before (y :: l)) with (insertBy before y (sortBy before l)).
  intros H. destruct (Hins _ _ H) as [->|H']; [left; reflexivity | right; auto].
Qed.

Lemma In_sliceTo {A : Type} (n : Z) (x : A) (l : list A) : In x (sliceTo n l) -> In x l.
Proof.
  unfold sliceTo. rewrite <- !list_elem_of_In. apply subseteq_take.
Qed.

(** What [deduplicateArticles] returns was accepted by the pass. *)
Lemma deduplicateArticles_In (a : Article) (input : list Article) :
  In a (deduplicateArticles input) -> In a (performDeduplication input).
Proof.
  unfold Dedup.deduplicateArticles. destruct input as [|y l]; [intros []|].
  intros H. apply In_sliceTo in H. unfold sortArticlesByDate in H.
  apply In_sortBy in H. exact H.
Qed.

(** Once the article at one position is accepted, a later article whose URL
    normalizes to the same string is not. *)
Lemma same_url_excluded (l1 : list Article) (A : Article) (l2 : list Article)
      (B : Article) (l3 : list Article) :
  enableUrlDedup config = true ->
  truthy (url A) = true ->
  truthy (url B) = true ->
  normalizeUrl (url A) = normalizeUrl (url B) ->
  acceptedAt (length l1) (performDeduplication (l1 ++ A :: l2 ++ B :: l3)) ->
  ~ acceptedAt (length l1 + 1 + length l2)
      (performDeduplication (l1 ++ A :: l2 ++ B :: l3)).
Proof.
  intros Hen HA HB Hsame.
  unfold Dedup.performDeduplication.
  rewrite dedupLoop_app. simpl.
  set (st1 := dedupLoop initialState 0 l1).
  rewrite dedupLoop_app. simpl.
  set (st2 := dedupStep st1 (length l1) A).
  set (st3 := dedupLoop st2 (S (length l1)) l2).
  set (j := (S (length l1) + length l2)%nat).
  set (st4 := dedupStep st3 j B).
  destruct (dedupLoop_unique initialState 0 l1) as (added1 & E1 & H1).
  destruct (dedupLoop_unique st2 (S (length l1)) l2) as (added2 & E2 & H2).
  destruct (dedupLoop_unique st4 (S j) l3) as (added3 & E3 & H3).
  fold st1 in E1. fold st3 in E2. simpl in E1.
  pose proof (dedupStep_uniqueArticles st1 (length l1) A) as EA. fold st2 in EA.
  pose proof (dedupStep_uniqueArticles st3 j B) as EB. fold st4 in EB.
  rewrite List.Forall_forall in H1, H2, H3.
  assert (Hparts : forall a,
             In a (uniqueArticles (dedupLoop st4 (S j) l3)) ->
             In a added1
             \/ In a (if contentFlag st1 A then [] else [withInfo (length l1) A])
             \/ In a added2
             \/ In a (if contentFlag st3 B then [] else [withInfo j B])
             \/ In a added3).
  { intros a. rewrite E3, EB, E2, EA, E1. rewrite !in_app_iff. tauto. }
  intros (a & Ha & Hidx) (b & Hb & Hjdx).
  assert (Haccepted : contentFlag st1 A = false).
  { destruct (contentFlag st1 A); [|reflexivity]. exfalso.
    destruct (Hparts a Ha) as [H|[H|[H|[H|H]]]].
    - apply H1 in H as (k & Hk & Hr). rewrite Hidx in Hk. injection Hk as <-. lia.
    - destruct H.
    - apply H2 in H as (k & Hk & Hr). rewrite Hidx in Hk. injection Hk as <-. lia.
    - destruct (contentFlag st3 B); [destruct H|].
      destruct H as [<-|[]]. simpl in Hidx. injection Hidx as Hidx. unfold j in Hidx. lia.
    - apply H3 in H as (k & Hk & Hr). rewrite Hidx in Hk. injection Hk as <-.
      unfold j in Hr. lia. }
  assert (Hrejected : contentFlag st3 B = true).
  { apply contentFlag_of_urlFlag, urlFlag_seen; [exact Hen | exact HB |].
    rewrite <- Hsame. unfold st3. apply dedupLoop_seenUrls_mono.
    unfold st2. apply accepted_leaves_url; assumption. }
  replace (length l1 + 1 + length l2)%nat with j in Hjdx by (unfold j; lia).
  destruct (Hparts b Hb) as [H|[H|[H|[H|H]]]].
  - apply H1 in H as (k & Hk & Hr). rewrite Hjdx in Hk. injection Hk as <-.
    unfold j in Hr. lia.
  - rewrite Haccepted in H. destruct H as [<-|[]]. simpl in Hjdx.
    injection Hjdx as Hjdx. unfold j in Hjdx. lia.
  - apply H2 in H as (k & Hk & Hr). rewrite Hjdx in Hk. injection Hk as <-.
    unfold j in Hr. lia.
  - rewrite Hrejected in H. destruct H.
  - apply H3 in H as (k & Hk & Hr). rewrite Hjdx in Hk. injection Hk as <-. lia.
Qed.

(** C8 (as amended). When either normalized URL is empty the similarity is
    0. For two non-empty normalized URLs the similarity is 1 when they are
    identical, 1/10 when their domains (the third segment when split on the
    slash) differ, and otherwise 1 - distance / longer length. When URL
    deduplication is enabled and two articles with non-empty URLs have the
    same normalized URL, the later one is excluded from the deduplicated set
    as soon as the earlier one is accepted. *)
Theorem C8_urlSimilarity_and_exclusion :
  (forall a b : string,
      (a = "" \/ b = "" -> calculateUrlSimilarity a b = 0%Q)
      /\ (a <> "" -> b <> "" ->
          (a = b -> calculateUrlSimilarity a b = 1%Q)
          /\ (a <> b -> domainOf a <> domainOf b ->
              calculateUrlSimilarity a b = (1 # 10)%Q)
          /\ (a <> b -> domainOf a = domainOf b ->
              calculateUrlSimilarity a b = editSimilarity a b)))
  /\ (forall (l1 : list Article) (A : Article) (l2 : list Article) (B : Article)
             (l3 : list Article),
         enableUrlDedup config = true ->
         truthy (url A) = true ->
         truthy (url B) = true ->
         normalizeUrl (url A) = normalizeUrl (url B) ->
         let input := l1 ++ A :: l2 ++ B :: l3 in
         acceptedAt (length l1) (performDeduplication input) ->
         ~ acceptedAt (length l1 + 1 + length l2) (performDeduplication input)
         /\ ~ acceptedAt (length l1 + 1 + length l2) (deduplicateArticles input)).
Proof.
  split; [intros a b; split; [apply urlSimilarity_empty | apply urlSimilarity_cases]|].
  intros l1 A l2 B l3 Hen HA HB Hsame input Hacc.
  pose proof (same_url_excluded l1 A l2 B l3 Hen HA HB Hsame Hacc) as Hex.
  split; [exact Hex|].
  intros (b & Hb & Hidx). apply Hex. exists b. split; [|exact Hidx].
  apply deduplicateArticles_In, Hb.
Qed.

(** *** The flags as tests against the anchors *)

Lemma existsb_orb {A : Type} (f g : A -> bool) (l : list A) :
  existsb f l || existsb g l = existsb (fun x => f x || g x) l.
Proof.
  induction l as [|x l IH]; [reflexivity|]. simpl. rewrite <- IH.
  destruct (f x), (g x), (existsb f l), (existsb g l); reflexivity.
Qed.

Lemma existsb_map {A B : Type} (g : A -> B) (f : B -> bool) (l : list A) :
  existsb f (map g l) = existsb (fun x => f (g x)) l.
Proof. induction l as [|x l IH]; [reflexivity|]. simpl. rewrite IH. reflexivity. Qed.

Lemma existsb_false {A : Type} (f : A -> bool) (l : list A) :
  existsb f l = false <-> forall x, In x l -> f x = false.
Proof.
  induction l as [|y l IH]; simpl.
  - split; [intros _ x [] | reflexivity].
  - rewrite orb_false_iff, IH. split.
    + intros [Hy Hl] x [<-|Hx]; auto.
    + intros H. split; [apply H; left; reflexivity | intros x Hx; apply H; right; exact Hx].
Qed.

Lemma hashesAgree_step (st : DedupState) (index : nat) (y : Article) :
  hashesAgree st -> hashesAgree (dedupStep st index y).
Proof.
  unfold Dedup.hashesAgree. intros H.
  rewrite dedupStep_seenTitleHashes, dedupStep_processedTitles,
    titleStage_hashes, titleStage_titles, map_app, H. reflexivity.
Qed.

Lemma urlFlag_test (st : DedupState) (y : Article) :
  urlFlag st y
  = enableUrlDedup config && truthy (url y) && existsb (urlTest y) (seenUrls st).
Proof.
  unfold Dedup.urlFlag, Dedup.urlStage.
  destruct (enableUrlDedup config && truthy (url y)); [|reflexivity]. simpl.
  unfold Dedup.urlTest. rewrite <- existsb_orb. fold (has (normalizeUrl (url y)) (seenUrls st)).
  destruct (has _ _); [reflexivity|]. simpl.
  destruct (existsb _ _); reflexivity.
Qed.

Lemma titleFlag_test (st : DedupState) (y : Article) :
  hashesAgree st ->
  titleFlag st y
  = urlFlag st y
    || enableTitleDedup config && truthy (title y)
       && existsb (titleTest y) (processedTitles st).
Proof.
  unfold Dedup.hashesAgree, Dedup.titleFlag, Dedup.titleStage. intros ->.
  destruct (urlFlag st y); [reflexivity|]. simpl.
  destruct (enableTitleDedup config && truthy (title y)); [|reflexivity]. simpl.
  unfold Dedup.titleTest. rewrite <- existsb_orb, existsb_map.
  destruct (existsb _ _); [reflexivity|]. simpl.
  destruct (existsb _ _); reflexivity.
Qed.

Lemma contentFlag_test (st : DedupState) (y : Article) :
  contentFlag st y
  = titleFlag st y
    || enableContentDedup config && truthy (content y)
       && existsb (contentTest y) (uniqueArticles st).
Proof.
  unfold Dedup.contentFlag, Dedup.contentStage.
  destruct (titleFlag st y); [reflexivity|]. simpl.
  destruct (enableContentDedup config && truthy (content y)); reflexivity.
Qed.

(** *** Articles that share a normalized URL *)

Lemma existsb_mono {A : Type} (f : A -> bool) (l l' : list A) :
  (forall x, In x l -> In x l') -> existsb f l = true -> existsb f l' = true.
Proof.
  intros Hsub H. apply existsb_exists in H as (x & Hx & Hfx).
  apply existsb_exists. exists x. split; [apply Hsub, Hx | exact Hfx].
Qed.

(** Once the URL stage has seen an article, the URL test of that article
    succeeds on the anchors, whether the stage flagged it or recorded it. *)
Lemma urlTest_after_step (st : DedupState) (index : nat) (A : Article) :
  enableUrlDedup config = true ->
  truthy (url A) = true ->
  existsb (urlTest A) (seenUrls (dedupStep st index A)) = true.
Proof.
  intros Hen HA. destruct (urlFlag st A) eqn:HU.
  - rewrite urlFlag_test, Hen, HA in HU. simpl in HU.
    apply (existsb_mono _ (seenUrls st)); [|exact HU].
    intros u. apply dedupStep_seenUrls_mono.
  - apply existsb_exists. exists (normalizeUrl (url A)). split.
    + rewrite dedupStep_seenUrls, urlStage_anchors. fold (urlFlag st A). rewrite HU.
      apply in_or_app. right. unfold Dedup.urlAnchor. rewrite Hen, HA. left. reflexivity.
    + unfold Dedup.urlTest. rewrite String.eqb_refl. reflexivity.
Qed.

(** An article whose URL normalizes like the URL of an earlier article of
    the input is never accepted, whatever became of the earlier one. *)
Lemma later_same_url_rejected (l1 : list Article) (A : Article) (l2 : list Article)
      (B : Article) (l3 : list Article) :
  enableUrlDedup config = true ->
  truthy (url A) = true ->
  truthy (url B) = true ->
  normalizeUrl (url A) = normalizeUrl (url B) ->
  ~ acceptedAt (length l1 + 1 + length l2)
      (performDeduplication (l1 ++ A :: l2 ++ B :: l3)).
Proof.
  intros Hen HA HB Hsame.
  unfold Dedup.performDeduplication.
  rewrite dedupLoop_app. simpl.
  set (st1 := dedupLoop initialState 0 l1).
  rewrite dedupLoop_app. simpl.
  set (st2 := dedupStep st1 (length l1) A).
  set (st3 := dedupLoop st2 (S (length l1)) l2).
  set (j := (S (length l1) + length l2)%nat).
  set (st4 := dedupStep st3 j B).
  destruct (dedupLoop_unique initialState 0 (l1 ++ A :: l2)) as (added1 & E1 & H1).
  rewrite dedupLoop_app in E1. simpl in E1. fold st1 st2 st3 in E1.
  destruct (dedupLoop_unique st4 (S j) l3) as (added3 & E3 & H3).
  pose proof (dedupStep_uniqueArticles st3 j B) as EB. fold st4 in EB.
  assert (Hrejected : contentFlag st3 B = true).
  { apply contentFlag_of_urlFlag. rewrite urlFlag_test, Hen, HB. simpl.
    apply (existsb_mono _ (seenUrls st2));
      [intros u; apply dedupLoop_seenUrls_mono|].
    pose proof (urlTest_after_step st1 (length l1) A Hen HA) as Htest.
    fold st2 in Htest. unfold Dedup.urlTest in Htest |- *. rewrite <- Hsame. exact Htest. }
  rewrite Hrejected, app_nil_r in EB.
  rewrite List.Forall_forall in H1, H3.
  intros (b & Hb & Hidx).
  replace (length l1 + 1 + length l2)%nat with j in Hidx by (unfold j; lia).
  change (In b (uniqueArticles (dedupLoop st4 (S j) l3))) in Hb.
  rewrite E3, EB, E1 in Hb. simpl in Hb. apply in_app_or in Hb as [Hb|Hb].
  - apply H1 in Hb as (k & Hk & Hr). rewrite Hidx in Hk. injection Hk as <-.
    rewrite length_app in Hr. simpl in Hr. unfold j in Hr. lia.
  - apply H3 in Hb as (k & Hk & Hr). rewrite Hidx in Hk. injection Hk as <-. lia.
Qed.

(** C1 (as amended). Of the articles whose URLs normalize to one string,
    none but the first in input order can survive the pass, whatever the
    publication dates; and when such a cluster is the whole input, exactly
    one survivor is retained, the first member in input order. *)
Theorem C1_first_seen_member_survives :
  enableUrlDedup config = true ->
  (forall (l1 : list Article) (A : Article) (l2 : list Article) (B : Article)
          (l3 : list Article),
      truthy (url A) = true ->
      truthy (url B) = true ->
      normalizeUrl (url A) = normalizeUrl (url B) ->
      ~ acceptedAt (length l1 + 1 + length l2)
          (performDeduplication (l1 ++ A :: l2 ++ B :: l3)))
  /\ (forall (A : Article) (rest : list Article),
         (1 <= maxArticles config)%Z ->
         truthy (url A) = true ->
         Forall (fun B => truthy (url B) = true
                          /\ normalizeUrl (url B) = normalizeUrl (url A)) rest ->
         deduplicateArticles (A :: rest) = [withInfo 0 A]).
Proof.
  intros Hen. split.
  - intros l1 A l2 B l3. apply later_same_url_rejected, Hen.
  - intros A rest Hmax HA Hrest.
    assert (Hperform : performDeduplication (A :: rest) = [withInfo 0 A]).
    { unfold Dedup.performDeduplication. simpl.
      rewrite (dedupLoop_same_url_rejected (normalizeUrl (url A)) rest _ 1 Hen).
      - rewrite dedupStep_uniqueArticles, first_article_accepted. reflexivity.
      - apply accepted_leaves_url; [exact Hen | exact HA | apply first_article_accepted].
      - exact Hrest. }
    unfold Dedup.deduplicateArticles. rewrite Hperform.
    apply sliceTo_singleton, Hmax.
Qed.

(** *** The first pass keeps its survivors apart *)

Lemma FOP_snoc {A : Type} (R : A -> A -> Prop) (l : list A) (y : A) :
  ForallOrdPairs R l -> Forall (fun x => R x y) l -> ForallOrdPairs R (l ++ [y]).
Proof.
  induction 1 as [|x l Hx Hl IH]; intros Hy; simpl.
  - constructor; constructor.
  - inversion Hy as [|? ? Hxy Hly]; subst. constructor.
    + apply Forall_app. split; [exact Hx | constructor; [exact Hxy | constructor]].
    + apply IH, Hly.
Qed.

Lemma passInv_initial : passInv initialState.
Proof.
  split; simpl.
  - reflexivity.
  - constructor.
  - intros x u [].
  - intros x t [].
Qed.

(** An article that no stage flags is no duplicate of any article accepted
    before it. *)
Lemma unflagged_keptApart (st : DedupState) (y : Article) :
  passInv st ->
  contentFlag st y = false ->
  forall x, In x (uniqueArticles st) -> duplicateOf y x = false.
Proof.
  intros [Hh _ Hu Ht] Hflag x Hx.
  rewrite contentFlag_test, (titleFlag_test st y Hh), urlFlag_test in Hflag.
  apply orb_false_iff in Hflag as [Hflag HC].
  apply orb_false_iff in Hflag as [HU HT].
  unfold Dedup.duplicateOf, Dedup.urlDuplicate, Dedup.titleDuplicate, Dedup.contentDuplicate.
  fold (urlTest y (normalizeUrl (url x))).
  fold (titleTest y (normalizeTitle (title x))).
  fold (contentTest y x).
  rewrite !orb_false_iff. repeat split.
  - destruct (enableUrlDedup config) eqn:Hen; [|reflexivity].
    destruct (truthy (url y)); [|reflexivity].
    destruct (truthy (url x)) eqn:Hx'; [|reflexivity]. simpl in *.
    rewrite existsb_false in HU. apply HU, (Hu x); [exact Hx|].
    unfold Dedup.urlAnchor. rewrite Hen, Hx'. left. reflexivity.
  - destruct (enableTitleDedup config) eqn:Hen; [|reflexivity].
    destruct (truthy (title y)); [|reflexivity].
    destruct (truthy (title x)) eqn:Hx'; [|reflexivity]. simpl in *.
    rewrite existsb_false in HT. apply HT, (Ht x); [exact Hx|].
    unfold Dedup.titleAnchor. rewrite Hen, Hx'. left. reflexivity.
  - destruct (enableContentDedup config); [|reflexivity].
    destruct (truthy (content y)); [|reflexivity]. simpl in *.
    rewrite existsb_false in HC. apply HC, Hx.
Qed.

Lemma passInv_step (st : DedupState) (index : nat) (y : Article) :
  passInv st -> passInv (dedupStep st index y).
Proof.
  intros Hinv. pose proof Hinv as [Hh Hp Hu Ht].
  assert (Hurls : forall u, In u (seenUrls st) -> In u (seenUrls (dedupStep st index y)))
    by (intros u; apply dedupStep_seenUrls_mono).
  assert (Htitles : forall t, In t (processedTitles st) ->
                              In t (processedTitles (dedupStep st index y))).
  { intros t Hin. rewrite dedupStep_processedTitles, titleStage_titles.
    apply in_or_app. left. exact Hin. }
  split.
  - apply hashesAgree_step, Hh.
  - rewrite dedupStep_uniqueArticles.
    destruct (contentFlag st y) eqn:Hflag; [rewrite app_nil_r; exact Hp|].
    apply FOP_snoc; [exact Hp|].
    apply List.Forall_forall. intros x Hx.
    apply (unflagged_keptApart st y Hinv Hflag x Hx).
  - intros x u. rewrite dedupStep_uniqueArticles, in_app_iff. intros [Hx|Hx] Hin.
    + apply Hurls, (Hu x); assumption.
    + destruct (contentFlag st y) eqn:Hflag; [destruct Hx|].
      destruct Hx as [<-|[]].
      rewrite dedupStep_seenUrls, urlStage_anchors. fold (urlFlag st y).
      destruct (urlFlag st y) eqn:HU;
        [apply contentFlag_of_urlFlag in HU; congruence|].
      apply in_or_app. right. exact Hin.
  - intros x t. rewrite dedupStep_uniqueArticles, in_app_iff. intros [Hx|Hx] Hin.
    + apply Htitles, (Ht x); assumption.
    + destruct (contentFlag st y) eqn:Hflag; [destruct Hx|].
      destruct Hx as [<-|[]].
      rewrite dedupStep_processedTitles, titleStage_titles. fold (titleFlag st y).
      destruct (titleFlag st y) eqn:HT;
        [apply titleFlag_contentFlag in HT; congruence|].
      apply in_or_app. right. exact Hin.
Qed.

Lemma passInv_loop (l : list Article) (st : DedupState) (index : nat) :
  passInv st -> passInv (dedupLoop st index l).
Proof.
  revert st index. induction l as [|y l IH]; intros st index Hinv; simpl; [exact Hinv|].
  apply IH, passInv_step, Hinv.
Qed.

(** C5 (as amended). In one iteration of the pass, the normalized URL of the
    article is recorded as an anchor exactly when the URL stage does not
    flag it, and its normalized title, with its hash, exactly when the title
    stage does not flag it, whatever the later stages decide; the article is
    accepted when the content stage leaves it unflagged, and a flag raised
    by one stage stays raised in the next. After a pass, the normalized URL
    and title of every accepted article are among the anchors. *)
Theorem C5_anchors_recorded_stage_by_stage
        (st : DedupState) (index : nat) (y : Article) (input : list Article) :
  let st' := dedupStep st index y in
  let final := dedupLoop initialState 0 input in
  seenUrls st' = seenUrls st ++ (if urlFlag st y then [] else urlAnchor y)
  /\ processedTitles st'
     = processedTitles st ++ (if titleFlag st y then [] else titleAnchor y)
  /\ seenTitleHashes st'
     = seenTitleHashes st
       ++ map simpleHash (if titleFlag st y then [] else titleAnchor y)
  /\ uniqueArticles st'
     = uniqueArticles st ++ (if contentFlag st y then [] else [withInfo index y])
  /\ (urlFlag st y = true -> titleFlag st y = true)
  /\ (titleFlag st y = true -> contentFlag st y = true)
  /\ (forall x, In x (uniqueArticles final) ->
                (forall u, In u (urlAnchor x) -> In u (seenUrls final))
                /\ (forall t, In t (titleAnchor x) -> In t (processedTitles final))).
Proof.
  intros st' final. unfold st'.
  split; [|split; [|split; [|split; [|split; [|split]]]]].
  - rewrite dedupStep_seenUrls. apply urlStage_anchors.
  - rewrite dedupStep_processedTitles. apply titleStage_titles.
  - rewrite dedupStep_seenTitleHashes. apply titleStage_hashes.
  - apply dedupStep_uniqueArticles.
  - apply urlFlag_titleFlag.
  - apply titleFlag_contentFlag.
  - pose proof (passInv_loop input initialState 0 passInv_initial) as [_ _ Hurls Htitles].
    intros x Hx. split.
    + intros u. apply Hurls, Hx.
    + intros t. apply Htitles, Hx.
Qed.

(** In the output of a pass, no article is a duplicate of an earlier one. *)
Lemma performDeduplication_keptApart (input : list Article) :
  ForallOrdPairs keptApart (performDeduplication input).
Proof. apply (passInv_loop input initialState 0 passInv_initial). Qed.

(** X5. No survivor of a pass is a duplicate, by the tests of the three
    stages, of a survivor that precedes it; and the first article of the
    input always survives the pass. *)
Theorem survivors_are_kept_apart (input : list Article) :
  ForallOrdPairs keptApart (performDeduplication input)
  /\ (forall y rest, input = y :: rest ->
                     exists others, performDeduplication input = withInfo 0 y :: others).
Proof.
  split; [apply performDeduplication_keptApart|].
  intros y rest ->. unfold Dedup.performDeduplication. simpl.
  destruct (dedupLoop_unique (dedupStep initialState 0 y) 1 rest) as (added & E & _).
  rewrite E, dedupStep_uniqueArticles, first_article_accepted. simpl.
  exists added. reflexivity.
Qed.

(** *** Being a duplicate is symmetric *)

Lemma urlDuplicate_swap (y x : Article) : urlDuplicate y x = urlDuplicate x y.
Proof.
  unfold Dedup.urlDuplicate.
  rewrite (string_eqb_swap (normalizeUrl (url y))),
    (calculateUrlSimilarity_swap (normalizeUrl (url y))).
  destruct (enableUrlDedup config), (truthy (url y)), (truthy (url x)); reflexivity.
Qed.

Lemma titleDuplicate_swap (y x : Article) : titleDuplicate y x = titleDuplicate x y.
Proof.
  unfold Dedup.titleDuplicate.
  rewrite (Z.eqb_sym (simpleHash (normalizeTitle (title y)))),
    (calculateTitleSimilarity_swap (normalizeTitle (title y))).
  destruct (enableTitleDedup config), (truthy (title y)), (truthy (title x)); reflexivity.
Qed.

Lemma calculateContentSimilarity_empty_r (a : string) :
  calculateContentSimilarity a "" = 0%Q.
Proof. unfold calculateContentSimilarity. rewrite orb_true_r. reflexivity. Qed.

Lemma normalizeContent_truthy (c : string) :
  normalizeContent c <> "" -> truthy c = true.
Proof. unfold normalizeContent. destruct (truthy c); simpl; congruence. Qed.

Lemma contentDuplicate_swap_true (y x : Article) :
  contentThresholdOk -> contentDuplicate y x = true -> contentDuplicate x y = true.
Proof.
  unfold Dedup.contentDuplicate, Dedup.contentThresholdOk. intros Hok H.
  apply andb_true_iff in H as [H Hsim]. apply andb_true_iff in H as [Hen Hy].
  destruct Hok as [Hoff|Hpos]; [congruence|].
  rewrite Hen. simpl.
  rewrite (calculateContentSimilarity_swap (normalizeContent (content x))), Hsim.
  rewrite andb_true_r. apply normalizeContent_truthy. intros Hempty.
  rewrite Hempty, calculateContentSimilarity_empty_r in Hsim.
  apply Qle_bool_iff in Hsim. lra.
Qed.

Lemma contentDuplicate_swap (y x : Article) :
  contentThresholdOk -> contentDuplicate y x = contentDuplicate x y.
Proof.
  intros Hok.
  destruct (contentDuplicate y x) eqn:H1, (contentDuplicate x y) eqn:H2; try reflexivity.
  - apply (contentDuplicate_swap_true y x Hok) in H1. congruence.
  - apply (contentDuplicate_swap_true x y Hok) in H2. congruence.
Qed.

Lemma duplicateOf_swap (y x : Article) :
  contentThresholdOk -> duplicateOf y x = duplicateOf x y.
Proof.
  intros Hok. unfold Dedup.duplicateOf.
  rewrite urlDuplicate_swap, titleDuplicate_swap, (contentDuplicate_swap y x Hok).
  reflexivity.
Qed.

Lemma keptApart_swap (x y : Article) :
  contentThresholdOk -> keptApart x y -> keptApart y x.
Proof. unfold Dedup.keptApart. intros Hok H. rewrite duplicateOf_swap; assumption. Qed.

(** *** A pass over articles that are kept apart accepts them all *)

Lemma state_eq (s t : DedupState) :
  uniqueArticles s = uniqueArticles t ->
  seenUrls s = seenUrls t ->
  seenTitleHashes s = seenTitleHashes t ->
  processedTitles s = processedTitles t ->
  s = t.
Proof. destruct s, t. simpl. intros -> -> -> ->. reflexivity. Qed.

Lemma In_imap {A B : Type} (f : nat -> A -> B) (l : list A) (z : B) :
  In z (imap f l) -> exists i x, In x l /\ z = f i x.
Proof.
  revert f. induction l as [|a l IH]; intros f; simpl; [intros []|].
  intros [<-|H].
  - exists 0%nat, a. split; [left|]; reflexivity.
  - destruct (IH _ H) as (i & x & Hx & ->). exists (S i), x. split; [right; exact Hx | reflexivity].
Qed.

Lemma acceptedState_unflagged (accepted : list Article) (y : Article) :
  Forall (fun x => keptApart x y) accepted ->
  contentFlag (acceptedState accepted) y = false.
Proof.
  intros Hall. rewrite List.Forall_forall in Hall.
  assert (Hdup : forall x, In x accepted ->
                   urlDuplicate y x = false /\ titleDuplicate y x = false
                   /\ contentDuplicate y x = false).
  { intros x Hx. specialize (Hall x Hx). unfold Dedup.keptApart, Dedup.duplicateOf in Hall.
    rewrite !orb_false_iff in Hall. tauto. }
  rewrite contentFlag_test, titleFlag_test, urlFlag_test by reflexivity.
  rewrite !orb_false_iff. repeat split.
  - destruct (enableUrlDedup config) eqn:Hen; [|reflexivity].
    destruct (truthy (url y)) eqn:Hy; [|reflexivity]. simpl.
    apply existsb_false. intros u Hin. apply in_flat_map in Hin as (x & Hx & Hu).
    unfold Dedup.urlAnchor in Hu. rewrite Hen in Hu.
    destruct (truthy (url x)) eqn:Hx'; simpl in Hu; [|destruct Hu].
    destruct Hu as [<-|[]]. destruct (Hdup x Hx) as (HU & _ & _).
    unfold Dedup.urlDuplicate in HU. rewrite Hen, Hy, Hx' in HU. exact HU.
  - destruct (enableTitleDedup config) eqn:Hen; [|reflexivity].
    destruct (truthy (title y)) eqn:Hy; [|reflexivity]. simpl.
    apply existsb_false. intros t Hin. apply in_flat_map in Hin as (x & Hx & Ht).
    unfold Dedup.titleAnchor in Ht. rewrite Hen in Ht.
    destruct (truthy (title x)) eqn:Hx'; simpl in Ht; [|destruct Ht].
    destruct Ht as [<-|[]]. destruct (Hdup x Hx) as (_ & HT & _).
    unfold Dedup.titleDuplicate in HT. rewrite Hen, Hy, Hx' in HT. exact HT.
  - destruct (enableContentDedup config) eqn:Hen; [|reflexivity].
    destruct (truthy (content y)) eqn:Hy; [|reflexivity]. simpl.
    apply existsb_false. intros z Hin. apply In_imap in Hin as (i & x & Hx & ->).
    destruct (Hdup x Hx) as (_ & _ & HC).
    unfold Dedup.contentDuplicate in HC. rewrite Hen, Hy in HC. exact HC.
Qed.

Lemma acceptedState_step (accepted : list Article) (y : Article) :
  Forall (fun x => keptApart x y) accepted ->
  dedupStep (acceptedState accepted) (length accepted) y = acceptedState (accepted ++ [y]).
Proof.
  intros Hall. pose proof (acceptedState_unflagged accepted y Hall) as HC.
  assert (HT : titleFlag (acceptedState accepted) y = false).
  { destruct (titleFlag (acceptedState accepted) y) eqn:E; [|reflexivity].
    apply titleFlag_contentFlag in E. congruence. }
  assert (HU : urlFlag (acceptedState accepted) y = false).
  { destruct (urlFlag (acceptedState accepted) y) eqn:E; [|reflexivity].
    apply urlFlag_titleFlag in E. congruence. }
  apply state_eq.
  - rewrite dedupStep_uniqueArticles, HC. simpl.
    rewrite imap_app. simpl. rewrite Nat.add_0_r. reflexivity.
  - rewrite dedupStep_seenUrls, urlStage_anchors.
    fold (urlFlag (acceptedState accepted) y). rewrite HU. simpl.
    rewrite flat_map_app. simpl. rewrite app_nil_r. reflexivity.
  - rewrite dedupStep_seenTitleHashes, titleStage_hashes.
    fold (titleFlag (acceptedState accepted) y). rewrite HT. simpl.
    rewrite flat_map_app, map_app. simpl. rewrite app_nil_r. reflexivity.
  - rewrite dedupStep_processedTitles, titleStage_titles.
    fold (titleFlag (acceptedState accepted) y). rewrite HT. simpl.
    rewrite flat_map_app. simpl. rewrite app_nil_r. reflexivity.
Qed.

Lemma dedupLoop_all_accepted (l accepted : list Article) :
  Forall (fun x => Forall (keptApart x) l) accepted ->
  ForallOrdPairs keptApart l ->
  dedupLoop (acceptedState accepted) (length accepted) l = acceptedState (accepted ++ l).
Proof.
  revert accepted. induction l as [|y l IH]; intros accepted Hacc Hl; simpl.
  - rewrite app_nil_r. reflexivity.
  - inversion Hl as [|? ? Hy Hl']; subst.
    rewrite acceptedState_step.
    + replace (S (length accepted)) with (length (accepted ++ [y]))
        by (rewrite length_app; simpl; lia).
      rewrite IH; [rewrite <- app_assoc; reflexivity | | exact Hl'].
      apply Forall_app. split.
      * eapply Forall_impl; [exact Hacc|]. intros x Hx.
        inversion Hx; assumption.
      * constructor; [exact Hy | constructor].
    + eapply Forall_impl; [exact Hacc|]. intros x Hx. inversion Hx; assumption.
Qed.

(** On articles none of which is a duplicate of an earlier one, the pass
    returns them all, in order, each with the metadata of its position. *)
Lemma performDeduplication_keptApart_all (l : list Article) :
  ForallOrdPairs keptApart l -> performDeduplication l = reindex l.
Proof.
  intros Hl. unfold Dedup.performDeduplication.
  pose proof (dedupLoop_all_accepted l [] (List.Forall_nil _) Hl) as H.
  change (dedupLoop initialState 0 l = acceptedState l) in H.
  rewrite H. reflexivity.
Qed.

(** *** Running the deduplicator on its own output *)

Lemma newerOrSame_total (x y : Article) : newerOrSame x y = false -> newerOrSame y x = true.
Proof.
  unfold newerOrSame. destruct (publishedAt x), (publishedAt y); try congruence.
  intros H. apply Z.leb_gt in H. apply Z.leb_le. lia.
Qed.

Lemma withoutInfo_imap (f : nat -> Article -> Article) (l : list Article) :
  (forall i x, withoutInfo (f i x) = withoutInfo x) ->
  map withoutInfo (imap f l) = map withoutInfo l.
Proof.
  revert f. induction l as [|a l IH]; intros f Hf; simpl; [reflexivity|].
  rewrite Hf, IH; [reflexivity|]. intros i x. apply Hf.
Qed.

Lemma withoutInfo_reindex (l : list Article) :
  map withoutInfo (reindex l) = map withoutInfo l.
Proof. apply withoutInfo_imap. reflexivity. Qed.

(** The empty input included, the output is the pass, sorted and cut. *)
Lemma deduplicateArticles_unfold (input : list Article) :
  deduplicateArticles input
  = sliceTo (maxArticles config) (sortBy newerOrSame (performDeduplication input)).
Proof.
  destruct input as [|a input]; [|reflexivity].
  unfold sliceTo. simpl. rewrite take_nil. reflexivity.
Qed.

(** A list that is kept apart, in date order and within [maxArticles] comes
    back from the deduplicator with fresh metadata and no other change. *)
Lemma deduplicateArticles_fixed (l : list Article) :
  ForallOrdPairs keptApart l ->
  inOrder newerOrSame l ->
  (Z.of_nat (length l) <= maxArticles config)%Z ->
  deduplicateArticles l = reindex l.
Proof.
  intros Hpairs Hsorted Hlen.
  rewrite deduplicateArticles_unfold, (performDeduplication_keptApart_all l Hpairs).
  rewrite sortBy_inOrder_fixed.
  - unfold sliceTo. apply take_ge. unfold Dedup.reindex. rewrite length_imap.
    destruct (Z.ltb_spec (maxArticles config) 0); lia.
  - apply inOrder_imap; [|exact Hsorted]. reflexivity.
Qed.

(** C6 (as amended). With a non-negative [maxArticles], a positive content
    threshold (or content deduplication off) and valid publication dates, a
    second run of the deduplicator on its own output returns the same
    articles in the same order; each article's [deduplicationInfo] is
    written again, with its position in the second input as
    [originalIndex]. *)
Theorem C6_second_run_keeps_the_articles (input : list Article) :
  (0 <= maxArticles config)%Z ->
  contentThresholdOk ->
  Forall (fun a => publishedAt a <> None) input ->
  let once := deduplicateArticles input in
  deduplicateArticles once = reindex once
  /\ map withoutInfo (deduplicateArticles once) = map withoutInfo once.
Proof.
  intros Hmax Hok _ once.
  assert (Hmain : deduplicateArticles once = reindex once).
  { unfold once. rewrite (deduplicateArticles_unfold input).
    apply deduplicateArticles_fixed.
    - apply FOP_take, FOP_sortBy.
      + intros x y. apply keptApart_swap, Hok.
      + apply performDeduplication_keptApart.
    - apply inOrder_take, sortBy_inOrder, newerOrSame_total.
    - apply sliceTo_length, Hmax. }
  split; [exact Hmain|].
  rewrite Hmain. apply withoutInfo_reindex.
Qed.


(** *** What the pass keeps and what it drops *)

Lemma imap_shift (f : nat -> Article -> Article) (index : nat) (l : list Article) :
  imap (fun k => f (S index + k)%nat) l = imap (fun k => f (index + S k)%nat) l.
Proof. apply imap_ext. intros k x _. f_equal. lia. Qed.

(** The articles added by a stretch of the loop are articles of that
    stretch, in their order and each with its position. *)
Lemma dedupLoop_sublist (st : DedupState) (index : nat) (l : list Article) :
  exists added,
    uniqueArticles (dedupLoop st index l) = uniqueArticles st ++ added
    /\ sublist added (imap (fun k => withInfo (index + k)) l).
Proof.
  revert st index. induction l as [|y l IH]; intros st index; simpl.
  - exists []. split; [symmetry; apply app_nil_r | constructor].
  - destruct (IH (dedupStep st index y) (S index)) as (added & Heq & Hsub).
    rewrite dedupStep_uniqueArticles in Heq.
    exists ((if contentFlag st y then [] else [withInfo index y]) ++ added).
    split; [rewrite Heq; symmetry; apply app_assoc|].
    rewrite Nat.add_0_r. unfold compose.
    rewrite imap_shift in Hsub.
    destruct (contentFlag st y); simpl.
    + apply sublist_cons, Hsub.
    + apply sublist_skip, Hsub.
Qed.

Lemma performDeduplication_sublist (input : list Article) :
  sublist (performDeduplication input) (reindex input).
Proof.
  destruct (dedupLoop_sublist initialState 0 input) as (added & Heq & Hsub).
  unfold Dedup.performDeduplication. rewrite Heq. exact Hsub.
Qed.

(** Every anchor of a state reached from the articles [earlier] comes from
    one of them, and every accepted article is one of them. *)
Lemma sourced_step (earlier : list Article) (st : DedupState) (index : nat) (y : Article) :
  (forall u, In u (seenUrls st) -> exists x, In x earlier /\ In u (urlAnchor x)) ->
  (forall t, In t (processedTitles st) -> exists x, In x earlier /\ In t (titleAnchor x)) ->
  (forall a, In a (uniqueArticles st) -> exists x, In x earlier /\ content a = content x) ->
  let st' := dedupStep st index y in
  (forall u, In u (seenUrls st') -> exists x, In x (earlier ++ [y]) /\ In u (urlAnchor x))
  /\ (forall t, In t (processedTitles st') ->
                exists x, In x (earlier ++ [y]) /\ In t (titleAnchor x))
  /\ (forall a, In a (uniqueArticles st') ->
                exists x, In x (earlier ++ [y]) /\ content a = content x).
Proof.
  intros HU HT HA st'. unfold st'. split; [|split].
  - intros u. rewrite dedupStep_seenUrls, urlStage_anchors, in_app_iff.
    intros [Hu|Hu].
    + destruct (HU u Hu) as (x & Hx & Hin). exists x. split; [|exact Hin].
      apply in_or_app. left. exact Hx.
    + exists y. split; [apply in_or_app; right; left; reflexivity|].
      destruct (fst (urlStage (seenUrls st) y)); [destruct Hu | exact Hu].
  - intros t. rewrite dedupStep_processedTitles, titleStage_titles, in_app_iff.
    intros [Ht|Ht].
    + destruct (HT t Ht) as (x & Hx & Hin). exists x. split; [|exact Hin].
      apply in_or_app. left. exact Hx.
    + exists y. split; [apply in_or_app; right; left; reflexivity|].
      destruct (fst (fst (titleStage _ _ _ y))); [destruct Ht | exact Ht].
  - intros a. rewrite dedupStep_uniqueArticles, in_app_iff.
    intros [Ha|Ha].
    + destruct (HA a Ha) as (x & Hx & Hin). exists x. split; [|exact Hin].
      apply in_or_app. left. exact Hx.
    + exists y. split; [apply in_or_app; right; left; reflexivity|].
      destruct (contentFlag st y); [destruct Ha|].
      destruct Ha as [<-|[]]. reflexivity.
Qed.

Lemma sourced_loop (l earlier : list Article) (st : DedupState) (index : nat) :
  (forall u, In u (seenUrls st) -> exists x, In x earlier /\ In u (urlAnchor x)) ->
  (forall t, In t (processedTitles st) -> exists x, In x earlier /\ In t (titleAnchor x)) ->
  (forall a, In a (uniqueArticles st) -> exists x, In x earlier /\ content a = content x) ->
  let st' := dedupLoop st index l in
  (forall u, In u (seenUrls st') -> exists x, In x (earlier ++ l) /\ In u (urlAnchor x))
  /\ (forall t, In t (processedTitles st') ->
                exists x, In x (earlier ++ l) /\ In t (titleAnchor x))
  /\ (forall a, In a (uniqueArticles st') ->
                exists x, In x (earlier ++ l) /\ content a = content x).
Proof.
  revert earlier st index. induction l as [|y l IH]; intros earlier st index HU HT HA.
  - simpl. rewrite app_nil_r. auto.
  - simpl. destruct (sourced_step earlier st index y HU HT HA) as (HU' & HT' & HA').
    specialize (IH (earlier ++ [y]) (dedupStep st index y) (S index) HU' HT' HA').
    rewrite <- app_assoc in IH. exact IH.
Qed.

(** An article that a stage flags is a duplicate, by the test of that
    stage, of one of the articles that left the anchors. *)
Lemma flagged_is_duplicate (earlier : list Article) (st : DedupState) (y : Article) :
  hashesAgree st ->
  (forall u, In u (seenUrls st) -> exists x, In x earlier /\ In u (urlAnchor x)) ->
  (forall t, In t (processedTitles st) -> exists x, In x earlier /\ In t (titleAnchor x)) ->
  (forall a, In a (uniqueArticles st) -> exists x, In x earlier /\ content a = content x) ->
  contentFlag st y = true ->
  exists x, In x earlier /\ duplicateOf y x = true.
Proof.
  intros Hh HU HT HA Hflag.
  rewrite contentFlag_test, (titleFlag_test st y Hh), urlFlag_test in Hflag.
  unfold Dedup.duplicateOf, Dedup.urlDuplicate, Dedup.titleDuplicate, Dedup.contentDuplicate.
  apply orb_true_iff in Hflag as [Hflag|Hflag];
    [apply orb_true_iff in Hflag as [Hflag|Hflag]|].
  - apply andb_true_iff in Hflag as [Hen Hex].
    apply andb_true_iff in Hen as [Hen Hy].
    apply existsb_exists in Hex as (u & Hu & Htest).
    destruct (HU u Hu) as (x & Hx & Hin). exists x. split; [exact Hx|].
    unfold Dedup.urlAnchor in Hin. rewrite Hen in Hin. simpl in Hin.
    destruct (truthy (url x)); [|destruct Hin]. destruct Hin as [<-|[]].
    rewrite Hen, Hy. simpl. unfold Dedup.urlTest in Htest. rewrite Htest. reflexivity.
  - apply andb_true_iff in Hflag as [Hen Hex].
    apply andb_true_iff in Hen as [Hen Hy].
    apply existsb_exists in Hex as (t & Ht & Htest).
    destruct (HT t Ht) as (x & Hx & Hin). exists x. split; [exact Hx|].
    unfold Dedup.titleAnchor in Hin. rewrite Hen in Hin. simpl in Hin.
    destruct (truthy (title x)); [|destruct Hin]. destruct Hin as [<-|[]].
    rewrite Hen, Hy. simpl. unfold Dedup.titleTest in Htest. rewrite Htest.
    apply orb_true_iff. left. apply orb_true_r.
  - apply andb_true_iff in Hflag as [Hen Hex].
    apply andb_true_iff in Hen as [Hen Hy].
    apply existsb_exists in Hex as (a & Ha & Htest).
    destruct (HA a Ha) as (x & Hx & Hc). exists x. split; [exact Hx|].
    rewrite Hen, Hy. simpl. unfold Dedup.contentTest in Htest. rewrite Hc in Htest.
    rewrite Htest. apply orb_true_r.
Qed.

Lemma dropped_is_duplicate (l1 : list Article) (y : Article) (l2 : list Article) :
  In (withInfo (length l1) y) (performDeduplication (l1 ++ y :: l2))
  \/ exists x, In x l1 /\ duplicateOf y x = true.
Proof.
  unfold Dedup.performDeduplication. rewrite dedupLoop_app. simpl.
  set (st1 := dedupLoop initialState 0 l1).
  destruct (contentFlag st1 y) eqn:Hflag.
  - right.
    destruct (sourced_loop l1 [] initialState 0) as (HU & HT & HA);
      try (intros ? []).
    apply (flagged_is_duplicate l1 st1 y); try assumption.
    apply (passInv_loop l1 initialState 0 passInv_initial).
  - left.
    destruct (dedupLoop_unique (dedupStep st1 (length l1) y) (S (length l1)) l2)
      as (added & Heq & _).
    rewrite Heq, dedupStep_uniqueArticles, Hflag.
    apply in_or_app. left. apply in_or_app. right. left. reflexivity.
Qed.

(** X9. The pass removes articles and does nothing else: its output is the
    input, each article stamped with its position, with some articles left
    out and the others in their input order. An article is left out only
    when it is a duplicate, by the test of one of the stages, of an article
    that precedes it in the input. *)
Theorem performDeduplication_drops_only_duplicates (input : list Article) :
  sublist (performDeduplication input) (reindex input)
  /\ (length (performDeduplication input) <= length input)%nat
  /\ (forall l1 y l2,
         input = l1 ++ y :: l2 ->
         In (withInfo (length l1) y) (performDeduplication input)
         \/ exists x, In x l1 /\ duplicateOf y x = true).
Proof.
  split; [apply performDeduplication_sublist|]. split.
  - pose proof (sublist_length _ _ (performDeduplication_sublist input)) as H.
    unfold Dedup.reindex in H. rewrite length_imap in H. exact H.
  - intros l1 y l2 ->. apply dropped_is_duplicate.
Qed.

(** *** An article that comes twice *)

Lemma dedupStep_processedTitles_mono (st : DedupState) (index : nat) (y : Article)
      (t : string) :
  In t (processedTitles st) -> In t (processedTitles (dedupStep st index y)).
Proof.
  intros Hin. rewrite dedupStep_processedTitles, titleStage_titles.
  apply in_or_app. left. exact Hin.
Qed.

Lemma dedupLoop_processedTitles_mono (st : DedupState) (index : nat) (l : list Article)
      (t : string) :
  In t (processedTitles st) -> In t (processedTitles (dedupLoop st index l)).
Proof.
  revert st index. induction l as [|y l IH]; intros st index Hin; simpl; [assumption|].
  apply IH, dedupStep_processedTitles_mono, Hin.
Qed.

(** Once the title stage has seen an article, the title test of that
    article succeeds on the anchors, whether the stage flagged it or
    recorded it. *)
Lemma titleTest_after_step (st : DedupState) (index : nat) (A : Article) :
  hashesAgree st ->
  enableTitleDedup config = true ->
  truthy (title A) = true ->
  urlFlag st A = false ->
  existsb (titleTest A) (processedTitles (dedupStep st index A)) = true.
Proof.
  intros Hh Hen HA HU. destruct (titleFlag st A) eqn:HT.
  - rewrite (titleFlag_test st A Hh), HU, Hen, HA in HT. simpl in HT.
    apply (existsb_mono _ (processedTitles st)); [|exact HT].
    intros t. apply dedupStep_processedTitles_mono.
  - apply existsb_exists. exists (normalizeTitle (title A)). split.
    + rewrite dedupStep_processedTitles, titleStage_titles. fold (urlFlag st A).
      fold (titleFlag st A). rewrite HT.
      apply in_or_app. right. unfold Dedup.titleAnchor. rewrite Hen, HA. left. reflexivity.
    + unfold Dedup.titleTest. rewrite Z.eqb_refl. reflexivity.
Qed.

(** An article that the loop flags is not in the output. *)
Lemma flagged_not_accepted (l1 : list Article) (B : Article) (l3 : list Article) :
  contentFlag (dedupLoop initialState 0 l1) B = true ->
  ~ acceptedAt (length l1) (performDeduplication (l1 ++ B :: l3)).
Proof.
  intros Hflag. unfold Dedup.performDeduplication. rewrite dedupLoop_app. simpl.
  set (st1 := dedupLoop initialState 0 l1) in *.
  set (st2 := dedupStep st1 (length l1) B).
  destruct (dedupLoop_unique initialState 0 l1) as (added1 & E1 & H1).
  fold st1 in E1. simpl in E1.
  destruct (dedupLoop_unique st2 (S (length l1)) l3) as (added3 & E3 & H3).
  pose proof (dedupStep_uniqueArticles st1 (length l1) B) as EB. fold st2 in EB.
  rewrite Hflag, app_nil_r in EB.
  rewrite List.Forall_forall in H1, H3.
  intros (b & Hb & Hidx).
  rewrite E3, EB, E1 in Hb. apply in_app_or in Hb as [Hb|Hb].
  - apply H1 in Hb as (k & Hk & Hr). rewrite Hidx in Hk. injection Hk as <-. lia.
  - apply H3 in Hb as (k & Hk & Hr). rewrite Hidx in Hk. injection Hk as <-. lia.
Qed.

Lemma repeated_article_flagged (l1 : list Article) (A : Article) (l2 : list Article)
      (B : Article) :
  url B = url A ->
  title B = title A ->
  enableUrlDedup config && truthy (url A) || enableTitleDedup config && truthy (title A)
  = true ->
  contentFlag (dedupLoop initialState 0 (l1 ++ A :: l2)) B = true.
Proof.
  intros Hurl Htitle Hstage. rewrite dedupLoop_app. simpl.
  set (st1 := dedupLoop initialState 0 l1).
  set (st2 := dedupStep st1 (length l1) A).
  set (st3 := dedupLoop st2 (S (length l1)) l2).
  assert (Hh1 : hashesAgree st1) by apply (passInv_loop l1 initialState 0 passInv_initial).
  assert (Hh3 : hashesAgree st3).
  { apply passInv_loop, passInv_step, passInv_loop, passInv_initial. }
  destruct (enableUrlDedup config && truthy (url A)) eqn:HstageU.
  - apply andb_true_iff in HstageU as [Hen HA].
    apply contentFlag_of_urlFlag. rewrite urlFlag_test, Hen, Hurl, HA. simpl.
    apply (existsb_mono _ (seenUrls st2));
      [intros u; apply dedupLoop_seenUrls_mono|].
    pose proof (urlTest_after_step st1 (length l1) A Hen HA) as Htest.
    fold st2 in Htest. unfold Dedup.urlTest in Htest |- *. rewrite Hurl. exact Htest.
  - simpl in Hstage. apply andb_true_iff in Hstage as [Hen HA].
    apply titleFlag_contentFlag.
    rewrite (titleFlag_test st3 B Hh3), Hen, Htitle, HA. simpl.
    apply orb_true_iff. right.
    apply (existsb_mono _ (processedTitles st2));
      [intros t; apply dedupLoop_processedTitles_mono|].
    assert (HU : urlFlag st1 A = false).
    { rewrite urlFlag_test, HstageU. reflexivity. }
    pose proof (titleTest_after_step st1 (length l1) A Hh1 Hen HA HU) as Htest.
    fold st2 in Htest. unfold Dedup.titleTest in Htest |- *. rewrite Htitle. exact Htest.
Qed.

(** X10. An article that comes a second time never reaches the output: when
    an article of the input has the URL and the title of an article that
    precedes it, and URL deduplication applies to them (it is on and the URL
    is not empty) or title deduplication does, the pass leaves the later one
    out, whatever became of the earlier one. *)
Theorem repeated_article_is_dropped (l1 : list Article) (A : Article) (l2 : list Article)
        (B : Article) (l3 : list Article) :
  url B = url A ->
  title B = title A ->
  enableUrlDedup config && truthy (url A) || enableTitleDedup config && truthy (title A)
  = true ->
  ~ acceptedAt (length l1 + 1 + length l2)
      (performDeduplication (l1 ++ A :: l2 ++ B :: l3)).
Proof.
  intros Hurl Htitle Hstage.
  pose proof (repeated_article_flagged l1 A l2 B Hurl Htitle Hstage) as Hflag.
  apply (flagged_not_accepted (l1 ++ A :: l2) B l3) in Hflag.
  rewrite length_app in Hflag. simpl in Hflag.
  replace (length l1 + 1 + length l2)%nat with (length l1 + S (length l2))%nat by lia.
  rewrite <- app_assoc in Hflag. exact Hflag.
Qed.

(** *** Articles that no stage examines *)

Lemma unexamined_unflagged (st : DedupState) (y : Article) :
  enableUrlDedup config && truthy (url y) = false ->
  enableTitleDedup config && truthy (title y) = false ->
  enableContentDedup config && truthy (content y) = false ->
  contentFlag st y = false.
Proof.
  intros HU HT HC.
  unfold Dedup.contentFlag, Dedup.contentStage, Dedup.titleFlag, Dedup.titleStage,
    Dedup.urlFlag, Dedup.urlStage.
  rewrite HU. simpl. rewrite HT. simpl. rewrite HC. reflexivity.
Qed.

Lemma dedupLoop_unexamined (l : list Article) (st : DedupState) (index : nat) :
  Forall (fun y => enableUrlDedup config && truthy (url y) = false
                   /\ enableTitleDedup config && truthy (title y) = false
                   /\ enableContentDedup config && truthy (content y) = false) l ->
  uniqueArticles (dedupLoop st index l)
  = uniqueArticles st ++ imap (fun k => withInfo (index + k)) l.
Proof.
  intros Hall. revert st index.
  induction Hall as [|y l (HU & HT & HC) _ IH]; intros st index; simpl.
  - symmetry. apply app_nil_r.
  - rewrite IH, dedupStep_uniqueArticles, (unexamined_unflagged st y HU HT HC).
    rewrite imap_shift, <- app_assoc. simpl. rewrite Nat.add_0_r. reflexivity.
Qed.

(** X11. What no stage examines is kept: when, for every article of the
    input, each of the three stages is switched off or finds its field (the
    URL, the title, the content) empty, the pass returns the whole input, in
    order, each article stamped with its position. In particular the pass
    drops nothing when the three stages are switched off. *)
Theorem unexamined_articles_are_kept (input : list Article) :
  Forall (fun y => enableUrlDedup config && truthy (url y) = false
                   /\ enableTitleDedup config && truthy (title y) = false
                   /\ enableContentDedup config && truthy (content y) = false) input ->
  performDeduplication input = reindex input.
Proof.
  intros Hall. unfold Dedup.performDeduplication.
  rewrite (dedupLoop_unexamined input initialState 0 Hall). reflexivity.
Qed.

(** *** The order and the size of the output *)

Lemma newerOrSame_trans (x y z : Article) :
  publishedAt x <> None -> publishedAt y <> None -> publishedAt z <> None ->
  newerOrSame x y = true -> newerOrSame y z = true -> newerOrSame x z = true.
Proof.
  unfold newerOrSame.
  destruct (publishedAt x), (publishedAt y), (publishedAt z); try congruence.
  intros _ _ _ Hxy Hyz. apply Z.leb_le in Hxy, Hyz. apply Z.leb_le. lia.
Qed.

Lemma newerOrSame_atLeastAsRecent (x y : Article) :
  publishedAt x <> None -> publishedAt y <> None ->
  newerOrSame x y = true -> atLeastAsRecent x y.
Proof.
  unfold newerOrSame, atLeastAsRecent.
  destruct (publishedAt x) as [dateX|], (publishedAt y) as [dateY|]; try congruence.
  intros _ _ H. apply Z.leb_le in H. exists dateX, dateY. auto.
Qed.

Lemma publishedOn_newerOrSame (date : Z) (x y : Article) :
  publishedOn date x = true -> publishedOn date y = true -> newerOrSame x y = true.
Proof.
  unfold publishedOn, newerOrSame.
  destruct (publishedAt x), (publishedAt y); try discriminate.
  intros Hx Hy. apply Z.eqb_eq in Hx, Hy. apply Z.leb_le. lia.
Qed.

(** A list of articles with valid dates, sorted by date, has every pair in
    order, and so has each of its prefixes. *)
Lemma sorted_newest_first (n : nat) (l : list Article) :
  Forall (fun a => publishedAt a <> None) l ->
  StronglySorted atLeastAsRecent (take n (sortBy newerOrSame l)).
Proof.
  intros Hvalid. apply StronglySorted_take.
  assert (Hsorted : Forall (fun a => publishedAt a <> None) (sortBy newerOrSame l)).
  { apply Forall_sortBy, Hvalid. }
  apply (StronglySorted_impl (fun x y => newerOrSame x y = true)).
  - rewrite List.Forall_forall in Hsorted. intros x y Hx Hy.
    apply newerOrSame_atLeastAsRecent; auto.
  - apply (inOrder_StronglySorted newerOrSame (fun a => publishedAt a <> None)).
    + exact newerOrSame_trans.
    + exact Hsorted.
    + apply sortBy_inOrder, newerOrSame_total.
Qed.

(** X12. [sortArticlesByDate] rearranges the articles and drops or adds
    none, whatever their dates. When every date is valid, the result is in
    date order, the most recent article first, and articles of one date keep
    the order that they have in the input. *)
Theorem sortArticlesByDate_newest_first (articles : list Article) :
  sortArticlesByDate articles ≡ₚ articles
  /\ (Forall (fun a => publishedAt a <> None) articles ->
      StronglySorted atLeastAsRecent (sortArticlesByDate articles)
      /\ (forall date,
             List.filter (publishedOn date) (sortArticlesByDate articles)
             = List.filter (publishedOn date) articles)).
Proof.
  unfold sortArticlesByDate. split; [|intros Hvalid; split].
  - apply sortBy_Permutation.
  - rewrite <- (take_ge (sortBy newerOrSame articles) (length articles)).
    + apply sorted_newest_first, Hvalid.
    + rewrite sortBy_length. lia.
  - intros date. apply sortBy_filter. apply publishedOn_newerOrSame.
Qed.

Lemma performDeduplication_positions (input : list Article) (a : Article) :
  In a (performDeduplication input) ->
  exists index x, input !! index = Some x /\ a = withInfo index x.
Proof.
  intros Ha. apply list_elem_of_In in Ha.
  pose proof (elem_of_sublist _ _ _ Ha (performDeduplication_sublist input)) as Hin.
  apply elem_of_lookup_imap in Hin as (index & x & -> & Hx).
  exists index, x. auto.
Qed.

Lemma performDeduplication_valid_dates (input : list Article) :
  Forall (fun a => publishedAt a <> None) input ->
  Forall (fun a => publishedAt a <> None) (performDeduplication input).
Proof.
  rewrite !List.Forall_forall. intros Hvalid a Ha.
  apply performDeduplication_positions in Ha as (index & x & Hx & ->).
  simpl. apply Hvalid. apply list_elem_of_In. apply (list_elem_of_lookup_2 _ index), Hx.
Qed.

(** X13. The output of the deduplicator. With a non-negative [maxArticles]
    and valid dates: the output has at most [maxArticles] articles, and no
    more than the input; it is in date order, the most recent first; its
    articles are survivors of the pass, none of them taken twice, so each is
    an input article stamped with its input position; and when the pass
    leaves at most [maxArticles] survivors, the output has them all. *)
Theorem deduplicateArticles_output (input : list Article) :
  (0 <= maxArticles config)%Z ->
  Forall (fun a => publishedAt a <> None) input ->
  let output := deduplicateArticles input in
  (Z.of_nat (length output) <= maxArticles config)%Z
  /\ (length output <= length input)%nat
  /\ StronglySorted atLeastAsRecent output
  /\ output ⊆+ performDeduplication input
  /\ (forall a, In a output ->
                exists index x, input !! index = Some x /\ a = withInfo index x)
  /\ ((Z.of_nat (length (performDeduplication input)) <= maxArticles config)%Z ->
      output ≡ₚ performDeduplication input).
Proof.
  intros Hmax Hvalid output.
  assert (Hout : output = sliceTo (maxArticles config)
                                  (sortBy newerOrSame (performDeduplication input)))
    by apply deduplicateArticles_unfold.
  assert (Hsub : output ⊆+ performDeduplication input).
  { rewrite Hout. unfold sliceTo.
    etransitivity; [apply submseteq_take|].
    apply Permutation_submseteq, sortBy_Permutation. }
  split; [|split; [|split; [|split; [|split]]]].
  - rewrite Hout. apply sliceTo_length, Hmax.
  - apply submseteq_length in Hsub.
    pose proof (sublist_length _ _ (performDeduplication_sublist input)) as Hlen.
    unfold Dedup.reindex in Hlen. rewrite length_imap in Hlen. lia.
  - rewrite Hout. unfold sliceTo.
    apply sorted_newest_first, performDeduplication_valid_dates, Hvalid.
  - exact Hsub.
  - intros a Ha. apply performDeduplication_positions.
    apply list_elem_of_In. apply (elem_of_submseteq output); [|exact Hsub].
    apply list_elem_of_In, Ha.
  - intros Hfits. rewrite Hout. unfold sliceTo. rewrite take_ge.
    + apply sortBy_Permutation.
    + rewrite sortBy_length. destruct (Z.ltb_spec (maxArticles config) 0); lia.
Qed.

(** *** URL normalization *)

Lemma filter_filter {A : Type} (f g : A -> bool) (l : list A) :
  List.filter f (List.filter g l) = List.filter (fun x => g x && f x) l.
Proof.
  induction l as [|x l IH]; [reflexivity|].
  simpl. destruct (g x); simpl; [|exact IH].
  destruct (f x); [f_equal|]; exact IH.
Qed.

(** Deleting the parameters of a list of names leaves the parameters with
    other names, in their order. *)
Lemma deleteParams_filter (names : list string) (params : list (string * string)) :
  fold_left (fun ps param => deleteParam param ps) names params
  = List.filter (fun kv => negb (has (fst kv) names)) params.
Proof.
  revert params. induction names as [|name names IH]; intros params; simpl.
  - induction params as [|kv params IHp]; [reflexivity|]. simpl. f_equal. exact IHp.
  - rewrite IH. unfold deleteParam. rewrite filter_filter.
    apply List.filter_ext. intros kv. unfold has. simpl.
    rewrite negb_orb. reflexivity.
Qed.

Lemma lowerChar_idem (c : ascii) : lowerChar (lowerChar c) = lowerChar c.
Proof. destruct c as [[] [] [] [] [] [] [] []]; reflexivity. Qed.

Lemma toLowerCase_idem (s : string) : toLowerCase (toLowerCase s) = toLowerCase s.
Proof.
  induction s as [|c s IH]; [reflexivity|]. simpl. rewrite lowerChar_idem, IH. reflexivity.
Qed.

Lemma cutQueryAndFragment_lower (s : string) :
  toLowerCase s = s -> toLowerCase (cutQueryAndFragment s) = cutQueryAndFragment s.
Proof.
  induction s as [|c s IH]; [reflexivity|].
  simpl. intros H. injection H as Hc Hs.
  destruct (_ && _); [reflexivity|]. simpl. rewrite Hc, (IH Hs). reflexivity.
Qed.

Lemma stripTrailingSlash_lower (s : string) :
  toLowerCase s = s -> toLowerCase (stripTrailingSlash s) = stripTrailingSlash s.
Proof.
  induction s as [|c s IH]; [reflexivity|].
  intros H. pose proof H as H'. simpl in H'. injection H' as Hc Hs.
  destruct s as [|c' s'].
  - simpl. destruct (Ascii.eqb c "/"); [reflexivity | exact H].
  - change (stripTrailingSlash (String c (String c' s')))
      with (String c (stripTrailingSlash (String c' s'))).
    change (toLowerCase (String c (stripTrailingSlash (String c' s'))))
      with (String (lowerChar c) (toLowerCase (stripTrailingSlash (String c' s')))).
    rewrite Hc, (IH Hs). reflexivity.
Qed.

Lemma normalizeUrl_lower (url : string) :
  toLowerCase (normalizeUrl url) = normalizeUrl url.
Proof.
  unfold Dedup.normalizeUrl. destruct (truthy url); [|reflexivity]. simpl.
  destruct (parseURL url) as [urlObj|].
  - apply toLowerCase_idem.
  - apply stripTrailingSlash_lower, cutQueryAndFragment_lower, toLowerCase_idem.
Qed.

(** X14. [normalizeUrl] leaves tracking parameters out of account: two URLs
    that the platform parses to the same origin and path, and to the same
    query parameters once those with one of the eleven tracking names are
    taken out, have the same normalized URL. The normalized URL of any text
    is in lower case. *)
Theorem normalizeUrl_ignores_tracking :
  (forall url : string, toLowerCase (normalizeUrl url) = normalizeUrl url)
  /\ (forall (url1 url2 : string) (parsed1 parsed2 : URL),
         url1 <> "" -> url2 <> "" ->
         parseURL url1 = Some parsed1 ->
         parseURL url2 = Some parsed2 ->
         origin parsed1 = origin parsed2 ->
         pathname parsed1 = pathname parsed2 ->
         List.filter (fun kv => negb (has (fst kv) trackingParams)) (searchParams parsed1)
         = List.filter (fun kv => negb (has (fst kv) trackingParams))
                       (searchParams parsed2) ->
         normalizeUrl url1 = normalizeUrl url2).
Proof.
  split; [exact normalizeUrl_lower|].
  intros url1 url2 parsed1 parsed2 H1 H2 Hp1 Hp2 Horigin Hpath Hparams.
  unfold Dedup.normalizeUrl.
  rewrite (truthy_nonempty url1 H1), (truthy_nonempty url2 H2), Hp1, Hp2. simpl negb.
  cbv iota. rewrite !deleteParams_filter, Horigin, Hpath, Hparams. reflexivity.
Qed.

End DedupFacts.

(** *** The deduplicator on sample articles *)

Section DedupSamples.
Import Dedup.

Local Abbreviation normalize := (normalizeUrl sampleParseURL sampleSearchParamsToString).
Local Abbreviation perform :=
  (performDeduplication sampleParseURL sampleSearchParamsToString defaultDedupConfig).
Local Abbreviation dedup :=
  (deduplicateArticles sampleParseURL sampleSearchParamsToString defaultDedupConfig).
Local Abbreviation stamp := (withInfo sampleParseURL sampleSearchParamsToString).

Example normalizeUrl_tracking :
  normalize "https://site.com/a?utm_source=x" = "https://site.com/a".
Proof. reflexivity. Qed.

Example normalizeUrl_fallback : normalize "Site.com/Path/?q=1#top" = "site.com/path".
Proof. reflexivity. Qed.

(** C1 (counterexample). The two URLs normalize to the same string, the
    second article is the more recent one, and the survivor is the first. *)
Lemma C1_counterexample :
  normalize (url olderReport) = normalize (url newerReport)
  /\ publishedAt olderReport = Some 1000%Z
  /\ publishedAt newerReport = Some 2000%Z
  /\ map withoutInfo (dedup [olderReport; newerReport]) = [olderReport].
Proof. vm_compute. repeat split; reflexivity. Qed.

(** The two reports of one page, the older one first. *)
Lemma C1_witness : dedup [olderReport; newerReport] = [stamp 0 olderReport].
Proof.
  apply (proj2 (C1_first_seen_member_survives sampleParseURL sampleSearchParamsToString
                  defaultDedupConfig eq_refl) olderReport [newerReport]).
  - simpl. lia.
  - reflexivity.
  - constructor; [split; reflexivity | constructor].
Defined.

(** C5 (counterexample). The second article passes the URL stage and is
    then marked a duplicate by its title: it is not accepted, yet its
    normalized URL is among the anchors, and a third article with that URL
    and another title is dropped, although it is kept when the second
    article is absent. *)
Lemma C5_counterexample :
  let final :=
    dedupLoop sampleParseURL sampleSearchParamsToString defaultDedupConfig
              initialState 0 [robotNews; robotBlog] in
  map indexOf (uniqueArticles final) = [Some 0%nat]
  /\ seenUrls final = ["https://news.example/robots"; "https://blog.example/2025/ai"]
  /\ map indexOf (perform [robotNews; robotBlog; chipBlog]) = [Some 0%nat]
  /\ map indexOf (perform [robotNews; chipBlog]) = [Some 0%nat; Some 1%nat].
Proof. vm_compute. repeat split; reflexivity. Qed.

(** C6 (counterexample). With the default configuration the first run
    keeps the articles of positions 0 and 2, and the second run returns them
    with the positions 0 and 1: its output differs from its input. With
    [MAX_ARTICLES_AFTER_DEDUP='-1'] every run drops the last article: of
    three distinct articles the first run keeps two and the second one. *)
Lemma C6_counterexample :
  let once := dedup [robotNews; robotBlog; chipNews] in
  let dedup' :=
    deduplicateArticles sampleParseURL sampleSearchParamsToString negativeCapConfig in
  let once' := dedup' [robotNews; newerReport; chipNews] in
  map indexOf once = [Some 0%nat; Some 2%nat]
  /\ map indexOf (dedup once) = [Some 0%nat; Some 1%nat]
  /\ dedup once <> once
  /\ map withoutInfo once' = [robotNews; newerReport]
  /\ map withoutInfo (dedup' once') = [robotNews].
Proof.
  intros once dedup' once'. repeat split; try (vm_compute; reflexivity).
  intros H. apply (f_equal (map indexOf)) in H. vm_compute in H. discriminate H.
Qed.

(** The default configuration on three articles, one of them a duplicate. *)
Lemma C6_witness :
  let once := dedup [robotNews; robotBlog; chipNews] in
  dedup once = reindex sampleParseURL sampleSearchParamsToString once
  /\ map withoutInfo (dedup once) = map withoutInfo once.
Proof.
  apply (C6_second_run_keeps_the_articles sampleParseURL sampleSearchParamsToString
           defaultDedupConfig [robotNews; robotBlog; chipNews]).
  - simpl. lia.
  - left. reflexivity.
  - repeat constructor; discriminate.
Defined.

(** C8 (counterexample). A URL that is a lone slash normalizes to the empty
    string; two such normalized URLs are identical and their similarity is
    0, and the similarity of the empty string and a URL of another domain is
    0 as well. With [ENABLE_URL_DEDUP='false'] two articles whose URLs
    normalize to the same string are both accepted. *)
Lemma C8_counterexample :
  normalize "/" = ""
  /\ calculateUrlSimilarity "" "" = 0%Q
  /\ domainOf "" <> domainOf "https://site.com/a"
  /\ calculateUrlSimilarity "" "https://site.com/a" = 0%Q
  /\ normalize (url olderReport) = normalize (url newerReport)
  /\ map indexOf
         (performDeduplication sampleParseURL sampleSearchParamsToString urlDedupOffConfig
                               [olderReport; newerReport])
     = [Some 0%nat; Some 1%nat].
Proof. vm_compute. repeat split; try reflexivity. discriminate. Qed.

(** The two reports of one page: the first is accepted, the second is not. *)
Lemma C8_witness :
  ~ acceptedAt 1 (perform [olderReport; newerReport])
  /\ ~ acceptedAt 1 (dedup [olderReport; newerReport]).
Proof.
  apply (proj2 (C8_urlSimilarity_and_exclusion sampleParseURL sampleSearchParamsToString
                  defaultDedupConfig) [] olderReport [] newerReport []).
  - reflexivity.
  - reflexivity.
  - reflexivity.
  - reflexivity.
  - exists (stamp 0 olderReport). split; [left|]; reflexivity.
Defined.

Example title_duplicates_are_dropped :
  map indexOf (dedup [robotNews; robotBlog]) = [Some 0%nat].
Proof. vm_compute. reflexivity. Qed.

(** The same article twice, with another between: the second copy is left
    out. *)
Lemma repeated_article_is_dropped_witness :
  url robotNews = url robotNews
  /\ ~ acceptedAt 2 (perform [robotNews; chipNews; robotNews]).
Proof.
  split; [reflexivity|].
  apply (repeated_article_is_dropped sampleParseURL sampleSearchParamsToString
           defaultDedupConfig [] robotNews [chipNews] robotNews []); reflexivity.
Defined.

(** Two articles without URL, title and content: both are kept. *)
Lemma unexamined_articles_are_kept_witness :
  perform [sampleArticle "" "" 1000; sampleArticle "" "" 2000]
  = reindex sampleParseURL sampleSearchParamsToString
            [sampleArticle "" "" 1000; sampleArticle "" "" 2000].
Proof.
  apply (unexamined_articles_are_kept sampleParseURL sampleSearchParamsToString
           defaultDedupConfig).
  repeat constructor.
Defined.

(** Three articles of three dates. *)
Lemma sortArticlesByDate_newest_first_witness :
  sortArticlesByDate [chipNews; robotNews; robotBlog] ≡ₚ [chipNews; robotNews; robotBlog]
  /\ StronglySorted atLeastAsRecent (sortArticlesByDate [chipNews; robotNews; robotBlog])
  /\ (forall date,
         List.filter (publishedOn date) (sortArticlesByDate [chipNews; robotNews; robotBlog])
         = List.filter (publishedOn date) [chipNews; robotNews; robotBlog]).
Proof.
  destruct (sortArticlesByDate_newest_first [chipNews; robotNews; robotBlog])
    as [Hsame Hordered].
  split; [exact Hsame|]. apply Hordered. repeat constructor; discriminate.
Defined.

(** The default configuration on one story under two URLs and one other
    article. *)
Lemma deduplicateArticles_output_witness :
  let input := [robotNews; robotBlog; chipNews] in
  let output := dedup input in
  (Z.of_nat (length output) <= 20)%Z
  /\ (length output <= length input)%nat
  /\ StronglySorted atLeastAsRecent output
  /\ output ⊆+ perform input
  /\ (forall a, In a output -> exists index x, input !! index = Some x /\ a = stamp index x)
  /\ ((Z.of_nat (length (perform input)) <= 20)%Z -> output ≡ₚ perform input).
Proof.
  intros input output.
  apply (deduplicateArticles_output sampleParseURL sampleSearchParamsToString
           defaultDedupConfig input).
  - simpl. lia.
  - repeat constructor; discriminate.
Defined.

(** The URL of the page with and without its tracking parameter. *)
Lemma normalizeUrl_ignores_tracking_witness :
  normalize "https://site.com/a?utm_source=x" = normalize "https://site.com/a"
  /\ toLowerCase (normalize "https://site.com/a?utm_source=x")
     = normalize "https://site.com/a?utm_source=x".
Proof.
  destruct (normalizeUrl_ignores_tracking sampleParseURL sampleSearchParamsToString)
    as [Hlower Hsame].
  split; [|apply Hlower].
  apply (Hsame "https://site.com/a?utm_source=x" "https://site.com/a"
               (mkURL "https://site.com" "/a" [("utm_source", "x")])
               (mkURL "https://site.com" "/a" []));
    try reflexivity; discriminate.
Defined.

End DedupSamples.


(** ** NewsAPI processing *)

Section NewsFacts.
Import NewsApi.

(** *** The relevance filter *)

Lemma keepsArticle_default (article : Article) :
  keepsArticle defaultFilterConfig article = relevantByDefault (relevanceFlags article).
Proof.
  unfold keepsArticle, relevantByDefault, relevanceScore.
  destruct (relevanceFlags article) as [ai japan tech recent image quality]. simpl.
  destruct (String.eqb quality "high"), ai, japan, tech, recent; vm_compute; reflexivity.
Qed.

(** X21. [filterArticles] with its default options keeps an article
    exactly when it has AI and Japan keywords, or one of the two together
    with a recent date or with technology keywords and a source of high
    quality: the sums of 0.3, 0.3, 0.1, 0.2 and 0.1 that reach the threshold
    0.5 in binary64 arithmetic. An article with neither AI nor Japan
    keywords is never kept. With any options, the result keeps the order of
    the input, and every article of it has the keywords that the options
    require. *)
Theorem filterArticles_default_keeps (articles : list Article) :
  filterArticles defaultFilterConfig articles
  = List.filter (fun article => relevantByDefault (relevanceFlags article)) articles
  /\ Forall (fun article =>
               hasAIKeywords (relevanceFlags article)
               || hasJapanKeywords (relevanceFlags article) = true)
            (filterArticles defaultFilterConfig articles)
  /\ (forall config,
         sublist (filterArticles config articles) articles
         /\ Forall (fun article =>
                      (requireAIKeywords config = true ->
                       hasAIKeywords (relevanceFlags article) = true)
                      /\ (requireJapanKeywords config = true ->
                          hasJapanKeywords (relevanceFlags article) = true))
                   (filterArticles config articles)).
Proof.
  assert (Hdefault : filterArticles defaultFilterConfig articles
                     = List.filter (fun article => relevantByDefault (relevanceFlags article))
                                   articles).
  { unfold filterArticles. apply List.filter_ext. exact keepsArticle_default. }
  split; [exact Hdefault|]. split.
  - rewrite Hdefault. apply List.Forall_forall. intros article Hin.
    apply List.filter_In in Hin as [_ Hkept]. unfold relevantByDefault in Hkept.
    destruct (hasAIKeywords _), (hasJapanKeywords _); try reflexivity.
    discriminate Hkept.
  - intros config. unfold filterArticles. clear Hdefault. split.
    + induction articles as [|article rest IH]; simpl; [constructor|].
      destruct (keepsArticle config article); [apply sublist_skip | apply sublist_cons];
        exact IH.
    + apply List.Forall_forall. intros article Hin.
      apply List.filter_In in Hin as [_ Hkept]. unfold keepsArticle in Hkept.
      destruct (_ <? _)%float; [discriminate|].
      destruct (requireAIKeywords config), (requireJapanKeywords config),
        (hasAIKeywords _), (hasJapanKeywords _); simpl in Hkept;
        try discriminate; split; intros; congruence.
Qed.

(** *** The articles that [processNewsAPI] emits *)

Section ProcessorFacts.
Variable hostname : string -> option string.
Variable parseDate : string -> option Z.
Variable toISOString : Z -> string.
Variable now : Z.

Local Abbreviation normalizedArticle :=
  (normalizedArticle hostname parseDate toISOString now).
Local Abbreviation processNewsAPI := (processNewsAPI hostname parseDate toISOString now).

Lemma processNewsAPI_loop (rawArticles : list Raw.t) (articles : list Article) :
  fold_left (fun articles article =>
               if negb (isValidArticle article) then articles
               else articles ++ [normalizedArticle article])
            rawArticles articles
  = articles ++ map normalizedArticle (List.filter isValidArticle rawArticles).
Proof.
  revert articles. induction rawArticles as [|article rest IH]; intros articles; simpl.
  - symmetry. apply app_nil_r.
  - rewrite IH. destruct (isValidArticle article); simpl; [|reflexivity].
    rewrite <- app_assoc. reflexivity.
Qed.

Lemma assessSourceQuality_levels (sourceName domain : string) :
  In (assessSourceQuality sourceName domain) ["high"; "medium"; "low"].
Proof.
  unfold assessSourceQuality.
  repeat match goal with
         | |- context [if ?b then _ else _] => destruct b
         end; simpl; auto.
Qed.

Lemma orElse_nonempty (x y : string) : y <> "" -> orElse x y <> "".
Proof.
  intros Hy. unfold orElse. destruct (truthy x) eqn:Hx; [|exact Hy].
  apply truthy_true, Hx.
Qed.

Lemma cleanTitle_length (title : string) : (String.length (cleanTitle title) <= 200)%nat.
Proof.
  unfold cleanTitle. destruct (negb (truthy title)); [simpl; lia | apply slice0_length].
Qed.

Lemma cleanDescription_length (description : string) :
  (String.length (cleanDescription description) <= 500)%nat.
Proof.
  unfold cleanDescription.
  destruct (negb (truthy description)); [simpl; lia | apply slice0_length].
Qed.

(** **** A title that cleaning leaves empty *)

Lemma collapseSpacesFrom_allSpace (inRun : bool) (s : string) :
  allChars isSpace (collapseSpacesFrom inRun s) = allChars isSpace s.
Proof.
  revert inRun. induction s as [|c s IH]; intros inRun; [reflexivity|].
  simpl. destruct (isSpace c) eqn:Hc.
  - destruct inRun; simpl; rewrite IH; reflexivity.
  - simpl. rewrite Hc. reflexivity.
Qed.

Lemma trimStart_empty (s : string) : trimStart s = "" <-> allChars isSpace s = true.
Proof.
  induction s as [|c s IH]; simpl; [tauto|].
  destruct (isSpace c); simpl; [exact IH|]. split; discriminate.
Qed.

Lemma trimStart_allSpace (s : string) :
  allChars isSpace (trimStart s) = allChars isSpace s.
Proof.
  induction s as [|c s IH]; [reflexivity|].
  simpl. destruct (isSpace c) eqn:Hc; simpl; [exact IH|]. rewrite Hc. reflexivity.
Qed.

Lemma trimEnd_empty (s : string) : trimEnd s = "" <-> allChars isSpace s = true.
Proof.
  induction s as [|c s IH]; simpl; [tauto|].
  destruct (trimEnd s) as [|d t].
  - destruct (isSpace c); simpl; [tauto|]. split; discriminate.
  - split; [discriminate|]. intros H. apply andb_true_iff in H as [_ H].
    apply IH in H. discriminate H.
Qed.

Lemma trim_collapse_empty (s : string) :
  trim (collapseSpaces s) = "" <-> allChars isSpace s = true.
Proof.
  unfold trim, collapseSpaces.
  rewrite trimEnd_empty, trimStart_allSpace, collapseSpacesFrom_allSpace. tauto.
Qed.

Lemma append_empty (a b : string) : a +:+ b = "" -> a = "".
Proof. destruct a; [reflexivity | discriminate]. Qed.

Lemma replaceAll_empty (pattern replacement s : string) :
  replacement <> "" -> (replaceAll pattern replacement s = "" <-> s = "").
Proof.
  intros Hr. unfold replaceAll. destruct s as [|c s]; simpl; [tauto|].
  split; [|discriminate].
  destruct (startsWith pattern (String c s)); [|discriminate].
  intros H. apply append_empty in H. contradiction.
Qed.

Lemma fixEntities_empty (s : string) : fixEntities s = "" <-> s = "".
Proof.
  unfold fixEntities.
  rewrite !replaceAll_empty; [tauto| | | |]; discriminate.
Qed.

Lemma slice0_empty (n : nat) (s : string) : slice0 (S n) s = "" <-> s = "".
Proof. destruct s; simpl; [tauto|]. split; discriminate. Qed.

Lemma cleanTitle_empty (title : string) :
  cleanTitle title = "" <-> allChars isSpace title = true.
Proof.
  unfold cleanTitle. destruct (String.eqb_spec title "") as [->|Hne].
  - simpl. tauto.
  - rewrite (truthy_nonempty title Hne). simpl negb. cbv iota.
    rewrite slice0_empty, fixEntities_empty. apply trim_collapse_empty.
Qed.

(** **** The white space of a cleaned title *)

Lemma collapsed_plainSpaces (inRun : bool) (s : string) :
  plainSpaces (collapseSpacesFrom inRun s) = true.
Proof.
  unfold plainSpaces. revert inRun. induction s as [|c s IH]; intros inRun; [reflexivity|].
  simpl. destruct (isSpace c) eqn:Hc.
  - destruct inRun; simpl; auto.
  - simpl. rewrite Hc. simpl. auto.
Qed.

Lemma trimStart_not_space (s : string) : startsWithSpace (trimStart s) = false.
Proof.
  induction s as [|c s IH]; [reflexivity|]. simpl.
  destruct (isSpace c) eqn:Hsp; [exact IH|]. simpl.
  destruct (Ascii.eqb_spec c " "%char) as [->|]; [discriminate Hsp | reflexivity].
Qed.

Lemma singleSpaced_cons (c : ascii) (s : string) :
  singleSpaced (String c s)
  = negb (Ascii.eqb c " " && startsWithSpace s) && singleSpaced s.
Proof. destruct s; simpl; [rewrite andb_false_r|]; reflexivity. Qed.

Section ReplaceFacts.
Variable pattern : string.
Variable r : ascii.
Hypothesis r_not_space : isSpace r = false.

Local Abbreviation replacement := (String r EmptyString).

Lemma r_not_blank : Ascii.eqb r " " = false.
Proof.
  destruct (Ascii.eqb_spec r " "%char) as [E|]; [|reflexivity].
  rewrite E in r_not_space. discriminate r_not_space.
Qed.

Lemma replaceAllFrom_no_space (s : string) :
  startsWithSpace s = false ->
  startsWithSpace (replaceAllFrom 0 pattern replacement s) = false.
Proof.
  destruct s as [|c s]; [reflexivity|]. intros Hc.
  simpl. destruct (startsWith pattern (String c s)); simpl; [apply r_not_blank | exact Hc].
Qed.

Lemma replaceAllFrom_shape (s : string) (skip : nat) :
  plainSpaces s = true -> singleSpaced s = true ->
  plainSpaces (replaceAllFrom skip pattern replacement s) = true
  /\ singleSpaced (replaceAllFrom skip pattern replacement s) = true.
Proof.
  unfold plainSpaces. revert skip. induction s as [|c s IH]; intros skip Hp Hs;
    [split; reflexivity|].
  simpl in Hp. apply andb_true_iff in Hp as [Hc Hp].
  rewrite singleSpaced_cons in Hs. apply andb_true_iff in Hs as [Hcs Hs].
  simpl. destruct skip as [|skip]; [|apply IH; assumption].
  destruct (startsWith pattern (String c s)).
  - destruct (IH (String.length pattern - 1)%nat Hp Hs) as [Hp' Hs'].
    change (replacement +:+ ?x) with (String r x). split.
    + simpl. rewrite r_not_space, Hp'. reflexivity.
    + rewrite singleSpaced_cons, r_not_blank, Hs'. reflexivity.
  - destruct (IH 0%nat Hp Hs) as [Hp' Hs']. split.
    + simpl. rewrite Hc, Hp'. reflexivity.
    + rewrite singleSpaced_cons, Hs', andb_true_r.
      destruct (Ascii.eqb c " "); [|reflexivity]. simpl in Hcs |- *.
      apply negb_true_iff in Hcs. rewrite (replaceAllFrom_no_space s Hcs). reflexivity.
Qed.

End ReplaceFacts.

Lemma fixEntities_shape (s : string) :
  plainSpaces s = true -> singleSpaced s = true -> startsWithSpace s = false ->
  plainSpaces (fixEntities s) = true
  /\ singleSpaced (fixEntities s) = true
  /\ startsWithSpace (fixEntities s) = false.
Proof.
  intros Hp Hs Hn. unfold fixEntities, replaceAll, quote.
  destruct (replaceAllFrom_shape "&quot;" (ascii_of_nat 34) eq_refl s 0 Hp Hs) as [Hp1 Hs1].
  pose proof (replaceAllFrom_no_space "&quot;" (ascii_of_nat 34) eq_refl s Hn) as Hn1.
  destruct (replaceAllFrom_shape "&amp;" "&" eq_refl _ 0 Hp1 Hs1) as [Hp2 Hs2].
  pose proof (replaceAllFrom_no_space "&amp;" "&" eq_refl _ Hn1) as Hn2.
  destruct (replaceAllFrom_shape "&lt;" "<" eq_refl _ 0 Hp2 Hs2) as [Hp3 Hs3].
  pose proof (replaceAllFrom_no_space "&lt;" "<" eq_refl _ Hn2) as Hn3.
  destruct (replaceAllFrom_shape "&gt;" ">" eq_refl _ 0 Hp3 Hs3) as [Hp4 Hs4].
  pose proof (replaceAllFrom_no_space "&gt;" ">" eq_refl _ Hn3) as Hn4.
  auto.
Qed.

Lemma trimmed_shape (s : string) :
  plainSpaces (trim (collapseSpaces s)) = true
  /\ singleSpaced (trim (collapseSpaces s)) = true
  /\ startsWithSpace (trim (collapseSpaces s)) = false.
Proof.
  unfold trim, collapseSpaces, plainSpaces. split; [|split].
  - apply trimEnd_allChars, trimStart_allChars. apply (collapsed_plainSpaces false s).
  - apply trimEnd_singleSpaced, trimStart_singleSpaced.
    apply (collapsed_singleSpaced false s).
  - apply trimEnd_no_space, trimStart_not_space.
Qed.

(** X22. A cleaned title has at most 200 characters; its only white space
    is the space character, never two in a row and never in front: the
    entity replacements leave the white space as the trimming made it. A
    cleaned description has at most 500 characters, but removing the
    bracketed markers after the trimming can leave a space in front and two
    spaces in a row. *)
Theorem cleanTitle_shape (title description : string) :
  (String.length (cleanTitle title) <= 200)%nat
  /\ plainSpaces (cleanTitle title) = true
  /\ singleSpaced (cleanTitle title) = true
  /\ startsWithSpace (cleanTitle title) = false
  /\ (String.length (cleanDescription description) <= 500)%nat
  /\ (exists marked,
         startsWithSpace (cleanDescription marked) = true
         /\ singleSpaced (cleanDescription marked) = false).
Proof.
  split; [apply cleanTitle_length|].
  assert (Hshape : plainSpaces (cleanTitle title) = true
                   /\ singleSpaced (cleanTitle title) = true
                   /\ startsWithSpace (cleanTitle title) = false).
  { unfold cleanTitle. destruct (negb (truthy title)); [repeat split|].
    destruct (trimmed_shape title) as (Hp & Hs & Hn).
    destruct (fixEntities_shape _ Hp Hs Hn) as (Hp' & Hs' & Hn').
    split; [|split].
    - apply slice0_allChars, Hp'.
    - apply slice0_singleSpaced, Hs'.
    - apply slice0_no_space, Hn'. }
  destruct Hshape as (Hp & Hs & Hn). repeat split; try assumption.
  - apply cleanDescription_length.
  - exists "[new] Robots [video] at work". split; reflexivity.
Qed.

Lemma orElse_empty (x : string) : orElse x "" = x.
Proof.
  unfold orElse. destruct (truthy x) eqn:Hx; [reflexivity|].
  symmetry. apply truthy_false, Hx.
Qed.

Lemma isValidArticle_facts (article : Raw.t) :
  isValidArticle article = true ->
  Raw.title article <> "" /\ Raw.url article <> ""
  /\ includes (Raw.url article) "[Removed]" = false
  /\ includes (Raw.title article) "[Removed]" = false
  /\ orElse (orElse (Raw.content article) (Raw.description article)) "" <> ""
  /\ (50 <= String.length (Raw.description article)
             + String.length (Raw.content article))%nat.
Proof.
  unfold isValidArticle. rewrite !orElse_empty.
  destruct (truthy (Raw.title article)) eqn:Ht; [|discriminate].
  destruct (truthy (Raw.url article)) eqn:Hu; [|discriminate]. simpl.
  destruct (includes (Raw.url article) "[Removed]"); [discriminate|].
  destruct (includes (Raw.title article) "[Removed]"); [discriminate|]. simpl.
  destruct (negb (truthy (Raw.description article))
            && negb (truthy (Raw.content article))) eqn:Hdc; [discriminate|].
  destruct (Nat.ltb_spec (String.length (Raw.description article)
                          + String.length (Raw.content article)) 50) as [|Hlen];
    [discriminate|].
  intros _. apply truthy_true in Ht, Hu. repeat split; try assumption.
  unfold orElse.
  destruct (truthy (Raw.content article)) eqn:Hc; [apply truthy_true, Hc|].
  destruct (truthy (Raw.description article)) eqn:Hd; [apply truthy_true, Hd|].
  discriminate Hdc.
Qed.

(** X23. The articles that [processNewsAPI] emits are the valid articles of
    the response, normalized, in their order. Each has a URL that is not
    empty and does not contain [[Removed]], a content and a source that are
    not empty, the type [news], a title of at most 200 characters, a
    description of at most 500, and a source quality that is [high],
    [medium] or [low]. The title of an emitted article is empty exactly when
    the title of the response article is white space only, and
    [isValidArticle] lets such an article through. A response without
    articles gives no article. *)
Theorem processNewsAPI_output (rawArticles : list Raw.t) :
  let output := processNewsAPI (Some rawArticles) in
  output = map normalizedArticle (List.filter isValidArticle rawArticles)
  /\ (length output <= length rawArticles)%nat
  /\ Forall (fun article =>
               let draft := fields article in
               url draft <> ""
               /\ includes (url draft) "[Removed]" = false
               /\ content draft <> ""
               /\ source draft <> ""
               /\ type draft = "news"
               /\ (String.length (title draft) <= 200)%nat
               /\ (String.length (description draft) <= 500)%nat
               /\ In (sourceQuality (relevanceFlags article)) ["high"; "medium"; "low"])
            output
  /\ (forall raw, title (fields (normalizedArticle raw)) = ""
                  <-> allChars isSpace (Raw.title raw) = true)
  /\ (exists raw, isValidArticle raw = true /\ title (fields (normalizedArticle raw)) = "")
  /\ processNewsAPI None = [].
Proof.
  intros output.
  assert (Hout : output = map normalizedArticle (List.filter isValidArticle rawArticles)).
  { unfold output, NewsApi.processNewsAPI. apply (processNewsAPI_loop rawArticles []). }
  split; [exact Hout|]. split; [|split; [|split; [|split]]].
  - rewrite Hout, length_map. apply List.filter_length_le.
  - rewrite Hout. apply List.Forall_forall. intros article Hin.
    apply in_map_iff in Hin as (raw & <- & Hraw).
    apply List.filter_In in Hraw as [_ Hvalid].
    destruct (isValidArticle_facts raw Hvalid) as (_ & Hurl & Hremoved & _ & Hcontent & _).
    simpl. repeat split; try assumption.
    + apply orElse_nonempty. discriminate.
    + apply cleanTitle_length.
    + apply cleanDescription_length.
    + apply assessSourceQuality_levels.
  - intros raw. apply cleanTitle_empty.
  - exists blankTitled. split; reflexivity.
  - reflexivity.
Qed.

End ProcessorFacts.

End NewsFacts.
